(** * Form detection and batch/retry engine: a shallow embedding

    The development follows the JavaScript sources file by file:

    - [FormDetectionEngine]  : src/form-detection-engine.js
    - [AutomationCoreForms]  : the copies of [isHidden] and
      [fallbackVisualDetection] consolidated in automation-core.js
      (src/unnamed/part_003, lines 25-46 and 163-216)
    - [BatchProcessor]       : batch-processor.js (src/unnamed/part_000)
    - [AutomationCoreBatch]  : the copy of the batch processor consolidated
      in automation-core.js (src/unnamed/part_003, lines 663-840)
    - [AutomationCoreMappings] : the copy of [suggestMappings] consolidated
      in automation-core.js (src/unnamed/part_003, lines 129-161)
    - [ContentScript]        : the typing routine content-script.js injects
      (src/unnamed/part_000, lines 795-809)
    - [HumanSimulation]      : [addRandomization] and [simulateTyping] of
      human-simulation.js (src/unnamed/part_003, lines 242-306)
    - [RegExp], [isSensitiveField] : the field-name patterns of
      automation-core.js (src/unnamed/part_003, lines 1150-1163)
    - [SessionManager]       : session-manager.js (src/unnamed/part_000,
      lines 307-540)

    JavaScript values are modelled as follows.  Numbers that the code only
    counts with are [Z]; coordinates of bounding rectangles are rationals
    [Q]; strings are [string]; [null]/[undefined] is [None]; an exception
    is a [Thrown] completion. *)

From Stdlib Require Import ZArith QArith Qabs Qround String Ascii List Bool Lia.
From Stdlib Require Import Sorted Btauto.
From Stdlib Require Import DecimalString DecimalNat.

Import ListNotations.

Local Open Scope string_scope.
Local Open Scope list_scope.

(** ** JavaScript completions and a few primitives *)

Record JsError := mkError { err_name : string; err_message : string }.

Inductive Completion (A : Type) : Type :=
| Returned (a : A)
| Thrown (e : JsError).
Arguments Returned {A} a.
Arguments Thrown {A} e.

Definition TypeError (msg : string) : JsError := mkError "TypeError" msg.
Definition Error (msg : string) : JsError := mkError "Error" msg.

(** Truthiness of a string: only the empty string is falsy. *)
Definition truthy (s : string) : bool := negb (s =? "")%string.

(** [a || b] on strings. *)
Definition str_or (a b : string) : string := if truthy a then a else b.

Definition lower_ascii (c : ascii) : ascii :=
  let n := nat_of_ascii c in
  if (65 <=? n)%nat && (n <=? 90)%nat then ascii_of_nat (n + 32) else c.

Fixpoint toLowerCase (s : string) : string :=
  match s with
  | EmptyString => EmptyString
  | String c rest => String (lower_ascii c) (toLowerCase rest)
  end.

(** Template literal of a natural number, as in [`${idx}`]. *)
Definition string_of_nat (n : nat) : string :=
  NilZero.string_of_uint (Nat.to_uint n).

Definition Qltb (a b : Q) : bool := negb (Qle_bool b a).

(** ** DOM model shared by the two copies of the detection engine *)

Record ComputedStyle := mkStyle {
  display : string;
  visibility : string;
  opacity : string
}.

(** A window (document view).  [getComputedStyle] is modelled by the
    [computed] field of the node it is asked about. *)
Record Window := mkWindow { window_name : string }.

Record Document := mkDocument { defaultView : option Window }.

#[warnings="-register-all"]
Inductive Node : Type := mkNode {
  nodeType : Z;
  ownerDocument : option Document;
  computed : ComputedStyle;
  classList : list string;
  aria_hidden : option string;      (* the attribute; [None] when absent *)
  parentElement : option Node
}.

Definition getComputedStyle (view : Window) (node : Node) : ComputedStyle :=
  computed node.

Definition classList_contains (node : Node) (cls : string) : bool :=
  existsb (String.eqb cls) (classList node).

Definition hasAttribute_aria_hidden (node : Node) : bool :=
  match aria_hidden node with Some _ => true | None => false end.

Definition getAttribute_aria_hidden_not_false (node : Node) : bool :=
  match aria_hidden node with
  | Some v => negb (v =? "false")%string
  | None => true   (* null !== 'false' *)
  end.

Record DOMRect := mkRect { rect_top : Q; rect_bottom : Q }.

(** An element as the clusterer sees it: the attributes the selectors test,
    the properties the code reads, its rectangle, and its place in the
    tree ([el_node]) for the visibility walk. *)
Record Element := mkElement {
  el_tagName : string;
  el_attr_type : option string;
  el_attr_disabled : bool;
  el_attr_contenteditable : option string;
  el_name : string;
  el_id : string;
  el_type : string;                 (* [""] when the property is absent *)
  el_placeholder : string;
  el_required : bool;
  el_autocomplete : string;
  el_disabled : bool;
  el_rect : DOMRect;
  el_node : Node
}.

Definition getBoundingClientRect (el : Element) : DOMRect := el_rect el.

Inductive Selector :=
| Sel_input_not_hidden_not_disabled   (* input:not([type="hidden"]):not([disabled]) *)
| Sel_select_not_disabled             (* select:not([disabled]) *)
| Sel_textarea_not_disabled           (* textarea:not([disabled]) *)
| Sel_contenteditable_true.           (* [contenteditable="true"] *)

Definition opt_str_is (o : option string) (s : string) : bool :=
  match o with Some v => (v =? s)%string | None => false end.

Definition selector_matches (sel : Selector) (el : Element) : bool :=
  match sel with
  | Sel_input_not_hidden_not_disabled =>
      (el_tagName el =? "INPUT")%string
      && negb (opt_str_is (el_attr_type el) "hidden")
      && negb (el_attr_disabled el)
  | Sel_select_not_disabled =>
      (el_tagName el =? "SELECT")%string && negb (el_attr_disabled el)
  | Sel_textarea_not_disabled =>
      (el_tagName el =? "TEXTAREA")%string && negb (el_attr_disabled el)
  | Sel_contenteditable_true =>
      opt_str_is (el_attr_contenteditable el) "true"
  end.

(** A snapshot is the list of its elements in document order. *)
Definition Snapshot := list Element.

Definition querySelectorAll (snapshot : Snapshot) (sel : Selector) : list Element :=
  List.filter (selector_matches sel) snapshot.

(** Form and field descriptors. *)
Record FieldDescriptor := mkField {
  fld_name : string;
  fld_id : string;
  fld_type : string;
  fld_label : string;
  fld_placeholder : string;
  fld_required : bool;
  fld_autocomplete : string;
  fld_node : option Element
}.

Record FormDescriptor := mkForm {
  form_node : option Element;
  form_id : string;
  form_name : string;
  form_action : string;
  form_method : string;
  form_synthetic : bool;
  form_fields : list FieldDescriptor
}.

(** [Array.prototype.sort] with the comparator [rectA.top - rectB.top]: the
    stable ascending sort on [top]. *)
Fixpoint sort_insert (el : Element) (sorted : list Element) : list Element :=
  match sorted with
  | [] => [el]
  | y :: rest =>
      if Qle_bool (rect_top (getBoundingClientRect el)) (rect_top (getBoundingClientRect y))
      then el :: y :: rest
      else y :: sort_insert el rest
  end.

Definition sort_by_top (els : list Element) : list Element :=
  List.fold_right sort_insert [] els.

(** State of the greedy pass: [clusterForms], [cluster], [lastBottom]. *)
Definition ClusterState : Type := list (list Element) * list Element * option Q.

Definition cluster_step (st : ClusterState) (el : Element) : ClusterState :=
  let '(clusterForms, cluster, lastBottom) := st in
  let rect := getBoundingClientRect el in
  if match lastBottom with
     | None => true
     | Some lb => Qltb (Qabs (rect_top rect - lb)) 60
     end
  then (clusterForms, cluster ++ [el], Some (rect_bottom rect))
  else ((if (2 <=? length cluster)%nat then clusterForms ++ [cluster] else clusterForms),
        [el], Some (rect_bottom rect)).

Definition cluster_controls (visibleControls : list Element) : list (list Element) :=
  let '(clusterForms, cluster, _) :=
    List.fold_left cluster_step visibleControls ([], [], None) in
  if (2 <=? length cluster)%nat then clusterForms ++ [cluster] else clusterForms.

Definition cluster_field (el : Element) : FieldDescriptor :=
  {| fld_name := str_or (el_name el) "";
     fld_id := str_or (el_id el) "";
     fld_type := toLowerCase (str_or (el_type el) (el_tagName el));
     fld_label := "";
     fld_placeholder := str_or (el_placeholder el) "";
     fld_required := el_required el;
     fld_autocomplete := str_or (el_autocomplete el) "";
     fld_node := Some el |}.

(** [clusterForms.map((clusterEls, idx) => ...)] *)
Fixpoint mapi_from {A B : Type} (f : A -> nat -> B) (idx : nat) (l : list A) : list B :=
  match l with
  | [] => []
  | x :: rest => f x idx :: mapi_from f (S idx) rest
  end.

Definition mapi {A B : Type} (f : A -> nat -> B) (l : list A) : list B :=
  mapi_from f 0 l.

(** ** src/form-detection-engine.js *)
Module FormDetectionEngine.

Definition FORM_FIELD_SELECTORS : list Selector :=
  [ Sel_input_not_hidden_not_disabled; Sel_select_not_disabled;
    Sel_textarea_not_disabled; Sel_contenteditable_true ].

Definition FORM_IGNORE_CLASSES : list string := ["hidden"; "invisible"; "display-none"].

(** The body of the [while (node)] loop, for a non-null [node]. *)
Fixpoint isHidden_walk (node : Node) : Completion bool :=
  if negb (nodeType node =? 1)%Z then Returned false   (* break *)
  else
    match ownerDocument node with
    | None => Thrown (TypeError "Cannot read properties of null (reading 'defaultView')")
    | Some doc =>
        match defaultView doc with
        | None => Thrown (TypeError "Cannot read properties of null (reading 'getComputedStyle')")
        | Some view =>
            let computed := getComputedStyle view node in
            if (display computed =? "none")%string
               || (visibility computed =? "hidden")%string
               || (opacity computed =? "0")%string
               || existsb (fun cls => classList_contains node cls) FORM_IGNORE_CLASSES
               || (hasAttribute_aria_hidden node && getAttribute_aria_hidden_not_false node)
            then Returned true
            else
              match parentElement node with
              | None => Returned false
              | Some parent => isHidden_walk parent
              end
        end
    end.

Definition isHidden (el : option Node) : Completion bool :=
  match el with
  | None => Returned false
  | Some node => isHidden_walk node
  end.

(** [controls.filter((el) => !isHidden(el) && !el.disabled)] *)
Fixpoint filter_visible (controls : list Element) : Completion (list Element) :=
  match controls with
  | [] => Returned []
  | el :: rest =>
      match isHidden (Some (el_node el)) with
      | Thrown e => Thrown e
      | Returned hidden =>
          match filter_visible rest with
          | Thrown e => Thrown e
          | Returned kept =>
              Returned (if negb hidden && negb (el_disabled el) then el :: kept else kept)
          end
      end
  end.

Definition synthetic_form (clusterEls : list Element) (idx : nat) : FormDescriptor :=
  {| form_node := None;
     form_id := "";
     form_name := "";
     form_action := "";
     form_method := "";
     form_synthetic := true;
     form_fields := List.map cluster_field clusterEls |}.

Definition fallbackVisualDetection (domSnapshot : Snapshot) : Completion (list FormDescriptor) :=
  let controls := List.flat_map (querySelectorAll domSnapshot) FORM_FIELD_SELECTORS in
  match filter_visible controls with
  | Thrown e => Thrown e
  | Returned visibleControls =>
      if (length visibleControls =? 0)%nat then Returned []
      else
        let sorted := sort_by_top visibleControls in
        let clusterForms := cluster_controls sorted in
        Returned (mapi synthetic_form clusterForms)
  end.

(** *** suggestMappings *)

Inductive FieldMatch :=
| FM_absent
| FM_function (fn : FieldDescriptor -> bool)
| FM_regexp (test : string -> bool).

Inductive TypeMatch :=
| TM_absent
| TM_string (s : string)
| TM_array (l : list string).

Record MappingRule := mkRule {
  fieldMatch : FieldMatch;
  typeMatch : TypeMatch;
  suggest : string
}.

Record MappingSuggestion := mkSuggestion {
  sug_field : FieldDescriptor;
  sug_mapping : option string
}.

(** The expression bound to [matches] in the rule loop. *)
Definition rule_matches (rule : MappingRule) (field : FieldDescriptor) : bool :=
  match fieldMatch rule with
  | FM_absent => false
  | FM_function fn => fn field
  | FM_regexp test =>
      (truthy (fld_name field) && test (fld_name field))
      || (truthy (fld_id field) && test (fld_id field))
      || (truthy (fld_label field) && test (fld_label field))
  end
  &&
  match typeMatch rule with
  | TM_absent => true
  | TM_string s => negb (truthy s) || (fld_type field =? s)%string
  | TM_array l => existsb (String.eqb (fld_type field)) l
  end.

(** [for (const rule of rules) { if (matches) { bestMatch = rule.suggest; break; } }] *)
Fixpoint bestMatch_of (rules : list MappingRule) (field : FieldDescriptor) : option string :=
  match rules with
  | [] => None
  | rule :: rest =>
      if rule_matches rule field then Some (suggest rule) else bestMatch_of rest field
  end.

Definition suggest_one (rules : option (list MappingRule)) (field : FieldDescriptor)
  : MappingSuggestion :=
  let bestMatch :=
    match rules with
    | Some rs => bestMatch_of rs field
    | None => None
    end in
  match bestMatch with
  | Some s => if truthy s then mkSuggestion field (Some s) else mkSuggestion field None
  | None => mkSuggestion field None
  end.

Definition suggestMappings (formFields : list FieldDescriptor)
  (rules : option (list MappingRule)) : list MappingSuggestion :=
  List.map (suggest_one rules) formFields.

End FormDetectionEngine.

(** ** automation-core.js: the consolidated copies of the visibility walk
    and of the visual clusterer (src/unnamed/part_003) *)
Module AutomationCoreForms.

Definition FORM_FIELD_SELECTORS : list Selector :=
  [ Sel_input_not_hidden_not_disabled; Sel_select_not_disabled;
    Sel_textarea_not_disabled; Sel_contenteditable_true ].

Definition FORM_IGNORE_CLASSES : list string := ["hidden"; "invisible"; "display-none"].

(** This copy tests [ownerDocument] and [defaultView] before it asks for the
    computed style, so the walk cannot throw. *)
Fixpoint isHidden_walk (node : Node) : bool :=
  if negb (nodeType node =? 1)%Z then false   (* break *)
  else
    match ownerDocument node with
    | None => true
    | Some doc =>
        match defaultView doc with
        | None => true
        | Some view =>
            let computed := getComputedStyle view node in
            if (display computed =? "none")%string
               || (visibility computed =? "hidden")%string
               || (opacity computed =? "0")%string
               || existsb (fun cls => classList_contains node cls) FORM_IGNORE_CLASSES
               || (hasAttribute_aria_hidden node && getAttribute_aria_hidden_not_false node)
            then true
            else
              match parentElement node with
              | None => false
              | Some parent => isHidden_walk parent
              end
        end
    end.

Definition isHidden (el : option Node) : bool :=
  match el with
  | None => false
  | Some node => isHidden_walk node
  end.

Definition synthetic_form (clusterEls : list Element) (idx : nat) : FormDescriptor :=
  {| form_node := None;
     form_id := "synthetic-form-" ++ string_of_nat idx;
     form_name := "syntheticForm" ++ string_of_nat idx;
     form_action := "";
     form_method := "POST";
     form_synthetic := true;
     form_fields := List.map cluster_field clusterEls |}.

Definition fallbackVisualDetection (domSnapshot : Snapshot) : list FormDescriptor :=
  let controls := List.flat_map (querySelectorAll domSnapshot) FORM_FIELD_SELECTORS in
  let visibleControls :=
    List.filter (fun el => negb (isHidden (Some (el_node el))) && negb (el_disabled el)) controls in
  if (length visibleControls =? 0)%nat then []
  else
    let sorted := sort_by_top visibleControls in
    let clusterForms := cluster_controls sorted in
    mapi synthetic_form clusterForms.

End AutomationCoreForms.

(** ** Batch processor: data model *)

Definition Profile := string.
Definition Row := string.
Definition BatchConfig := string.
Definition BatchId := string.

Inductive Status := Scheduled | Running | Completed | Failed.

Definition Status_eqb (a b : Status) : bool :=
  match a, b with
  | Scheduled, Scheduled | Running, Running
  | Completed, Completed | Failed, Failed => true
  | _, _ => false
  end.

Record Progress := mkProgress {
  p_total : Z;
  p_processed : Z;
  p_failed : Z;
  p_succeeded : Z
}.

Record Summary := mkSummary {
  sum_total : Z;
  sum_succeeded : Z;
  sum_failed : Z;
  sum_completedAt : Z
}.

Record FailureRecord := mkFailure {
  f_row : Row;
  f_profile : Profile;
  f_error : string;
  f_attempt : Z
}.

(** What [processForm] resolves with. *)
Record Result := mkResult {
  res_profile : Profile;
  res_row : Row;
  res_status : string
}.

Record Batch := mkBatch {
  b_id : BatchId;
  b_profile : Profile;
  b_batchConfig : BatchConfig;
  b_inputRows : list Row;
  b_status : Status;
  b_progress : Progress;
  b_createdAt : Z;
  b_updatedAt : Z;
  b_logs : list string;
  b_summary : option Summary;
  b_failures : list FailureRecord;
  b_retries : list string
}.

Definition set_inputRows (v : list Row) (b : Batch) : Batch :=
  mkBatch (b_id b) (b_profile b) (b_batchConfig b) v (b_status b) (b_progress b)
          (b_createdAt b) (b_updatedAt b) (b_logs b) (b_summary b) (b_failures b) (b_retries b).
Definition set_status (v : Status) (b : Batch) : Batch :=
  mkBatch (b_id b) (b_profile b) (b_batchConfig b) (b_inputRows b) v (b_progress b)
          (b_createdAt b) (b_updatedAt b) (b_logs b) (b_summary b) (b_failures b) (b_retries b).
Definition set_progress (v : Progress) (b : Batch) : Batch :=
  mkBatch (b_id b) (b_profile b) (b_batchConfig b) (b_inputRows b) (b_status b) v
          (b_createdAt b) (b_updatedAt b) (b_logs b) (b_summary b) (b_failures b) (b_retries b).
Definition set_updatedAt (v : Z) (b : Batch) : Batch :=
  mkBatch (b_id b) (b_profile b) (b_batchConfig b) (b_inputRows b) (b_status b) (b_progress b)
          (b_createdAt b) v (b_logs b) (b_summary b) (b_failures b) (b_retries b).
Definition set_summary (v : option Summary) (b : Batch) : Batch :=
  mkBatch (b_id b) (b_profile b) (b_batchConfig b) (b_inputRows b) (b_status b) (b_progress b)
          (b_createdAt b) (b_updatedAt b) (b_logs b) v (b_failures b) (b_retries b).
Definition set_failures (v : list FailureRecord) (b : Batch) : Batch :=
  mkBatch (b_id b) (b_profile b) (b_batchConfig b) (b_inputRows b) (b_status b) (b_progress b)
          (b_createdAt b) (b_updatedAt b) (b_logs b) (b_summary b) v (b_retries b).

Definition set_total (v : Z) (p : Progress) : Progress :=
  mkProgress v (p_processed p) (p_failed p) (p_succeeded p).
Definition incr_processed (p : Progress) : Progress :=
  mkProgress (p_total p) (p_processed p + 1) (p_failed p) (p_succeeded p).
Definition incr_failed (p : Progress) : Progress :=
  mkProgress (p_total p) (p_processed p) (p_failed p + 1) (p_succeeded p).
Definition incr_succeeded (p : Progress) : Progress :=
  mkProgress (p_total p) (p_processed p) (p_failed p) (p_succeeded p + 1).

(** Events emitted on [batchEmitter]. *)
Inductive BatchEvent :=
| batchStarted (batchId : BatchId)
| progress (batchId : BatchId) (snapshot : Progress)
| batchCompleted (batchId : BatchId) (summary : option Summary)
| batchFinalized (batchId : BatchId) (summary : option Summary).

(** The [data] argument of [logBatchEvent]. *)
Inductive LogData :=
| Log_scheduled (profile : Profile) (batchConfig : BatchConfig)
| Log_started (total : Z)
| Log_rowFailure (idx : nat) (error : string) (row : Row)
| Log_summary (summary : option Summary)
| Log_retryFailure (profile : Profile) (error : string) (row : Row) (attempt : Z).

Record LogLine := mkLogLine {
  log_stamp : Z;
  log_batch : string;
  log_event : string;
  log_data : LogData
}.

Record RetryPolicy := mkPolicy {
  maxAttempts : option Z;
  retryDelayMs : option Z
}.

(** [x || d] on a number that may be absent: [undefined] and [0] are falsy. *)
Definition num_or (x : option Z) (d : Z) : Z :=
  match x with
  | Some v => if (v =? 0)%Z then d else v
  | None => d
  end.

Record ExecResult := mkExecResult {
  r_batchId : BatchId;
  r_results : list Result;
  r_failures : list FailureRecord
}.

Record RetryResult := mkRetryResult {
  rr_succeeded : list Result;
  rr_failures : list FailureRecord
}.

(** ** The world the batch processor runs in

    Batch objects live in [heap] (an address is the allocation number); the
    module-level [batches] Map holds, in insertion order, the address bound
    to each key.  The environment [Env] fixes what the outside answers:
    the identifiers [uuidv4] returns, the clock, whether a file-system call
    succeeds and the draws of [Math.random]. *)

Record Env := mkEnv {
  uuid_at : nat -> BatchId;
  clock_at : nat -> Z;
  fs_ok_at : nat -> bool;
  random_at : nat -> Q;
  dirname : string               (* [__dirname] of batch-processor.js *)
}.

Record World := mkWorld {
  heap : nat -> Batch;
  next_addr : nat;
  batches : list (BatchId * nat);
  state_files : list (string * list (BatchId * Batch));  (* path, content; latest write first *)
  log_files : list (string * LogLine);                   (* path, appended line; oldest first *)
  console : list string;
  emitted : list BatchEvent;                             (* oldest first *)
  n_uuid : nat;
  n_clock : nat;
  n_fs : nat;
  n_random : nat
}.

Definition blank_batch : Batch :=
  mkBatch "" "" "" [] Scheduled (mkProgress 0 0 0 0) 0 0 [] None [] [].

Definition fresh_world : World :=
  mkWorld (fun _ => blank_batch) 0 [] [] [] [] [] 0 0 0 0.

Definition M (A : Type) : Type := World -> A * World.

Definition ret {A : Type} (a : A) : M A := fun w => (a, w).

Definition bind {A B : Type} (m : M A) (k : A -> M B) : M B :=
  fun w => let (a, w') := m w in k a w'.

Notation "x <- m ;; k" := (bind m (fun x => k))
  (at level 100, m at next level, right associativity).
Notation "m ;; k" := (bind m (fun _ => k))
  (at level 100, right associativity).

Section Primitives.

Variable env : Env.

Definition uuidv4 : M BatchId := fun w =>
  (uuid_at env (n_uuid w),
   mkWorld (heap w) (next_addr w) (batches w) (state_files w) (log_files w)
           (console w) (emitted w) (S (n_uuid w)) (n_clock w) (n_fs w) (n_random w)).

Definition Date_now : M Z := fun w =>
  (clock_at env (n_clock w),
   mkWorld (heap w) (next_addr w) (batches w) (state_files w) (log_files w)
           (console w) (emitted w) (n_uuid w) (S (n_clock w)) (n_fs w) (n_random w)).

Definition Math_random : M Q := fun w =>
  (random_at env (n_random w),
   mkWorld (heap w) (next_addr w) (batches w) (state_files w) (log_files w)
           (console w) (emitted w) (n_uuid w) (n_clock w) (n_fs w) (S (n_random w))).

(** [new Map] entries as JSON: the key with a copy of the object it is bound to. *)
Definition entries_snapshot (w : World) : list (BatchId * Batch) :=
  List.map (fun kv => (fst kv, heap w (snd kv))) (batches w).

(** [fs.writeFileSync(path, JSON.stringify([...batches.entries()]))] *)
Definition fs_writeFileSync_batches (path : string) : M (Completion unit) := fun w =>
  if fs_ok_at env (n_fs w)
  then (Returned tt,
        mkWorld (heap w) (next_addr w) (batches w)
                ((path, entries_snapshot w) :: state_files w) (log_files w)
                (console w) (emitted w) (n_uuid w) (n_clock w) (S (n_fs w)) (n_random w))
  else (Thrown (Error "EACCES"),
        mkWorld (heap w) (next_addr w) (batches w) (state_files w) (log_files w)
                (console w) (emitted w) (n_uuid w) (n_clock w) (S (n_fs w)) (n_random w)).

Definition fs_appendFileSync (path : string) (entry : LogLine) : M (Completion unit) := fun w =>
  if fs_ok_at env (n_fs w)
  then (Returned tt,
        mkWorld (heap w) (next_addr w) (batches w) (state_files w)
                (log_files w ++ [(path, entry)])
                (console w) (emitted w) (n_uuid w) (n_clock w) (S (n_fs w)) (n_random w))
  else (Thrown (Error "EACCES"),
        mkWorld (heap w) (next_addr w) (batches w) (state_files w) (log_files w)
                (console w) (emitted w) (n_uuid w) (n_clock w) (S (n_fs w)) (n_random w)).

(** [fs.existsSync(path)] followed by reading and parsing the file. *)
Definition fs_read_batches (path : string) : M (option (Completion (list (BatchId * Batch)))) :=
  fun w =>
    match List.find (fun pc => (fst pc =? path)%string) (state_files w) with
    | None => (None, w)
    | Some pc =>
        (Some (if fs_ok_at env (n_fs w) then Returned (snd pc) else Thrown (Error "EACCES")),
         mkWorld (heap w) (next_addr w) (batches w) (state_files w) (log_files w)
                 (console w) (emitted w) (n_uuid w) (n_clock w) (S (n_fs w)) (n_random w))
    end.

End Primitives.

Definition console_log (msg : string) : M unit := fun w =>
  (tt, mkWorld (heap w) (next_addr w) (batches w) (state_files w) (log_files w)
               (console w ++ [msg]) (emitted w) (n_uuid w) (n_clock w) (n_fs w) (n_random w)).

(** [batchEmitter.emit(...)]; listeners are outside the engine. *)
Definition emit (ev : BatchEvent) : M unit := fun w =>
  (tt, mkWorld (heap w) (next_addr w) (batches w) (state_files w) (log_files w)
               (console w) (emitted w ++ [ev]) (n_uuid w) (n_clock w) (n_fs w) (n_random w)).

(** The heap with the object at [a] replaced by [f] of it. *)
Definition heap_update (a : nat) (f : Batch -> Batch) (h : nat -> Batch) : nat -> Batch :=
  fun a' => if (a' =? a)%nat then f (h a) else h a'.

(** A new object literal. *)
Definition new_object (b : Batch) : M nat := fun w =>
  (next_addr w,
   mkWorld (heap_update (next_addr w) (fun _ => b) (heap w)) (S (next_addr w))
           (batches w) (state_files w) (log_files w)
           (console w) (emitted w) (n_uuid w) (n_clock w) (n_fs w) (n_random w)).

(** Reading the object a reference points to. *)
Definition deref (a : nat) : M Batch := fun w => (heap w a, w).

(** Assigning to fields of the object a reference points to. *)
Definition assign (a : nat) (f : Batch -> Batch) : M unit := fun w =>
  (tt, mkWorld (heap_update a f (heap w)) (next_addr w)
               (batches w) (state_files w) (log_files w)
               (console w) (emitted w) (n_uuid w) (n_clock w) (n_fs w) (n_random w)).

(** [Map.prototype.set]: an existing key keeps its place, a new one goes last. *)
Fixpoint Map_set (k : BatchId) (a : nat) (m : list (BatchId * nat)) : list (BatchId * nat) :=
  match m with
  | [] => [(k, a)]
  | (k', a') :: rest =>
      if (k' =? k)%string then (k, a) :: rest else (k', a') :: Map_set k a rest
  end.

Fixpoint Map_get (k : BatchId) (m : list (BatchId * nat)) : option nat :=
  match m with
  | [] => None
  | (k', a') :: rest => if (k' =? k)%string then Some a' else Map_get k rest
  end.

Definition batches_set (k : BatchId) (a : nat) : M unit := fun w =>
  (tt, mkWorld (heap w) (next_addr w) (Map_set k a (batches w)) (state_files w) (log_files w)
               (console w) (emitted w) (n_uuid w) (n_clock w) (n_fs w) (n_random w)).

Definition batches_get (k : BatchId) : M (option nat) := fun w =>
  (Map_get k (batches w), w).

(** [[...batches.values()].find(pred)]: the first object, in insertion
    order, that satisfies [pred]. *)
Definition batches_values_find (pred : Batch -> bool) : M (option nat) := fun w =>
  (List.find (fun a => pred (heap w a)) (List.map snd (batches w)), w).

(** [for (const x of xs) body(x)] for a body with effects only. *)
Fixpoint for_each {A : Type} (xs : list A) (body : A -> M unit) : M unit :=
  match xs with
  | [] => ret tt
  | x :: rest => body x ;; for_each rest body
  end.

(** ** batch-processor.js (src/unnamed/part_000) *)
Module BatchProcessor.

Section Engine.

Variable env : Env.

Definition path_resolve (dir file : string) : string := dir ++ "/" ++ file.

Definition BATCH_STATE_FILE : string := path_resolve (dirname env) "batch-state.json".

Definition persistBatchState : M unit :=
  r <- fs_writeFileSync_batches env BATCH_STATE_FILE ;;
  match r with
  | Returned _ => ret tt
  | Thrown err => console_log ("Failed to persist batch state: " ++ err_message err)
  end.

Definition loadBatchState : M unit :=
  f <- fs_read_batches env BATCH_STATE_FILE ;;
  match f with
  | None => ret tt
  | Some (Returned entries) =>
      for_each entries (fun kv => a <- new_object (snd kv) ;; batches_set (fst kv) a)
  | Some (Thrown err) => console_log ("Could not load batch state: " ++ err_message err)
  end.

Definition delay (ms : Q) : M unit := ret tt.

Definition i18n (key : string) : string := key.

(** The file-system error of the append is caught and dropped. *)
Definition logBatchEvent (batchId : string) (event : string) (data : LogData) : M unit :=
  let logPath := path_resolve (dirname env) "batch-processor.log" in
  stamp <- Date_now env ;;
  _ <- fs_appendFileSync env logPath (mkLogLine stamp batchId event data) ;;
  ret tt.

(** The call draws from [Math.random] at once; the completion is what the
    returned promise settles with. *)
Definition processForm (profile : Profile) (row : Row) : M (Completion Result) :=
  r <- Math_random env ;;
  if Qltb r (9 # 10)
  then r' <- Math_random env ;;
       delay (120 + r' * 80) ;;
       ret (Returned (mkResult profile row "success"))
  else ret (Thrown (Error (i18n "Simulated form submission error"))).

Definition scheduleBatchRun (profile : Profile) (batchConfig : BatchConfig) : M BatchId :=
  batchId <- uuidv4 env ;;
  createdAt <- Date_now env ;;
  updatedAt <- Date_now env ;;
  batch <- new_object
    {| b_id := batchId; b_profile := profile; b_batchConfig := batchConfig;
       b_inputRows := []; b_status := Scheduled;
       b_progress := mkProgress 0 0 0 0;
       b_createdAt := createdAt; b_updatedAt := updatedAt;
       b_logs := []; b_summary := None; b_failures := []; b_retries := [] |} ;;
  batches_set batchId batch ;;
  persistBatchState ;;
  logBatchEvent batchId "scheduled" (Log_scheduled profile batchConfig) ;;
  ret batchId.

(** [executeBatch], lines 61-75: up to the loop. *)
Definition executeBatch_start (profile : Profile) (inputRows : list Row) : M (Completion nat) :=
  found <- batches_values_find
             (fun b => (b_profile b =? profile)%string && Status_eqb (b_status b) Scheduled) ;;
  match found with
  | None => ret (Thrown (Error (i18n "No scheduled batch for this profile.")))
  | Some batchEntry =>
      assign batchEntry (set_inputRows inputRows) ;;
      assign batchEntry
        (fun b => set_progress (set_total (Z.of_nat (length inputRows)) (b_progress b)) b) ;;
      assign batchEntry (set_status Running) ;;
      now <- Date_now env ;;
      assign batchEntry (set_updatedAt now) ;;
      persistBatchState ;;
      b <- deref batchEntry ;;
      emit (batchStarted (b_id b)) ;;
      b <- deref batchEntry ;;
      logBatchEvent (b_id b) "started" (Log_started (Z.of_nat (length inputRows))) ;;
      ret (Returned batchEntry)
  end.

(** One turn of the loop once the awaited [processForm] has settled with
    [outcome]: lines 80-90. *)
Definition executeBatch_settle (batchEntry idx : nat) (row : Row)
  (outcome : Completion Result) (results : list Result) (failures : list FailureRecord)
  : M (list Result * list FailureRecord) :=
  acc <- match outcome with
         | Returned result =>
             assign batchEntry (fun b => set_progress (incr_succeeded (b_progress b)) b) ;;
             ret (results ++ [result], failures)
         | Thrown err =>
             b <- deref batchEntry ;;
             let failures' := failures ++ [mkFailure row (b_profile b) (err_message err) 1] in
             assign batchEntry (fun b => set_progress (incr_failed (b_progress b)) b) ;;
             b <- deref batchEntry ;;
             logBatchEvent (b_id b) "rowFailure" (Log_rowFailure idx (err_message err) row) ;;
             ret (results, failures')
         end ;;
  assign batchEntry (fun b => set_progress (incr_processed (b_progress b)) b) ;;
  now <- Date_now env ;;
  assign batchEntry (set_updatedAt now) ;;
  persistBatchState ;;
  b <- deref batchEntry ;;
  emit (progress (b_id b) (b_progress b)) ;;
  ret acc.

(** After the loop: lines 92-104. *)
Definition executeBatch_finish (batchEntry : nat) (inputRows : list Row)
  (results : list Result) (failures : list FailureRecord) : M ExecResult :=
  assign batchEntry (set_failures failures) ;;
  assign batchEntry (set_status (if (length failures =? 0)%nat then Completed else Failed)) ;;
  now <- Date_now env ;;
  assign batchEntry (set_updatedAt now) ;;
  b <- deref batchEntry ;;
  completedAt <- Date_now env ;;
  assign batchEntry
    (set_summary (Some (mkSummary (Z.of_nat (length inputRows))
                                  (p_succeeded (b_progress b))
                                  (p_failed (b_progress b))
                                  completedAt))) ;;
  persistBatchState ;;
  b <- deref batchEntry ;;
  logBatchEvent (b_id b) "completed" (Log_summary (b_summary b)) ;;
  b <- deref batchEntry ;;
  emit (batchCompleted (b_id b) (b_summary b)) ;;
  b <- deref batchEntry ;;
  ret (mkExecResult (b_id b) results (b_failures b)).

(** The loop, each [await] answered before the next statement runs. *)
Fixpoint executeBatch_loop (batchEntry idx : nat) (rows : list Row)
  (results : list Result) (failures : list FailureRecord)
  : M (list Result * list FailureRecord) :=
  match rows with
  | [] => ret (results, failures)
  | row :: rest =>
      b <- deref batchEntry ;;
      outcome <- processForm (b_profile b) row ;;
      acc <- executeBatch_settle batchEntry idx row outcome results failures ;;
      executeBatch_loop batchEntry (S idx) rest (fst acc) (snd acc)
  end.

Definition executeBatch (profile : Profile) (inputRows : list Row) : M (Completion ExecResult) :=
  started <- executeBatch_start profile inputRows ;;
  match started with
  | Thrown err => ret (Thrown err)
  | Returned batchEntry =>
      acc <- executeBatch_loop batchEntry 0 inputRows [] [] ;;
      r <- executeBatch_finish batchEntry inputRows (fst acc) (snd acc) ;;
      ret (Returned r)
  end.

(** The [while (attempt <= maxAttempts && !succeeded)] loop for one failure
    record.  It returns the result when an attempt succeeded, with the final
    [attempt] and [lastError].  [fuel] bounds the turns; [retry_one] passes
    the number of turns the loop condition allows. *)
Fixpoint retry_loop (fuel : nat) (failure : FailureRecord) (maxAttempts retryDelay attempt : Z)
  (lastError : string) : M (option Result * Z * string) :=
  match fuel with
  | O => ret (None, attempt, lastError)
  | S fuel' =>
      if (attempt <=? maxAttempts)%Z then
        delay (inject_Z retryDelay) ;;
        outcome <- processForm (f_profile failure) (f_row failure) ;;
        match outcome with
        | Returned result => ret (Some result, attempt, lastError)
        | Thrown err =>
            let lastError := err_message err in
            logBatchEvent "NA" "retryFailure"
              (Log_retryFailure (f_profile failure) lastError (f_row failure) attempt) ;;
            retry_loop fuel' failure maxAttempts retryDelay (attempt + 1) lastError
        end
      else ret (None, attempt, lastError)
  end.

Definition retry_fuel (maxAttempts attempt : Z) : nat :=
  Z.to_nat (maxAttempts + 1 - attempt).

Definition retry_one (maxAttempts retryDelay : Z) (failure : FailureRecord)
  : M (option Result * Z * string) :=
  let attempt := if (f_attempt failure =? 0)%Z then 1%Z else f_attempt failure in
  let lastError := f_error failure in
  retry_loop (retry_fuel maxAttempts attempt) failure maxAttempts retryDelay attempt lastError.

Fixpoint retry_all (maxAttempts retryDelay : Z) (failures : list FailureRecord)
  (finalResults : list Result) (newFailures : list FailureRecord) : M RetryResult :=
  match failures with
  | [] => ret (mkRetryResult finalResults newFailures)
  | failure :: rest =>
      out <- retry_one maxAttempts retryDelay failure ;;
      match out with
      | (Some result, _, _) =>
          retry_all maxAttempts retryDelay rest (finalResults ++ [result]) newFailures
      | (None, attempt, lastError) =>
          retry_all maxAttempts retryDelay rest finalResults
            (newFailures ++ [mkFailure (f_row failure) (f_profile failure) lastError attempt])
      end
  end.

Definition retryFailedSubmissions (failures : list FailureRecord) (retryPolicy : RetryPolicy)
  : M RetryResult :=
  let maxAttempts := num_or (maxAttempts retryPolicy) 3 in
  let retryDelay := num_or (retryDelayMs retryPolicy) 1000 in
  retry_all maxAttempts retryDelay failures [] [].

Definition trackBatchProgress (batchId : BatchId) : M (option Progress) :=
  found <- batches_get batchId ;;
  match found with
  | Some batch => b <- deref batch ;; ret (Some (b_progress b))
  | None => ret None
  end.

Definition handleBatchCompletion (batchId : BatchId) (summary : option Summary) : M unit :=
  found <- batches_get batchId ;;
  match found with
  | None => ret tt
  | Some batch =>
      assign batch (set_status Completed) ;;
      assign batch (set_summary summary) ;;
      now <- Date_now env ;;
      assign batch (set_updatedAt now) ;;
      persistBatchState ;;
      logBatchEvent batchId "finalized" (Log_summary summary) ;;
      emit (batchFinalized batchId summary)
  end.

(** *** The engine under interleaving

    [executeBatch] is asynchronous: it runs up to an [await], and other
    calls can run before the awaited promise settles.  A [Task] is a call
    suspended at the [await] of the loop; [step] runs one call, or one
    resumption, up to the next suspension. *)

Record Task := mkTask {
  t_entry : nat;                       (* [batchEntry] *)
  t_inputRows : list Row;
  t_idx : nat;                         (* index of the row being awaited *)
  t_row : Row;
  t_rest : list Row;                   (* rows after it *)
  t_pending : Completion Result;       (* what the awaited promise settles with *)
  t_results : list Result;
  t_failures : list FailureRecord
}.

Inductive Settled :=
| Resolved (batchEntry : nat) (inputRows : list Row) (r : ExecResult)
| Rejected (profile : Profile) (inputRows : list Row) (err : JsError).

Record Engine := mkEngine {
  e_world : World;
  e_inflight : list Task;
  e_settled : list Settled
}.

Definition fresh_engine : Engine := mkEngine fresh_world [] [].

(** From the head of the loop: either the next [processForm] is called and
    the call suspends, or the rows are exhausted and the call finishes. *)
Definition executeBatch_continue (batchEntry : nat) (inputRows : list Row) (idx : nat)
  (rows : list Row) (results : list Result) (failures : list FailureRecord)
  : M (Task + ExecResult) :=
  match rows with
  | [] =>
      r <- executeBatch_finish batchEntry inputRows results failures ;;
      ret (inr r)
  | row :: rest =>
      b <- deref batchEntry ;;
      outcome <- processForm (b_profile b) row ;;
      ret (inl (mkTask batchEntry inputRows idx row rest outcome results failures))
  end.

Fixpoint remove_nth {A : Type} (n : nat) (l : list A) : list A :=
  match l, n with
  | [], _ => []
  | _ :: rest, O => rest
  | x :: rest, S n' => x :: remove_nth n' rest
  end.

Fixpoint replace_nth {A : Type} (n : nat) (y : A) (l : list A) : list A :=
  match l, n with
  | [], _ => []
  | _ :: rest, O => y :: rest
  | x :: rest, S n' => x :: replace_nth n' y rest
  end.

Inductive Action :=
| Act_scheduleBatchRun (profile : Profile) (batchConfig : BatchConfig)
| Act_executeBatch (profile : Profile) (inputRows : list Row)
| Act_resume (n : nat)                 (* the promise awaited by the n-th task settles *)
| Act_trackBatchProgress (batchId : BatchId)
| Act_handleBatchCompletion (batchId : BatchId) (summary : option Summary)
| Act_retryFailedSubmissions (failures : list FailureRecord) (retryPolicy : RetryPolicy).


Definition step (act : Action) (e : Engine) : Engine :=
  match act with
  | Act_scheduleBatchRun profile batchConfig =>
      let (_, w) := scheduleBatchRun profile batchConfig (e_world e) in
      mkEngine w (e_inflight e) (e_settled e)
  | Act_executeBatch profile inputRows =>
      let (started, w) := executeBatch_start profile inputRows (e_world e) in
      match started with
      | Thrown err =>
          mkEngine w (e_inflight e) (e_settled e ++ [Rejected profile inputRows err])
      | Returned batchEntry =>
          let (next, w') := executeBatch_continue batchEntry inputRows 0 inputRows [] [] w in
          match next with
          | inl task => mkEngine w' (e_inflight e ++ [task]) (e_settled e)
          | inr r => mkEngine w' (e_inflight e) (e_settled e ++ [Resolved batchEntry inputRows r])
          end
      end
  | Act_resume n =>
      match nth_error (e_inflight e) n with
      | None => e
      | Some t =>
          let (acc, w) :=
            executeBatch_settle (t_entry t) (t_idx t) (t_row t) (t_pending t)
                                (t_results t) (t_failures t) (e_world e) in
          let (next, w') :=
            executeBatch_continue (t_entry t) (t_inputRows t) (S (t_idx t)) (t_rest t)
                                  (fst acc) (snd acc) w in
          match next with
          | inl task => mkEngine w' (replace_nth n task (e_inflight e)) (e_settled e)
          | inr r =>
              mkEngine w' (remove_nth n (e_inflight e))
                       (e_settled e ++ [Resolved (t_entry t) (t_inputRows t) r])
          end
      end
  | Act_trackBatchProgress batchId =>
      let (_, w) := trackBatchProgress batchId (e_world e) in
      mkEngine w (e_inflight e) (e_settled e)
  | Act_handleBatchCompletion batchId summary =>
      let (_, w) := handleBatchCompletion batchId summary (e_world e) in
      mkEngine w (e_inflight e) (e_settled e)
  | Act_retryFailedSubmissions failures retryPolicy =>
      let (_, w) := retryFailedSubmissions failures retryPolicy (e_world e) in
      mkEngine w (e_inflight e) (e_settled e)
  end.

Definition run (acts : list Action) (e : Engine) : Engine :=
  List.fold_left (fun e act => step act e) acts e.

End Engine.

End BatchProcessor.

(** ** automation-core.js: the consolidated copy of the batch processor
    (src/unnamed/part_003, lines 663-840) *)
Module AutomationCoreBatch.

Section Engine.

Variable env : Env.

Definition BATCH_STATE_FILE_PATH : string := "./batch-state.json".

Definition BATCH_PROCESSOR_LOG_FILE_PATH : string := "./batch-processor.log".

Definition persistBatchState : M unit :=
  r <- fs_writeFileSync_batches env BATCH_STATE_FILE_PATH ;;
  match r with
  | Returned _ => ret tt
  | Thrown err => console_log ("Failed to persist batch state: " ++ err_message err)
  end.

Definition loadBatchState : M unit :=
  f <- fs_read_batches env BATCH_STATE_FILE_PATH ;;
  match f with
  | None => ret tt
  | Some (Returned entries) =>
      for_each entries (fun kv => a <- new_object (snd kv) ;; batches_set (fst kv) a)
  | Some (Thrown err) => console_log ("Could not load batch state: " ++ err_message err)
  end.

(** [delay] of human-simulation.js, line 238. *)
Definition delay (ms : Q) : M unit := ret tt.

Definition batchProcessorI18n (key : string) : string := key.

Definition logBatchEvent (batchId : string) (event : string) (data : LogData) : M unit :=
  stamp <- Date_now env ;;
  _ <- fs_appendFileSync env BATCH_PROCESSOR_LOG_FILE_PATH
         (mkLogLine stamp batchId event data) ;;
  ret tt.

Definition processFormForBatch (profile : Profile) (row : Row) : M (Completion Result) :=
  r <- Math_random env ;;
  if Qltb r (9 # 10)
  then r' <- Math_random env ;;
       delay (120 + r' * 80) ;;
       ret (Returned (mkResult profile row "success"))
  else ret (Thrown (Error (batchProcessorI18n "Simulated form submission error"))).

Definition scheduleBatchRun (profile : Profile) (batchConfig : BatchConfig) : M BatchId :=
  batchId <- uuidv4 env ;;
  createdAt <- Date_now env ;;
  updatedAt <- Date_now env ;;
  batch <- new_object
    {| b_id := batchId; b_profile := profile; b_batchConfig := batchConfig;
       b_inputRows := []; b_status := Scheduled;
       b_progress := mkProgress 0 0 0 0;
       b_createdAt := createdAt; b_updatedAt := updatedAt;
       b_logs := []; b_summary := None; b_failures := []; b_retries := [] |} ;;
  batches_set batchId batch ;;
  persistBatchState ;;
  logBatchEvent batchId "scheduled" (Log_scheduled profile batchConfig) ;;
  ret batchId.

Definition executeBatch_start (profile : Profile) (inputRows : list Row) : M (Completion nat) :=
  found <- batches_values_find
             (fun b => (b_profile b =? profile)%string && Status_eqb (b_status b) Scheduled) ;;
  match found with
  | None => ret (Thrown (Error (batchProcessorI18n "No scheduled batch for this profile.")))
  | Some batchEntry =>
      assign batchEntry (set_inputRows inputRows) ;;
      assign batchEntry
        (fun b => set_progress (set_total (Z.of_nat (length inputRows)) (b_progress b)) b) ;;
      assign batchEntry (set_status Running) ;;
      now <- Date_now env ;;
      assign batchEntry (set_updatedAt now) ;;
      persistBatchState ;;
      b <- deref batchEntry ;;
      emit (batchStarted (b_id b)) ;;
      b <- deref batchEntry ;;
      logBatchEvent (b_id b) "started" (Log_started (Z.of_nat (length inputRows))) ;;
      ret (Returned batchEntry)
  end.

Definition executeBatch_settle (batchEntry idx : nat) (row : Row)
  (outcome : Completion Result) (results : list Result) (failures : list FailureRecord)
  : M (list Result * list FailureRecord) :=
  acc <- match outcome with
         | Returned result =>
             assign batchEntry (fun b => set_progress (incr_succeeded (b_progress b)) b) ;;
             ret (results ++ [result], failures)
         | Thrown err =>
             b <- deref batchEntry ;;
             let failures' := failures ++ [mkFailure row (b_profile b) (err_message err) 1] in
             assign batchEntry (fun b => set_progress (incr_failed (b_progress b)) b) ;;
             b <- deref batchEntry ;;
             logBatchEvent (b_id b) "rowFailure" (Log_rowFailure idx (err_message err) row) ;;
             ret (results, failures')
         end ;;
  assign batchEntry (fun b => set_progress (incr_processed (b_progress b)) b) ;;
  now <- Date_now env ;;
  assign batchEntry (set_updatedAt now) ;;
  persistBatchState ;;
  b <- deref batchEntry ;;
  emit (progress (b_id b) (b_progress b)) ;;
  ret acc.

Definition executeBatch_finish (batchEntry : nat) (inputRows : list Row)
  (results : list Result) (failures : list FailureRecord) : M ExecResult :=
  assign batchEntry (set_failures failures) ;;
  assign batchEntry (set_status (if (length failures =? 0)%nat then Completed else Failed)) ;;
  now <- Date_now env ;;
  assign batchEntry (set_updatedAt now) ;;
  b <- deref batchEntry ;;
  completedAt <- Date_now env ;;
  assign batchEntry
    (set_summary (Some (mkSummary (Z.of_nat (length inputRows))
                                  (p_succeeded (b_progress b))
                                  (p_failed (b_progress b))
                                  completedAt))) ;;
  persistBatchState ;;
  b <- deref batchEntry ;;
  logBatchEvent (b_id b) "completed" (Log_summary (b_summary b)) ;;
  b <- deref batchEntry ;;
  emit (batchCompleted (b_id b) (b_summary b)) ;;
  b <- deref batchEntry ;;
  ret (mkExecResult (b_id b) results (b_failures b)).

Fixpoint executeBatch_loop (batchEntry idx : nat) (rows : list Row)
  (results : list Result) (failures : list FailureRecord)
  : M (list Result * list FailureRecord) :=
  match rows with
  | [] => ret (results, failures)
  | row :: rest =>
      b <- deref batchEntry ;;
      outcome <- processFormForBatch (b_profile b) row ;;
      acc <- executeBatch_settle batchEntry idx row outcome results failures ;;
      executeBatch_loop batchEntry (S idx) rest (fst acc) (snd acc)
  end.

Definition executeBatch (profile : Profile) (inputRows : list Row) : M (Completion ExecResult) :=
  started <- executeBatch_start profile inputRows ;;
  match started with
  | Thrown err => ret (Thrown err)
  | Returned batchEntry =>
      acc <- executeBatch_loop batchEntry 0 inputRows [] [] ;;
      r <- executeBatch_finish batchEntry inputRows (fst acc) (snd acc) ;;
      ret (Returned r)
  end.

Fixpoint retry_loop (fuel : nat) (failure : FailureRecord) (maxAttempts retryDelayMs attempt : Z)
  (lastError : string) : M (option Result * Z * string) :=
  match fuel with
  | O => ret (None, attempt, lastError)
  | S fuel' =>
      if (attempt <=? maxAttempts)%Z then
        delay (inject_Z retryDelayMs) ;;
        outcome <- processFormForBatch (f_profile failure) (f_row failure) ;;
        match outcome with
        | Returned result => ret (Some result, attempt, lastError)
        | Thrown err =>
            let lastError := err_message err in
            logBatchEvent "NA" "retryFailure"
              (Log_retryFailure (f_profile failure) lastError (f_row failure) attempt) ;;
            retry_loop fuel' failure maxAttempts retryDelayMs (attempt + 1) lastError
        end
      else ret (None, attempt, lastError)
  end.

Definition retry_fuel (maxAttempts attempt : Z) : nat :=
  Z.to_nat (maxAttempts + 1 - attempt).

Definition retry_one (maxAttempts retryDelayMs : Z) (failure : FailureRecord)
  : M (option Result * Z * string) :=
  let attempt := if (f_attempt failure =? 0)%Z then 1%Z else f_attempt failure in
  let lastError := f_error failure in
  retry_loop (retry_fuel maxAttempts attempt) failure maxAttempts retryDelayMs attempt lastError.

Fixpoint retry_all (maxAttempts retryDelayMs : Z) (failures : list FailureRecord)
  (finalResults : list Result) (newFailures : list FailureRecord) : M RetryResult :=
  match failures with
  | [] => ret (mkRetryResult finalResults newFailures)
  | failure :: rest =>
      out <- retry_one maxAttempts retryDelayMs failure ;;
      match out with
      | (Some result, _, _) =>
          retry_all maxAttempts retryDelayMs rest (finalResults ++ [result]) newFailures
      | (None, attempt, lastError) =>
          retry_all maxAttempts retryDelayMs rest finalResults
            (newFailures ++ [mkFailure (f_row failure) (f_profile failure) lastError attempt])
      end
  end.

Definition retryFailedSubmissions (failures : list FailureRecord) (retryPolicy : RetryPolicy)
  : M RetryResult :=
  let maxAttempts := num_or (maxAttempts retryPolicy) 3 in
  let retryDelayMs := num_or (retryDelayMs retryPolicy) 1000 in
  retry_all maxAttempts retryDelayMs failures [] [].

Definition trackBatchProgress (batchId : BatchId) : M (option Progress) :=
  found <- batches_get batchId ;;
  match found with
  | Some batch => b <- deref batch ;; ret (Some (b_progress b))
  | None => ret None
  end.

Definition handleBatchCompletion (batchId : BatchId) (summary : option Summary) : M unit :=
  found <- batches_get batchId ;;
  match found with
  | None => ret tt
  | Some batch =>
      assign batch (set_status Completed) ;;
      assign batch (set_summary summary) ;;
      now <- Date_now env ;;
      assign batch (set_updatedAt now) ;;
      persistBatchState ;;
      logBatchEvent batchId "finalized" (Log_summary summary) ;;
      emit (batchFinalized batchId summary)
  end.

End Engine.

End AutomationCoreBatch.

(** ** Calls of the exported interface, to compare the two copies *)

Inductive Call :=
| Call_scheduleBatchRun (profile : Profile) (batchConfig : BatchConfig)
| Call_executeBatch (profile : Profile) (inputRows : list Row)
| Call_retryFailedSubmissions (failures : list FailureRecord) (retryPolicy : RetryPolicy)
| Call_trackBatchProgress (batchId : BatchId)
| Call_handleBatchCompletion (batchId : BatchId) (summary : option Summary).

Inductive Reply :=
| Reply_batchId (batchId : BatchId)
| Reply_executeBatch (r : Completion ExecResult)
| Reply_retry (r : RetryResult)
| Reply_progress (p : option Progress)
| Reply_undefined.

Definition perform_batch_processor (env : Env) (c : Call) : M Reply :=
  match c with
  | Call_scheduleBatchRun profile batchConfig =>
      x <- BatchProcessor.scheduleBatchRun env profile batchConfig ;; ret (Reply_batchId x)
  | Call_executeBatch profile inputRows =>
      x <- BatchProcessor.executeBatch env profile inputRows ;; ret (Reply_executeBatch x)
  | Call_retryFailedSubmissions failures retryPolicy =>
      x <- BatchProcessor.retryFailedSubmissions env failures retryPolicy ;; ret (Reply_retry x)
  | Call_trackBatchProgress batchId =>
      x <- BatchProcessor.trackBatchProgress batchId ;; ret (Reply_progress x)
  | Call_handleBatchCompletion batchId summary =>
      BatchProcessor.handleBatchCompletion env batchId summary ;; ret Reply_undefined
  end.

Definition perform_automation_core (env : Env) (c : Call) : M Reply :=
  match c with
  | Call_scheduleBatchRun profile batchConfig =>
      x <- AutomationCoreBatch.scheduleBatchRun env profile batchConfig ;; ret (Reply_batchId x)
  | Call_executeBatch profile inputRows =>
      x <- AutomationCoreBatch.executeBatch env profile inputRows ;; ret (Reply_executeBatch x)
  | Call_retryFailedSubmissions failures retryPolicy =>
      x <- AutomationCoreBatch.retryFailedSubmissions env failures retryPolicy ;; ret (Reply_retry x)
  | Call_trackBatchProgress batchId =>
      x <- AutomationCoreBatch.trackBatchProgress batchId ;; ret (Reply_progress x)
  | Call_handleBatchCompletion batchId summary =>
      AutomationCoreBatch.handleBatchCompletion env batchId summary ;; ret Reply_undefined
  end.

(** A sequence of calls, each run to completion before the next. *)
Fixpoint perform_all (perform : Call -> M Reply) (calls : list Call) : M (list Reply) :=
  match calls with
  | [] => ret []
  | c :: rest =>
      x <- perform c ;;
      xs <- perform_all perform rest ;;
      ret (x :: xs)
  end.

(** Each copy writes its own files: the state file and the log of the one
    correspond to those of the other. *)
Definition same_files {A : Type} (path1 path2 : string)
  (files1 files2 : list (string * A)) : Prop :=
  Forall2 (fun f1 f2 => fst f1 = path1 /\ fst f2 = path2 /\ snd f1 = snd f2) files1 files2.

Record same_state (env : Env) (w1 w2 : World) : Prop := mkSame {
  same_heap : heap w1 = heap w2;
  same_next_addr : next_addr w1 = next_addr w2;
  same_batches : batches w1 = batches w2;
  same_state_files :
    same_files (BatchProcessor.BATCH_STATE_FILE env) AutomationCoreBatch.BATCH_STATE_FILE_PATH
               (state_files w1) (state_files w2);
  same_log_files :
    same_files (BatchProcessor.path_resolve (dirname env) "batch-processor.log")
               AutomationCoreBatch.BATCH_PROCESSOR_LOG_FILE_PATH
               (log_files w1) (log_files w2);
  same_console : console w1 = console w2;
  same_emitted : emitted w1 = emitted w2;
  same_n_uuid : n_uuid w1 = n_uuid w2;
  same_n_clock : n_clock w1 = n_clock w2;
  same_n_fs : n_fs w1 = n_fs w2;
  same_n_random : n_random w1 = n_random w2
}.


Definition is_terminal (s : Status) : bool :=
  match s with
  | Completed | Failed => true
  | _ => false
  end.

(** A node that has no owning document, or whose document has no view. *)
Definition detached (node : Node) : Prop :=
  ownerDocument node = None \/
  exists doc, ownerDocument node = Some doc /\ defaultView doc = None.

(** The part of the world the accounting depends on. *)
Definition same_core (w w' : World) : Prop :=
  heap w' = heap w /\ next_addr w' = next_addr w /\
  batches w' = batches w /\ emitted w' = emitted w.

(** ** Invariants of the engine *)

Definition task_ok (w : World) (t : BatchProcessor.Task) : Prop :=
  let b := heap w (BatchProcessor.t_entry t) in
  (BatchProcessor.t_entry t < next_addr w)%nat /\
  b_status b <> Scheduled /\
  p_total (b_progress b) = Z.of_nat (length (BatchProcessor.t_inputRows t)) /\
  p_processed (b_progress b) = Z.of_nat (BatchProcessor.t_idx t) /\
  p_succeeded (b_progress b) = Z.of_nat (length (BatchProcessor.t_results t)) /\
  p_failed (b_progress b) = Z.of_nat (length (BatchProcessor.t_failures t)) /\
  (length (BatchProcessor.t_results t) + length (BatchProcessor.t_failures t)
   = BatchProcessor.t_idx t)%nat /\
  (BatchProcessor.t_idx t + S (length (BatchProcessor.t_rest t))
   = length (BatchProcessor.t_inputRows t))%nat.

(** The accounting of a batch object [a] for a call that resolved with [r]
    on [inputRows]. *)
Definition accounted (w : World) (a : nat) (inputRows : list Row) (r : ExecResult) : Prop :=
  let p := b_progress (heap w a) in
  p_processed p = p_total p /\
  p_total p = Z.of_nat (length inputRows) /\
  (p_succeeded p + p_failed p = p_processed p)%Z /\
  p_succeeded p = Z.of_nat (length (r_results r)) /\
  p_failed p = Z.of_nat (length (r_failures r)) /\
  r_batchId r = b_id (heap w a).

Definition settled_ok (w : World) (s : BatchProcessor.Settled) : Prop :=
  match s with
  | BatchProcessor.Resolved a inputRows r =>
      (a < next_addr w)%nat /\ b_status (heap w a) <> Scheduled /\ accounted w a inputRows r
  | BatchProcessor.Rejected _ _ _ => True
  end.

Definition snapshot_consistent (ev : BatchEvent) : Prop :=
  match ev with
  | progress _ p =>
      p_processed p = (p_succeeded p + p_failed p)%Z /\ (p_processed p <= p_total p)%Z
  | _ => True
  end.

Record Inv (e : BatchProcessor.Engine) : Prop := mkInv {
  inv_map : forall a,
    In a (List.map snd (batches (BatchProcessor.e_world e))) ->
    (a < next_addr (BatchProcessor.e_world e))%nat;
  inv_scheduled : forall a,
    (a < next_addr (BatchProcessor.e_world e))%nat ->
    b_status (heap (BatchProcessor.e_world e) a) = Scheduled ->
    b_progress (heap (BatchProcessor.e_world e) a) = mkProgress 0 0 0 0;
  inv_tasks : forall t,
    In t (BatchProcessor.e_inflight e) -> task_ok (BatchProcessor.e_world e) t;
  inv_distinct : List.NoDup (List.map BatchProcessor.t_entry (BatchProcessor.e_inflight e));
  inv_settled : forall s,
    In s (BatchProcessor.e_settled e) -> settled_ok (BatchProcessor.e_world e) s;
  inv_settled_idle : forall a inputRows r,
    In (BatchProcessor.Resolved a inputRows r) (BatchProcessor.e_settled e) ->
    ~ In a (List.map BatchProcessor.t_entry (BatchProcessor.e_inflight e));
  inv_events : forall ev,
    In ev (emitted (BatchProcessor.e_world e)) -> snapshot_consistent ev
}.

(** What a record that exhausts its attempts becomes when every invocation
    of the processor fails. *)
Definition exhausted (maxAttempts : Z) (failure : FailureRecord) : FailureRecord :=
  let attempt := if (f_attempt failure =? 0)%Z then 1%Z else f_attempt failure in
  mkFailure (f_row failure) (f_profile failure)
            (if (attempt <=? maxAttempts)%Z
             then "Simulated form submission error" else f_error failure)
            (Z.max attempt (maxAttempts + 1)).



(** The test [executeBatch] hands to [find]. *)
Definition scheduled_for (profile : Profile) (b : Batch) : bool :=
  (b_profile b =? profile)%string && Status_eqb (b_status b) Scheduled.

(** Two computations, one per copy, that answer the same and keep the two
    worlds in correspondence. *)
Definition sim (env : Env) {A : Type} (m1 m2 : M A) : Prop :=
  forall w1 w2, same_state env w1 w2 ->
    fst (m1 w1) = fst (m2 w2) /\ same_state env (snd (m1 w1)) (snd (m2 w2)).

(** A process that starts with [files] on disk and nothing in memory. *)
Definition boot_world (files : list (string * list (BatchId * Batch))) : World :=
  mkWorld (fun _ => blank_batch) 0 [] files [] [] [] 0 0 0 0.

(** A state file as the engine writes it: a batch recorded as scheduled has
    not been counted on. *)
Definition registry_file_ok (entries : list (BatchId * Batch)) : Prop :=
  Forall (fun kv => b_status (snd kv) = Scheduled ->
                    b_progress (snd kv) = mkProgress 0 0 0 0) entries.

Definition registry_ok (w : World) : Prop :=
  (forall a, In a (List.map snd (batches w)) -> (a < next_addr w)%nat) /\
  (forall a, (a < next_addr w)%nat -> b_status (heap w a) = Scheduled ->
             b_progress (heap w a) = mkProgress 0 0 0 0) /\
  emitted w = [].

(** [uuidv4] never returns the same identifier twice. *)
Definition uuid_unique (env : Env) : Prop :=
  forall i j, uuid_at env i = uuid_at env j -> i = j.

(** Every batch object is the one the registry holds under its id, and the
    keys of the registry are identifiers [uuidv4] has handed out. *)
Definition registry_keyed (env : Env) (w : World) : Prop :=
  (forall a, (a < next_addr w)%nat -> Map_get (b_id (heap w a)) (batches w) = Some a) /\
  (forall k, In k (List.map fst (batches w)) ->
             exists i, (i < n_uuid w)%nat /\ k = uuid_at env i).

(** ** Concrete inputs used by the examples below *)

Definition view_doc : Document := mkDocument (Some (mkWindow "window")).
Definition viewless_doc : Document := mkDocument None.
Definition plain_style : ComputedStyle := mkStyle "block" "visible" "1".

Definition shown_node : Node := mkNode 1 (Some view_doc) plain_style [] None None.
(** An element of a document that has no view, as [DOMParser] produces. *)
Definition viewless_node : Node := mkNode 1 (Some viewless_doc) plain_style [] None None.
Definition orphan_node : Node := mkNode 1 None plain_style [] None None.

Definition text_input (name : string) (y_top y_bottom : Q) : Element :=
  mkElement "INPUT" (Some "text") false None name "" "text" "" false "" false
            (mkRect y_top y_bottom) shown_node.

(** Two pairs of inputs far apart, and a stray one further down. *)
Definition two_groups_snapshot : Snapshot :=
  [ text_input "first" 0 20; text_input "last" 30 50;
    text_input "street" 200 220; text_input "city" 230 250;
    text_input "stray" 500 520 ].

Definition email_field : FieldDescriptor :=
  mkField "email" "" "text" "" "" false "" None.
Definition comment_field : FieldDescriptor :=
  mkField "comment" "" "textarea" "" "" false "" None.

Definition rule_userEmail : FormDetectionEngine.MappingRule :=
  FormDetectionEngine.mkRule (FormDetectionEngine.FM_function (fun _ => true))
                             FormDetectionEngine.TM_absent "userEmail".
Definition rule_contact : FormDetectionEngine.MappingRule :=
  FormDetectionEngine.mkRule
    (FormDetectionEngine.FM_regexp (fun s => (s =? "email")%string))
    (FormDetectionEngine.TM_array ["text"; "email"]) "contact".

(** Environments: identifiers [batch-0], [batch-1], ...; a clock that
    ticks; a file system that works or not; draws that make every
    [processForm] succeed or fail. *)
Definition demo_uuid (n : nat) : BatchId := ("batch-" ++ string_of_nat n)%string.
Definition env_all_succeed : Env :=
  mkEnv demo_uuid (fun n => Z.of_nat n) (fun _ => true) (fun _ => 1 # 2) "/app".
Definition env_all_fail : Env :=
  mkEnv demo_uuid (fun n => Z.of_nat n) (fun _ => true) (fun _ => 95 # 100) "/app".
Definition env_disk_down : Env :=
  mkEnv demo_uuid (fun n => Z.of_nat n) (fun _ => false) (fun _ => 1 # 2) "/app".


(** Two batches of two rows for two profiles, their rows interleaved. *)
Definition interleaved_run : list BatchProcessor.Action :=
  [ BatchProcessor.Act_scheduleBatchRun "p1" "{}";
    BatchProcessor.Act_scheduleBatchRun "p2" "{}";
    BatchProcessor.Act_executeBatch "p1" ["rowA"; "rowB"];
    BatchProcessor.Act_executeBatch "p2" ["rowC"; "rowD"];
    BatchProcessor.Act_resume 1;
    BatchProcessor.Act_resume 0;
    BatchProcessor.Act_trackBatchProgress "batch-0";
    BatchProcessor.Act_resume 0;
    BatchProcessor.Act_resume 0 ].

(** Two batches scheduled for the same profile, [batch-0] then [batch-1]. *)
Definition two_scheduled_world : World :=
  snd (BatchProcessor.scheduleBatchRun env_all_succeed "p1" "second"
         (snd (BatchProcessor.scheduleBatchRun env_all_succeed "p1" "first" fresh_world))).

(** One call of each exported operation. *)
Definition demo_calls : list Call :=
  [ Call_scheduleBatchRun "p1" "{}";
    Call_executeBatch "p1" ["rowA"; "rowB"];
    Call_retryFailedSubmissions [mkFailure "rowA" "p1" "first error" 1] (mkPolicy None None);
    Call_trackBatchProgress "batch-0";
    Call_handleBatchCompletion "batch-0" None ].

(** Three failure records; the draws make the first succeed at once (two
    draws), every invocation for the second fail (three draws), and the third
    succeed. *)
Definition env_second_fails : Env :=
  mkEnv demo_uuid (fun n => Z.of_nat n) (fun _ => true)
        (fun n => if ((2 <=? n) && (n <=? 4))%nat then 95 # 100 else 1 # 2) "/app".
Definition retry_input_before : list FailureRecord := [mkFailure "rowA" "p1" "timeout" 1].
Definition retry_input_failure : FailureRecord := mkFailure "rowB" "p1" "timeout" 1.
Definition retry_input_after : list FailureRecord := [mkFailure "rowC" "p1" "timeout" 1].

(** ** Notions for the further properties of the batch processor *)

(** The elements of [l] at the places where [mask] holds. *)
Fixpoint select {A : Type} (mask : list bool) (l : list A) : list A :=
  match mask, l with
  | ok :: mask', x :: l' => if ok then x :: select mask' l' else select mask' l'
  | _, _ => []
  end.

(** The counters after one more row, which succeeded ([ok]) or failed. *)
Definition count_row (ok : bool) (p : Progress) : Progress :=
  incr_processed (if ok then incr_succeeded p else incr_failed p).

(** The progress events of a batch whose rows end as [mask] tells, in order. *)
Fixpoint progress_trace (batchId : BatchId) (p : Progress) (mask : list bool)
  : list BatchEvent :=
  match mask with
  | [] => []
  | ok :: rest =>
      progress batchId (count_row ok p) :: progress_trace batchId (count_row ok p) rest
  end.

(** What [processForm] resolves with, and the failure record [executeBatch]
    makes of a rejection. *)
Definition success_of (profile : Profile) (row : Row) : Result :=
  mkResult profile row "success".
Definition failure_of (profile : Profile) (row : Row) : FailureRecord :=
  mkFailure row profile "Simulated form submission error" 1.

(** The parts of the world the state file is a picture of. *)
Definition same_store (w w' : World) : Prop :=
  heap w' = heap w /\ batches w' = batches w /\ state_files w' = state_files w.

(** The latest state file holds the registry as it is in memory. *)
Definition disk_current (env : Env) (w : World) : Prop :=
  match state_files w with
  | [] => batches w = []
  | (path, content) :: _ =>
      path = BatchProcessor.BATCH_STATE_FILE env /\ content = entries_snapshot w
  end.

(** * The other modules *)

(** ** automation-core.js: the consolidated copy of [suggestMappings]
    (src/unnamed/part_003, lines 129-161) *)
Module AutomationCoreMappings.

Import FormDetectionEngine.

(** [field.x && rule.fieldMatch.test(field.x)]: this copy evaluates it for
    the name, the id and the label before it looks at what kind of matcher
    the rule has. *)
Definition test_on (fm : FieldMatch) (s : string) : Completion bool :=
  if truthy s then
    match fm with
    | FM_absent => Thrown (TypeError "Cannot read properties of undefined (reading 'test')")
    | FM_function _ => Thrown (TypeError "rule.fieldMatch.test is not a function")
    | FM_regexp test => Returned (test s)
    end
  else Returned false.

(** [mainMatch && typeMatches] *)
Definition rule_matches (rule : MappingRule) (field : FieldDescriptor) : Completion bool :=
  match test_on (fieldMatch rule) (fld_name field) with
  | Thrown e => Thrown e
  | Returned fieldNameMatch =>
      match test_on (fieldMatch rule) (fld_id field) with
      | Thrown e => Thrown e
      | Returned fieldIdMatch =>
          match test_on (fieldMatch rule) (fld_label field) with
          | Thrown e => Thrown e
          | Returned fieldLabelMatch =>
              let mainMatch :=
                match fieldMatch rule with
                | FM_function fn => fn field
                | _ => fieldNameMatch || fieldIdMatch || fieldLabelMatch
                end in
              let typeMatches :=
                match typeMatch rule with
                | TM_absent => true
                | TM_string s => negb (truthy s) || (fld_type field =? s)%string
                | TM_array l => existsb (String.eqb (fld_type field)) l
                end in
              Returned (mainMatch && typeMatches)
          end
      end
  end.

Fixpoint bestMatch_of (rules : list MappingRule) (field : FieldDescriptor)
  : Completion (option string) :=
  match rules with
  | [] => Returned None
  | rule :: rest =>
      match rule_matches rule field with
      | Thrown e => Thrown e
      | Returned true => Returned (Some (suggest rule))
      | Returned false => bestMatch_of rest field
      end
  end.

Definition suggest_one (rules : option (list MappingRule)) (field : FieldDescriptor)
  : Completion MappingSuggestion :=
  match match rules with
        | Some rs => bestMatch_of rs field
        | None => Returned None
        end with
  | Thrown e => Thrown e
  | Returned (Some s) =>
      Returned (if truthy s then mkSuggestion field (Some s) else mkSuggestion field None)
  | Returned None => Returned (mkSuggestion field None)
  end.

(** [formFields.forEach(...)]: an exception ends the call. *)
Fixpoint suggestMappings (formFields : list FieldDescriptor)
  (rules : option (list MappingRule)) : Completion (list MappingSuggestion) :=
  match formFields with
  | [] => Returned []
  | field :: rest =>
      match suggest_one rules field with
      | Thrown e => Thrown e
      | Returned s =>
          match suggestMappings rest rules with
          | Thrown e => Thrown e
          | Returned ss => Returned (s :: ss)
          end
      end
  end.

End AutomationCoreMappings.


Definition is_function_rule (rule : FormDetectionEngine.MappingRule) : bool :=
  match FormDetectionEngine.fieldMatch rule with
  | FormDetectionEngine.FM_function _ => true
  | _ => false
  end.

(** An element of a document that has a view. *)
Definition attached_element (node : Node) : Prop :=
  nodeType node = 1%Z /\
  exists doc view, ownerDocument node = Some doc /\ defaultView doc = Some view.




(** ** Typing simulation

    A form field as the typing routines see it: its [value], whether it has
    a [focus] method, and what was done to it, in order: the calls of
    [focus] and the events dispatched, each with the value the field had at
    that moment.  Listeners are outside the model. *)

Record DomEvent := mkDomEvent { ev_type : string; ev_value : string }.

Record InputField := mkInputField {
  field_value : string;
  field_has_focus : bool;            (* [typeof field.focus === 'function'] *)
  field_focus_calls : nat;
  field_events : list DomEvent       (* oldest first *)
}.

Definition set_value (v : string) (f : InputField) : InputField :=
  mkInputField v (field_has_focus f) (field_focus_calls f) (field_events f).

Definition dispatchEvent (type : string) (f : InputField) : InputField :=
  mkInputField (field_value f) (field_has_focus f) (field_focus_calls f)
               (field_events f ++ [mkDomEvent type (field_value f)]).

Definition focus (f : InputField) : InputField :=
  mkInputField (field_value f) (field_has_focus f) (S (field_focus_calls f)) (field_events f).

(** *** content-script.js, [simulateTyping] of [injectSimulationModules]
    (src/unnamed/part_000, lines 795-809) *)
Module ContentScript.

(** [typeNext], from the character at index [i] on; each call of the timer
    runs the next one. *)
Fixpoint typeNext (rest : string) (element : InputField) : InputField :=
  match rest with
  | EmptyString => dispatchEvent "change" element
  | String c rest' =>
      let element := set_value (field_value element ++ String c "")%string element in
      let element := dispatchEvent "input" element in
      typeNext rest' element
  end.

Definition simulateTyping (element : InputField) (value : string) : InputField :=
  typeNext value (set_value "" element).

End ContentScript.

(** *** human-simulation.js as consolidated in automation-core.js
    (src/unnamed/part_003, lines 234-306) *)
Module HumanSimulation.

Record TypingOptions := mkTypingOptions {
  minDelay : option Q;
  maxDelay : option Q;
  errorRate : option Q;
  correctionDelay : option (list Q)
}.

Record MouseOptions := mkMouseOptions {
  moveDelay : option (list Q);
  clickDelay : option (list Q);
  jitter : option Q
}.

Record ScrollOptions := mkScrollOptions {
  scrollDelay : option (list Q);
  scrollJitter : option Q
}.

Record Options := mkOptions {
  typing : option TypingOptions;
  mouse : option MouseOptions;
  scroll : option ScrollOptions
}.

(** What [addRandomization] returns. *)
Record Randomization := mkRandomization {
  typing_minDelay : Q;
  typing_maxDelay : Q;
  typing_errorRate : Q;
  typing_correctionDelay : list Q;
  mouse_moveDelay : list Q;
  mouse_clickDelay : list Q;
  mouse_jitter : Q;
  scroll_scrollDelay : list Q;
  scroll_scrollJitter : Q
}.

(** [config.part?.key || d] for a number: absent and [0] are falsy. *)
Definition number_or {P : Type} (part : option P) (key : P -> option Q) (d : Q) : Q :=
  match part with
  | Some p => match key p with
              | Some v => if Qeq_bool v 0 then d else v
              | None => d
              end
  | None => d
  end.

(** [config.part?.key || d] for an array: every array is truthy. *)
Definition array_or {P : Type} (part : option P) (key : P -> option (list Q)) (d : list Q)
  : list Q :=
  match part with
  | Some p => match key p with Some v => v | None => d end
  | None => d
  end.

Definition addRandomization (config : Options) : Randomization :=
  {| typing_minDelay := number_or (typing config) minDelay 60;
     typing_maxDelay := number_or (typing config) maxDelay 160;
     typing_errorRate := number_or (typing config) errorRate (3 # 100);
     typing_correctionDelay := array_or (typing config) correctionDelay [200; 500];
     mouse_moveDelay := array_or (mouse config) moveDelay [80; 200];
     mouse_clickDelay := array_or (mouse config) clickDelay [90; 270];
     mouse_jitter := number_or (mouse config) jitter (19 # 10);
     scroll_scrollDelay := array_or (scroll config) scrollDelay [60; 180];
     scroll_scrollJitter := number_or (scroll config) scrollJitter 12 |}.

(** The page: the draws of [Math.random] and which event constructors are
    defined. *)
Record Page := mkPage {
  random_draw : nat -> Q;
  has_InputEvent : bool;
  has_Event : bool
}.

(** The field and the number of draws taken so far. *)
Record Typing := mkTyping { t_field : InputField; t_draws : nat }.

Section Simulation.

Variable page : Page.

Definition Math_random (t : Typing) : Q * Typing :=
  (random_draw page (t_draws t), mkTyping (t_field t) (S (t_draws t))).

(** [await delay(randomBetween(min, max))]: one draw; the wait changes
    nothing in the field.  An argument is [None] when the spread array is too
    short. *)
Definition delay_randomBetween (min max : option Q) (t : Typing) : Typing :=
  snd (Math_random t).

Definition on_field (f : InputField -> InputField) (t : Typing) : Typing :=
  mkTyping (f (t_field t)) (t_draws t).

Definition dispatch_input (t : Typing) : Typing :=
  if has_InputEvent page then on_field (dispatchEvent "input") t else t.

(** [String.fromCharCode(97 + Math.floor(r * 26))] *)
Definition errorChar (r : Q) : string :=
  String (ascii_of_nat (97 + Z.to_nat (Qfloor (r * 26)))) "".

(** One turn of the loop, [text] being the text with the new character. *)
Definition type_character (opts : Randomization) (text : string) (t : Typing) : Typing :=
  let t := on_field (set_value text) t in
  let t := dispatch_input t in
  let t :=
    if Qle_bool (typing_errorRate opts) 0 then t
    else
      let (p, t) := Math_random t in
      if Qle_bool (typing_errorRate opts) p then t
      else
        let (r, t) := Math_random t in
        let t := on_field (set_value (text ++ errorChar r)%string) t in
        let t := dispatch_input t in
        let t := delay_randomBetween (List.nth_error (typing_correctionDelay opts) 0)
                                     (List.nth_error (typing_correctionDelay opts) 1) t in
        let t := on_field (set_value text) t in
        dispatch_input t in
  delay_randomBetween (Some (typing_minDelay opts)) (Some (typing_maxDelay opts)) t.

Fixpoint type_loop (opts : Randomization) (rest text : string) (t : Typing) : Typing :=
  match rest with
  | EmptyString => t
  | String c rest' =>
      let text := (text ++ String c "")%string in
      type_loop opts rest' text (type_character opts text t)
  end.

Definition simulateTyping (field : InputField) (value : string) (options : Options)
  (draws : nat) : Typing :=
  let opts := addRandomization options in
  let t := mkTyping field draws in
  let t := if field_has_focus field then on_field focus t else t in
  let t := type_loop opts value "" t in
  if has_Event page then on_field (dispatchEvent "change") t else t.

End Simulation.

End HumanSimulation.

(** The non-empty prefixes of [rest], each after [done]. *)
Fixpoint prefixes_from (done rest : string) : list string :=
  match rest with
  | EmptyString => []
  | String c rest' =>
      (done ++ String c "")%string :: prefixes_from (done ++ String c "")%string rest'
  end.

Definition input_events (f : InputField) : list DomEvent :=
  List.filter (fun ev => (ev_type ev =? "input")%string) (field_events f).

(** What a stretch of the routine does to the field: it sets the value and
    appends [input] events, [lo] to [hi] of them, and nothing else. *)
Definition typed_to (page : HumanSimulation.Page) (v : string) (lo hi : nat)
  (f f' : InputField) : Prop :=
  field_value f' = v /\
  field_has_focus f' = field_has_focus f /\
  field_focus_calls f' = field_focus_calls f /\
  exists evs,
    field_events f' = field_events f ++ evs /\
    Forall (fun ev => ev_type ev = "input") evs /\
    (if HumanSimulation.has_InputEvent page then (lo <= length evs <= hi)%nat else evs = []).

(** ** Sensitive field names (src/unnamed/part_003, lines 1150-1163)

    The patterns of [isSensitiveField] all have one shape: a literal, an
    optional group after it, and a word boundary before or after; the [i]
    flag makes letters match in either case. *)

Module RegExp.

Record Pattern := mkPattern {
  pat_boundary_before : bool;        (* a leading [\b] *)
  pat_literal : string;
  pat_optional : string;             (* [(...)?], [""] when there is none *)
  pat_boundary_after : bool          (* a trailing [\b] *)
}.

(** [\w] *)
Definition is_word_char (c : ascii) : bool :=
  let n := nat_of_ascii c in
  ((48 <=? n) && (n <=? 57) || (65 <=? n) && (n <=? 90) || (n =? 95)
   || (97 <=? n) && (n <=? 122))%nat.

Definition word_at (c : option ascii) : bool :=
  match c with Some a => is_word_char a | None => false end.

(** [\b] between the character before and the character after. *)
Definition boundary (prev next : option ascii) : bool :=
  xorb (word_at prev) (word_at next).

Definition first_char (s : string) : option ascii :=
  match s with String c _ => Some c | EmptyString => None end.

(** Matching a literal at the start of [s], ignoring case: the last
    character read and what is left of [s]. *)
Fixpoint eat (literal : string) (prev : option ascii) (s : string)
  : option (option ascii * string) :=
  match literal with
  | EmptyString => Some (prev, s)
  | String a literal' =>
      match s with
      | String b s' =>
          if (lower_ascii a =? lower_ascii b)%char then eat literal' (Some b) s' else None
      | EmptyString => None
      end
  end.

Definition match_at (p : Pattern) (prev : option ascii) (s : string) : bool :=
  (negb (pat_boundary_before p) || boundary prev (first_char s))
  && match eat (pat_literal p) prev s with
     | None => false
     | Some (last, rest) =>
         match eat (pat_optional p) last rest with
         | Some (last', rest') =>
             (negb (pat_boundary_after p) || boundary last' (first_char rest'))
             || (negb (pat_boundary_after p) || boundary last (first_char rest))
         | None => negb (pat_boundary_after p) || boundary last (first_char rest)
         end
     end.

Fixpoint search (p : Pattern) (prev : option ascii) (s : string) : bool :=
  match_at p prev s
  || match s with
     | String c s' => search p (Some c) s'
     | EmptyString => false
     end.

(** [pat.test(s)] *)
Definition test (p : Pattern) (s : string) : bool := search p None s.

Definition plain (literal : string) : Pattern := mkPattern false literal "" false.

End RegExp.

Definition sensitivePatterns : list RegExp.Pattern :=
  [ RegExp.plain "password"; RegExp.plain "passcode"; RegExp.plain "secret";
    RegExp.plain "token"; RegExp.plain "auth";
    RegExp.plain "ssn"; RegExp.plain "social"; RegExp.plain "credit"; RegExp.plain "card";
    RegExp.plain "cvv"; RegExp.plain "cvc";
    RegExp.mkPattern false "pin" "" true;
    RegExp.plain "email"; RegExp.plain "phone";
    RegExp.mkPattern true "mobile" "" true;
    RegExp.mkPattern true "un/,username" "" false;
    RegExp.mkPattern false "user" "name" false ].

Definition isSensitiveField (fieldName : string) : bool :=
  existsb (fun pat => RegExp.test pat fieldName) sensitivePatterns.

Definition redactFieldValue (fieldValue : string) : string :=
  if truthy fieldValue then "[REDACTED]" else "".

(** [s] contains [word], letters in either case. *)
Definition contains_word (word s : string) : bool := RegExp.test (RegExp.plain word) s.

Definition sensitive_words : list string :=
  [ "password"; "passcode"; "secret"; "token"; "auth"; "ssn"; "social"; "credit"; "card";
    "cvv"; "cvc"; "email"; "phone"; "user" ].

(** ** session-manager.js (src/unnamed/part_000, lines 307-540)

    Sessions and cookies live in two encrypted files, each guarded by a lock
    file.  A plain object used as a map is an association list: the code
    looks keys up, sets and deletes them, and never depends on their order.
    Keys are session ids, not names of [Object.prototype]. *)
Module SessionManager.

Definition Cookie := string.

Record Session := mkSession {
  userId : option string;
  sessionId : string;
  createdAt : option Z;
  lastActive : option Z;
  data : string                       (* the [data] object, as JSON text *)
}.

(** A value of the cookies object: an array, another truthy value, or a
    falsy one. *)
Inductive Jar :=
| JarArray (cookies : list Cookie)
| JarOther
| JarNull.

Definition Obj (V : Type) : Type := list (string * V).

Fixpoint obj_get {V : Type} (k : string) (o : Obj V) : option V :=
  match o with
  | [] => None
  | (k', v) :: rest => if (k' =? k)%string then Some v else obj_get k rest
  end.

Fixpoint obj_set {V : Type} (k : string) (v : V) (o : Obj V) : Obj V :=
  match o with
  | [] => [(k, v)]
  | (k', v') :: rest => if (k' =? k)%string then (k, v) :: rest else (k', v') :: obj_set k v rest
  end.

Fixpoint obj_delete {V : Type} (k : string) (o : Obj V) : Obj V :=
  match o with
  | [] => []
  | (k', v') :: rest => if (k' =? k)%string then rest else (k', v') :: obj_delete k rest
  end.

Definition Object_keys {V : Type} (o : Obj V) : list string := List.map fst o.

Definition Sessions := Obj (option Session).   (* [None]: a [null] entry *)
Definition Cookies := Obj Jar.

(** What a file holds: the output of [encryptData] for some data, or text
    that [decryptData] cannot open. *)
Inductive Body (A : Type) : Type :=
| Sealed (iv : string) (content : A)
| Unreadable (raw : string).
Arguments Sealed {A} iv content.
Arguments Unreadable {A} raw.

(** The host: the clock, [crypto.randomBytes] (as hex text) and whether a
    file-system call that can fail succeeds. *)
Record Host := mkHost {
  now_at : nat -> Z;
  randomBytes_at : nat -> string;
  fs_works_at : nat -> bool
}.

Record Machine := mkMachine {
  sessions_file : option (Body Sessions);
  cookies_file : option (Body Cookies);
  sessions_lock : bool;               (* the lock file exists *)
  cookies_lock : bool;
  n_now : nat;
  n_bytes : nat;
  n_fsop : nat
}.

(** A file of the module, holding an object with values in [V], with its
    lock file. *)
Record Slot (V : Type) : Type := mkSlot {
  slot_path : string;
  slot_file : Machine -> option (Body (Obj V));
  slot_lock : Machine -> bool;
  with_file : option (Body (Obj V)) -> Machine -> Machine;
  with_lock : bool -> Machine -> Machine
}.
Arguments slot_path {V} s.
Arguments slot_file {V} s m.
Arguments slot_lock {V} s m.
Arguments with_file {V} s body m.
Arguments with_lock {V} s b m.

Definition SESSIONS_FILE : Slot (option Session) :=
  {| slot_path := "./sessions.json.enc";
     slot_file := sessions_file;
     slot_lock := sessions_lock;
     with_file := fun body m =>
       mkMachine body (cookies_file m) (sessions_lock m) (cookies_lock m)
                 (n_now m) (n_bytes m) (n_fsop m);
     with_lock := fun b m =>
       mkMachine (sessions_file m) (cookies_file m) b (cookies_lock m)
                 (n_now m) (n_bytes m) (n_fsop m) |}.

Definition COOKIES_FILE : Slot Jar :=
  {| slot_path := "./cookies.json.enc";
     slot_file := cookies_file;
     slot_lock := cookies_lock;
     with_file := fun body m =>
       mkMachine (sessions_file m) body (sessions_lock m) (cookies_lock m)
                 (n_now m) (n_bytes m) (n_fsop m);
     with_lock := fun b m =>
       mkMachine (sessions_file m) (cookies_file m) (sessions_lock m) b
                 (n_now m) (n_bytes m) (n_fsop m) |}.

Definition LOCK_TIMEOUT : Z := 3000.
Definition SESSION_LIFETIME : Z := 7 * 24 * 60 * 60 * 1000.

(** How a call ends: with a value, with an exception, or still waiting
    for a lock when the model stops following it. *)
Inductive Outcome (A : Type) : Type :=
| Done (a : A)
| Raised (e : JsError)
| Waiting.
Arguments Done {A} a.
Arguments Raised {A} e.
Arguments Waiting {A}.

Definition SM (A : Type) : Type := Machine -> Outcome A * Machine.

Definition pure {A : Type} (a : A) : SM A := fun m => (Done a, m).

Definition raise {A : Type} (e : JsError) : SM A := fun m => (Raised e, m).

Definition and_then {A B : Type} (c : SM A) (k : A -> SM B) : SM B :=
  fun m =>
    match c m with
    | (Done a, m') => k a m'
    | (Raised e, m') => (Raised e, m')
    | (Waiting, m') => (Waiting, m')
    end.

(** [try { c } catch (e) { ... }]: the completion of [c], caught. *)
Definition attempt {A : Type} (c : SM A) : SM (Completion A) :=
  fun m =>
    match c m with
    | (Done a, m') => (Done (Returned a), m')
    | (Raised e, m') => (Done (Thrown e), m')
    | (Waiting, m') => (Waiting, m')
    end.

Notation "x <~ c ;;; k" := (and_then c (fun x => k))
  (at level 100, c at next level, right associativity).
Notation "c ;;; k" := (and_then c (fun _ => k))
  (at level 100, right associativity).

Section Manager.

Variable host : Host.

(** The number of turns of a lock loop the model follows. *)
Variable patience : nat.

Definition Date_now : SM Z := fun m =>
  (Done (now_at host (n_now m)),
   mkMachine (sessions_file m) (cookies_file m) (sessions_lock m) (cookies_lock m)
             (S (n_now m)) (n_bytes m) (n_fsop m)).

Definition crypto_randomBytes : SM string := fun m =>
  (Done (randomBytes_at host (n_bytes m)),
   mkMachine (sessions_file m) (cookies_file m) (sessions_lock m) (cookies_lock m)
             (n_now m) (S (n_bytes m)) (n_fsop m)).

(** A file-system call that can fail: the answer of the host. *)
Definition fs_call : SM unit := fun m =>
  let m' := mkMachine (sessions_file m) (cookies_file m) (sessions_lock m) (cookies_lock m)
                      (n_now m) (n_bytes m) (S (n_fsop m)) in
  if fs_works_at host (n_fsop m) then (Done tt, m') else (Raised (Error "EIO"), m').

Definition fs_existsSync {V : Type} (file : Slot V) : SM bool := fun m =>
  (Done (match slot_file file m with Some _ => true | None => false end), m).

Definition fs_existsSync_lock {V : Type} (file : Slot V) : SM bool := fun m =>
  (Done (slot_lock file m), m).

Definition fs_readFileSync {V : Type} (file : Slot V) : SM (Body (Obj V)) :=
  fs_call ;;;
  fun m => match slot_file file m with
           | Some body => (Done body, m)
           | None => (Raised (Error "ENOENT"), m)
           end.

Definition fs_writeFileSync {V : Type} (file : Slot V) (body : Body (Obj V)) : SM unit :=
  fs_call ;;;
  fun m => (Done tt, with_file file (Some body) m).

(** [fs.writeFileSync(lock, pid, { flag: 'wx' })] *)
Definition fs_writeFileSync_lock {V : Type} (file : Slot V) : SM unit :=
  fs_call ;;;
  fun m => if slot_lock file m then (Raised (Error "EEXIST"), m)
           else (Done tt, with_lock file true m).

Definition fs_unlinkSync_lock {V : Type} (file : Slot V) : SM unit :=
  fs_call ;;;
  fun m => (Done tt, with_lock file false m).

Definition encryptData {V : Type} (content : Obj V) : SM (Body (Obj V)) :=
  iv <~ crypto_randomBytes ;;;
  pure (Sealed iv content).

(** [decryptData]: the data, or [{}] when the text cannot be opened. *)
Definition decryptData {V : Type} (body : Body (Obj V)) : Obj V :=
  match body with
  | Sealed _ content => content
  | Unreadable _ => []
  end.

(** [!raw] *)
Definition is_empty_text {V : Type} (body : Body (Obj V)) : bool :=
  match body with
  | Sealed _ _ => false
  | Unreadable raw => negb (truthy raw)
  end.

(** The [while (fs.existsSync(lock))] loop of [lockFile]. *)
Fixpoint wait_for_lock {V : Type} (file : Slot V) (turns : nat) (start : Z) : SM unit :=
  held <~ fs_existsSync_lock file ;;;
  if held then
    match turns with
    | O => fun m => (Waiting, m)
    | S turns' =>
        now <~ Date_now ;;;
        if (now - start >? LOCK_TIMEOUT)%Z
        then raise (Error ("Timeout waiting for file lock: " ++ slot_path file))
        else wait_for_lock file turns' start
    end
  else pure tt.

(** [lockFile]; the unlock function it returns is [unlock] of the file. *)
Definition lockFile {V : Type} (file : Slot V) : SM unit :=
  start <~ Date_now ;;;
  wait_for_lock file patience start ;;;
  written <~ attempt (fs_writeFileSync_lock file) ;;;
  match written with
  | Returned _ => pure tt
  | Thrown _ => raise (Error ("Unable to acquire file lock: " ++ slot_path file))
  end.

Definition unlock {V : Type} (file : Slot V) : SM unit :=
  held <~ fs_existsSync_lock file ;;;
  if held then fs_unlinkSync_lock file else pure tt.

Definition loadEncryptedStorage {V : Type} (file : Slot V) (fallback : Obj V) : SM (Obj V) :=
  there <~ fs_existsSync file ;;;
  if negb there then pure fallback
  else
    locked <~ attempt (lockFile file) ;;;
    match locked with
    | Thrown _ => pure fallback
    | Returned _ =>
        read <~ attempt (fs_readFileSync file) ;;;
        let result :=
          match read with
          | Thrown _ => fallback
          | Returned raw => if is_empty_text raw then fallback else decryptData raw
          end in
        unlock file ;;;
        pure result
    end.

Definition saveEncryptedStorage {V : Type} (file : Slot V) (data : Obj V) : SM unit :=
  locked <~ attempt (lockFile file) ;;;
  match locked with
  | Thrown e => raise e
  | Returned _ =>
      written <~ attempt (body <~ encryptData data ;;; fs_writeFileSync file body) ;;;
      unlock file ;;;
      match written with
      | Thrown e => raise e
      | Returned _ => pure tt
      end
  end.

(** The test of [cleanupSessions] on an entry: [null], or created more than
    [SESSION_LIFETIME] before [now]. *)
Definition expired (now : Z) (entry : option Session) : bool :=
  match entry with
  | None => true
  | Some s =>
      match createdAt s with
      | Some c => negb (c =? 0)%Z && (now - c >? SESSION_LIFETIME)%Z
      | None => false
      end
  end.

(** [for (const sid of Object.keys(sessions))], deleting in place. *)
Fixpoint cleanupSessions_loop (now : Z) (keys : list string) (sessions : Sessions)
  (changed : bool) : bool * Sessions :=
  match keys with
  | [] => (changed, sessions)
  | sid :: rest =>
      if match obj_get sid sessions with
         | Some entry => expired now entry
         | None => true
         end
      then cleanupSessions_loop now rest (obj_delete sid sessions) true
      else cleanupSessions_loop now rest sessions changed
  end.

(** [cleanupSessions]: what it returns, and the object as it leaves it. *)
Definition cleanupSessions (sessions : Sessions) : SM (bool * Sessions) :=
  now <~ Date_now ;;;
  pure (cleanupSessions_loop now (Object_keys sessions) sessions false).

Fixpoint cleanupCookies_loop (keys : list string) (cookies : Cookies)
  (validSessionIds : list string) (changed : bool) : bool * Cookies :=
  match keys with
  | [] => (changed, cookies)
  | sid :: rest =>
      if negb (existsb (String.eqb sid) validSessionIds)
      then cleanupCookies_loop rest (obj_delete sid cookies) validSessionIds true
      else cleanupCookies_loop rest cookies validSessionIds changed
  end.

Definition cleanupCookies (cookies : Cookies) (validSessionIds : list string)
  : bool * Cookies :=
  cleanupCookies_loop (Object_keys cookies) cookies validSessionIds false.

Definition generateSessionId : SM string := crypto_randomBytes.

Definition createSession (userId : option string) : SM string :=
  sessions <~ loadEncryptedStorage SESSIONS_FILE [] ;;;
  now <~ Date_now ;;;
  sessionId <~ generateSessionId ;;;
  let sessions :=
    obj_set sessionId (Some (mkSession userId sessionId (Some now) (Some now) "{}")) sessions in
  cleaned <~ cleanupSessions sessions ;;;
  saveEncryptedStorage SESSIONS_FILE (snd cleaned) ;;;
  pure sessionId.

Definition set_lastActive (now : Z) (s : Session) : Session :=
  mkSession (userId s) (sessionId s) (createdAt s) (Some now) (data s).

(** [session.createdAt || 0] *)
Definition createdAt_or_0 (s : Session) : Z :=
  match createdAt s with Some c => c | None => 0%Z end.

Definition getSession (sessionId : string) : SM (option Session) :=
  sessions <~ loadEncryptedStorage SESSIONS_FILE [] ;;;
  cleaned <~ cleanupSessions sessions ;;;
  (if fst cleaned then saveEncryptedStorage SESSIONS_FILE (snd cleaned) else pure tt) ;;;
  let sessions := snd cleaned in
  now <~ Date_now ;;;
  match obj_get sessionId sessions with
  | Some (Some session) =>
      if (now - createdAt_or_0 session <=? SESSION_LIFETIME)%Z
      then
        let session := set_lastActive now session in
        saveEncryptedStorage SESSIONS_FILE (obj_set sessionId (Some session) sessions) ;;;
        pure (Some session)
      else if truthy sessionId
      then saveEncryptedStorage SESSIONS_FILE (obj_delete sessionId sessions) ;;; pure None
      else pure None
  | _ => pure None
  end.

Definition persistSession (sessionData : option Session) : SM bool :=
  match sessionData with
  | None => pure false
  | Some sessionData =>
      if negb (truthy (sessionId sessionData)) then pure false
      else
        sessions <~ loadEncryptedStorage SESSIONS_FILE [] ;;;
        cleaned <~ cleanupSessions sessions ;;;
        now <~ Date_now ;;;
        saveEncryptedStorage SESSIONS_FILE
          (obj_set (sessionId sessionData) (Some (set_lastActive now sessionData))
                   (snd cleaned)) ;;;
        pure true
  end.

Definition restoreCookies (sessionId : string) : SM (list Cookie) :=
  cookies <~ loadEncryptedStorage COOKIES_FILE [] ;;;
  pure (match obj_get sessionId cookies with
        | Some (JarArray stored) => stored
        | _ => []
        end).

(** [cookiesArray] is [None] when the argument is not an array. *)
Definition persistCookies (sessionId : string) (cookiesArray : option (list Cookie))
  : SM bool :=
  cookies <~ loadEncryptedStorage COOKIES_FILE [] ;;;
  let cookies :=
    obj_set sessionId
            (JarArray (match cookiesArray with Some given => given | None => [] end))
            cookies in
  sessions <~ loadEncryptedStorage SESSIONS_FILE [] ;;;
  let cleaned := cleanupCookies cookies (Object_keys sessions) in
  (if fst cleaned then saveEncryptedStorage COOKIES_FILE (snd cleaned) else pure tt) ;;;
  saveEncryptedStorage COOKIES_FILE (snd cleaned) ;;;
  pure true.


Definition cleanupAll : SM unit :=
  sessions <~ loadEncryptedStorage SESSIONS_FILE [] ;;;
  cookies <~ loadEncryptedStorage COOKIES_FILE [] ;;;
  cleaned <~ cleanupSessions sessions ;;;
  let changedCookies := cleanupCookies cookies (Object_keys (snd cleaned)) in
  (if fst cleaned then saveEncryptedStorage SESSIONS_FILE (snd cleaned) else pure tt) ;;;
  (if fst changedCookies then saveEncryptedStorage COOKIES_FILE (snd changedCookies)
   else pure tt).

End Manager.

End SessionManager.

(** The files and the locks of a machine. *)
Definition files_and_locks (m : SessionManager.Machine) :=
  (SessionManager.sessions_file m, SessionManager.cookies_file m,
   SessionManager.sessions_lock m, SessionManager.cookies_lock m).

(** The host never refuses a file-system call. *)
Definition reliable (host : SessionManager.Host) : Prop :=
  forall n, SessionManager.fs_works_at host n = true.

(** No lock file was left behind. *)
Definition unlocked (m : SessionManager.Machine) : Prop :=
  SessionManager.sessions_lock m = false /\ SessionManager.cookies_lock m = false.

(** What [loadEncryptedStorage] makes of a file. *)
Definition stored {V : Type} (file : option (SessionManager.Body (SessionManager.Obj V)))
  : SessionManager.Obj V :=
  match file with
  | Some (SessionManager.Sealed _ content) => content
  | _ => []
  end.

(** Deleting, key by key, the entries [bad] tells. *)
Fixpoint prune {V : Type} (bad : string -> option V -> bool) (keys : list string)
  (o : SessionManager.Obj V) (changed : bool) : bool * SessionManager.Obj V :=
  match keys with
  | [] => (changed, o)
  | k :: rest =>
      if bad k (SessionManager.obj_get k o)
      then prune bad rest (SessionManager.obj_delete k o) true
      else prune bad rest o changed
  end.

(** Polling a lock, the clock passes the timeout within the turns followed. *)
Definition clock_advances (host : SessionManager.Host) (patience : nat) : Prop :=
  forall i, exists k,
    (k < patience)%nat
    /\ (SessionManager.LOCK_TIMEOUT
        < SessionManager.now_at host (S i + k) - SessionManager.now_at host i)%Z.

(** ** Concrete inputs for the examples of the further properties *)

(** The state file is there, the first read fails, later calls succeed. *)
Definition env_first_read_fails : Env :=
  mkEnv demo_uuid (fun n => Z.of_nat n) (fun n => negb (n =? 0)%nat) (fun _ => 1 # 2) "/app".

(** Three rows; the draws make the second one fail. *)
Definition env_middle_row_fails : Env :=
  mkEnv demo_uuid (fun n => Z.of_nat n) (fun _ => true)
        (fun n => if (n =? 2)%nat then 95 # 100 else 1 # 2) "/app".

(** One batch scheduled for [p1]. *)
Definition one_scheduled_world : World :=
  snd (BatchProcessor.scheduleBatchRun env_middle_row_fails "p1" "{}" fresh_world).

(** An element inside a container styled [display: none]. *)
Definition hidden_group : Node :=
  mkNode 1 (Some view_doc) (mkStyle "none" "visible" "1") [] None None.
Definition nested_node : Node :=
  mkNode 1 (Some view_doc) plain_style [] None (Some hidden_group).

(** A text input that is also [contenteditable="true"], 20 high. *)
Definition editable_input : Element :=
  mkElement "INPUT" (Some "text") false (Some "true") "note" "" "text" "" false "" false
            (mkRect 0 20) shown_node.

(** Hosts of the session manager: a reliable file system with a clock that
    stands still, one whose clock is years on, and one whose clock jumps four
    seconds at every read. *)
Definition session_host : SessionManager.Host :=
  SessionManager.mkHost (fun _ => 1000%Z) (fun n => ("sid-" ++ string_of_nat n)%string)
                        (fun _ => true).
Definition late_host : SessionManager.Host :=
  SessionManager.mkHost (fun n => (1700000000000 + Z.of_nat n)%Z)
                        (fun n => ("sid-" ++ string_of_nat n)%string) (fun _ => true).

Definition ann_session : SessionManager.Session :=
  SessionManager.mkSession (Some "ann") "s1" (Some 1000%Z) (Some 1000%Z) "{}".

(** The sessions file holds the session [s1] and a [null] entry; the
    cookies file holds cookies for [s1] and for an id with no session. *)
Definition demo_sessions : SessionManager.Sessions :=
  [("s1", Some ann_session); ("s0", None)].
Definition demo_cookies : SessionManager.Cookies :=
  [("s1", SessionManager.JarArray ["a=1"; "b=2"]); ("gone", SessionManager.JarArray ["c=3"])].

Definition empty_machine : SessionManager.Machine :=
  SessionManager.mkMachine None None false false 0 0 0.
Definition demo_machine : SessionManager.Machine :=
  SessionManager.mkMachine (Some (SessionManager.Sealed "iv" demo_sessions))
                           (Some (SessionManager.Sealed "iv" demo_cookies))
                           false false 0 0 0.

(** * Properties *)

(** Running the operations on a symbolic world: unfold the monad and the
    primitives with sharing, then case on each file-system answer. *)
Ltac run_ops :=
  lazy beta iota zeta delta
    [BatchProcessor.executeBatch_settle BatchProcessor.executeBatch_finish
     BatchProcessor.executeBatch_start BatchProcessor.scheduleBatchRun
     BatchProcessor.handleBatchCompletion BatchProcessor.trackBatchProgress
     BatchProcessor.persistBatchState BatchProcessor.logBatchEvent
     BatchProcessor.processForm BatchProcessor.delay
     bind ret assign deref emit console_log new_object batches_set
     batches_get batches_values_find uuidv4 Date_now Math_random
     fs_writeFileSync_batches fs_appendFileSync
     heap next_addr batches state_files log_files console emitted
     n_uuid n_clock n_fs n_random];
  cbn [fst snd].

Ltac split_fs :=
  repeat match goal with
         | |- context [if fs_ok_at ?e ?n then _ else _] => destruct (fs_ok_at e n)
         end.

Ltac crunch := run_ops; split_fs; run_ops.

Lemma bind_eq {A B : Type} (m : M A) (k : A -> M B) w :
  bind m k w = k (fst (m w)) (snd (m w)).
Proof. unfold bind. now destruct (m w). Qed.

Lemma ret_eq {A : Type} (x : A) w : ret x w = (x, w).
Proof. reflexivity. Qed.

Lemma deref_eq a w : deref a w = (heap w a, w).
Proof. reflexivity. Qed.

Lemma delay_eq ms w : BatchProcessor.delay ms w = (tt, w).
Proof. reflexivity. Qed.

Lemma fst_pair {A B : Type} (x : A) (y : B) : fst (x, y) = x.
Proof. reflexivity. Qed.

Lemma snd_pair {A B : Type} (x : A) (y : B) : snd (x, y) = y.
Proof. reflexivity. Qed.

Lemma let_pair {A B C : Type} (p : A * B) (f : A -> B -> C) :
  (let (a, b) := p in f a b) = f (fst p) (snd p).
Proof. now destruct p. Qed.

(** Stepping through a computation by rewriting, so that no proof step
    depends on unfolding an operation. *)
Ltac binds :=
  repeat progress
    (rewrite ?bind_eq, ?let_pair, ?ret_eq, ?deref_eq, ?delay_eq, ?fst_pair, ?snd_pair).

(** ** Mapping suggestion *)
Section SuggestMappings.

Import FormDetectionEngine.


Lemma bestMatch_of_none rules field :
  (forall r, In r rules -> rule_matches r field = false) ->
  bestMatch_of rules field = None.
Proof.
  induction rules as [|r rules IH]; simpl; intros H; [reflexivity|].
  rewrite (H r) by now left. apply IH. intros r' Hin. apply H. now right.
Qed.


Lemma suggestMappings_nth formFields rules i field :
  nth_error formFields i = Some field ->
  nth_error (suggestMappings formFields rules) i = Some (suggest_one rules field).
Proof.
  intros H. unfold suggestMappings. rewrite nth_error_map, H. reflexivity.
Qed.

Lemma suggest_one_field rules field : sug_field (suggest_one rules field) = field.
Proof.
  unfold suggest_one.
  destruct rules as [rs|]; [destruct (bestMatch_of rs field) as [s|]; [destruct (truthy s)|]|];
    reflexivity.
Qed.




(** A field no rule matches gets the explicit [null] mapping. *)
Lemma suggestMappings_unmatched formFields rules i field :
  nth_error formFields i = Some field ->
  (forall r, In r rules -> rule_matches r field = false) ->
  nth_error (suggestMappings formFields (Some rules)) i = Some (mkSuggestion field None).
Proof.
  intros Hi Hnone. rewrite (suggestMappings_nth _ _ _ _ Hi). f_equal.
  unfold suggest_one. now rewrite bestMatch_of_none.
Qed.

Example suggestMappings_detect_and_map :
  suggestMappings [email_field; comment_field]
    (Some [mkRule (FM_regexp (fun s => (s =? "email")%string)) TM_absent "userEmail"])
  = [mkSuggestion email_field (Some "userEmail"); mkSuggestion comment_field None].
Proof. reflexivity. Qed.

End SuggestMappings.

(** ** Visual fallback clusterer *)
Section VisualFallback.

Lemma cluster_step_min_two st el :
  Forall (fun c => 2 <= length c)%nat (fst (fst st)) ->
  Forall (fun c => 2 <= length c)%nat (fst (fst (cluster_step st el))).
Proof.
  destruct st as [[clusterForms cluster] lastBottom]. unfold cluster_step.
  cbn [fst]. intros H.
  match goal with |- context [if ?c then (_, _, _) else _] => destruct c end;
    cbn [fst]; [exact H|].
  destruct (2 <=? length cluster)%nat eqn:Hlen; [|exact H].
  apply Forall_app. split; [exact H|].
  constructor; [|constructor]. now apply Nat.leb_le.
Qed.

Lemma cluster_fold_min_two els st :
  Forall (fun c => 2 <= length c)%nat (fst (fst st)) ->
  Forall (fun c => 2 <= length c)%nat (fst (fst (List.fold_left cluster_step els st))).
Proof.
  revert st. induction els as [|el els IH]; intros st H; simpl; [exact H|].
  apply IH. now apply cluster_step_min_two.
Qed.

Lemma cluster_controls_min_two els :
  Forall (fun c => 2 <= length c)%nat (cluster_controls els).
Proof.
  unfold cluster_controls.
  pose proof (cluster_fold_min_two els ([], [], None) (List.Forall_nil _)) as H.
  destruct (List.fold_left cluster_step els ([], [], None)) as [[clusterForms cluster] lastBottom].
  simpl in H.
  destruct (2 <=? length cluster)%nat eqn:Hlen; [|exact H].
  apply Forall_app. split; [exact H|].
  constructor; [|constructor]. now apply Nat.leb_le.
Qed.

Lemma mapi_from_Forall {A B : Type} (P : A -> Prop) (R : B -> Prop)
  (f : A -> nat -> B) (l : list A) :
  (forall x i, P x -> R (f x i)) ->
  Forall P l -> forall idx, Forall R (mapi_from f idx l).
Proof.
  intros Hf Hl. induction Hl as [|x l Hx Hl IH]; intros idx; simpl; constructor; auto.
Qed.

Lemma mapi_from_nth {A B : Type} (f : A -> nat -> B) (l : list A) idx i x :
  nth_error l i = Some x ->
  nth_error (mapi_from f idx l) i = Some (f x (idx + i)%nat).
Proof.
  revert idx i. induction l as [|y l IH]; intros idx [|i] H; simpl in *; try discriminate.
  - injection H as ->. now rewrite Nat.add_0_r.
  - rewrite (IH (S idx) i H). f_equal. f_equal. lia.
Qed.

Lemma mapi_from_length {A B : Type} (f : A -> nat -> B) (l : list A) idx :
  length (mapi_from f idx l) = length l.
Proof. revert idx. induction l; intros idx; simpl; [reflexivity|]. now rewrite IHl. Qed.



(** The visible controls are never silently turned into one-control forms:
    the same bound holds for the consolidated copy. *)
Lemma AutomationCore_fallbackVisualDetection_min_two_fields domSnapshot :
  Forall (fun form => 2 <= length (form_fields form))%nat
    (AutomationCoreForms.fallbackVisualDetection domSnapshot).
Proof.
  unfold AutomationCoreForms.fallbackVisualDetection.
  destruct (length _ =? 0)%nat; [constructor|].
  unfold mapi. apply (mapi_from_Forall (fun c => 2 <= length c)%nat).
  - intros c idx Hc. simpl. now rewrite length_map.
  - apply cluster_controls_min_two.
Qed.

(** In src/form-detection-engine.js every synthetic descriptor has the empty
    id and the empty name. *)
Lemma fallbackVisualDetection_blank_identity domSnapshot forms form :
  FormDetectionEngine.fallbackVisualDetection domSnapshot = Returned forms ->
  In form forms ->
  form_id form = "" /\ form_name form = "" /\ form_synthetic form = true /\ form_node form = None.
Proof.
  unfold FormDetectionEngine.fallbackVisualDetection.
  destruct (FormDetectionEngine.filter_visible _) as [visibleControls|err]; [|discriminate].
  destruct (length visibleControls =? 0)%nat; intros [= <-]; [intros []|].
  unfold mapi. generalize 0%nat.
  induction (cluster_controls (sort_by_top visibleControls)) as [|c l IH]; intros idx; simpl.
  - intros [].
  - intros [<-|Hin]; [repeat split|]. now apply (IH (S idx)).
Qed.

(** C6 (the code misses it): on a snapshot with two groups of controls,
    src/form-detection-engine.js returns two synthetic descriptors that both
    carry the empty id and the empty name, so they are not distinct.  The
    index [idx] that would tell them apart is bound and not used. *)
Theorem fallbackVisualDetection_identity_collision :
  exists form1 form2,
    FormDetectionEngine.fallbackVisualDetection two_groups_snapshot = Returned [form1; form2]
    /\ form_synthetic form1 = true /\ form_synthetic form2 = true
    /\ form_id form1 = form_id form2
    /\ form_name form1 = form_name form2.
Proof.
  eexists _, _. split; [vm_compute; reflexivity|]. repeat split.
Qed.

Lemma string_of_nat_inj n m : string_of_nat n = string_of_nat m -> n = m.
Proof.
  unfold string_of_nat. intros H.
  assert (Hnil : forall k, Nat.to_uint k <> Decimal.Nil).
  { intros k Hk. pose proof (DecimalNat.Unsigned.to_of (Nat.to_uint k)) as Hto.
    rewrite DecimalNat.Unsigned.of_to in Hto. rewrite Hk in Hto at 1.
    symmetry in Hto. now apply DecimalFacts.unorm_nonnil in Hto. }
  apply DecimalNat.Unsigned.to_uint_inj.
  pose proof (NilZero.usu _ (Hnil n)) as Hn.
  pose proof (NilZero.usu _ (Hnil m)) as Hm.
  rewrite H in Hn. rewrite Hn in Hm. now injection Hm.
Qed.

(** The consolidated copy (src/unnamed/part_003) does generate the identity:
    the descriptors it returns have pairwise distinct ids. *)
Lemma AutomationCore_fallbackVisualDetection_distinct_ids domSnapshot i j form1 form2 :
  nth_error (AutomationCoreForms.fallbackVisualDetection domSnapshot) i = Some form1 ->
  nth_error (AutomationCoreForms.fallbackVisualDetection domSnapshot) j = Some form2 ->
  form_id form1 = form_id form2 -> i = j.
Proof.
  unfold AutomationCoreForms.fallbackVisualDetection.
  destruct (length _ =? 0)%nat.
  - destruct i; discriminate.
  - unfold mapi. intros Hi Hj.
    set (cl := cluster_controls _) in *.
    destruct (nth_error cl i) as [ci|] eqn:Hci.
    2:{ apply nth_error_None in Hci. rewrite <- (mapi_from_length AutomationCoreForms.synthetic_form cl 0) in Hci.
        apply nth_error_None in Hci. congruence. }
    destruct (nth_error cl j) as [cj|] eqn:Hcj.
    2:{ apply nth_error_None in Hcj. rewrite <- (mapi_from_length AutomationCoreForms.synthetic_form cl 0) in Hcj.
        apply nth_error_None in Hcj. congruence. }
    rewrite (mapi_from_nth _ _ _ _ _ Hci) in Hi. rewrite (mapi_from_nth _ _ _ _ _ Hcj) in Hj.
    injection Hi as <-. injection Hj as <-.
    unfold AutomationCoreForms.synthetic_form. cbn [form_id append].
    intros H. injection H as H. now apply string_of_nat_inj in H.
Qed.

End VisualFallback.

(** ** Visibility filter *)
Section Visibility.

(** In src/form-detection-engine.js the walk reads [defaultView] and calls
    [getComputedStyle] without a test, so a detached element makes it throw. *)
Lemma isHidden_detached_element_throws node :
  nodeType node = 1%Z -> detached node ->
  exists msg, FormDetectionEngine.isHidden (Some node) = Thrown (TypeError msg).
Proof.
  intros Htype Hdet. unfold detached in Hdet.
  destruct node as [ty doc st cls aria parent]. simpl in *. subst ty.
  destruct Hdet as [->|[d [-> Hview]]]; simpl.
  - eexists. reflexivity.
  - rewrite Hview. eexists. reflexivity.
Qed.

(** The consolidated copy (src/unnamed/part_003) tests both before it asks
    for the style, and answers [true]. *)
Lemma AutomationCore_isHidden_detached_element node :
  nodeType node = 1%Z -> detached node ->
  AutomationCoreForms.isHidden (Some node) = true.
Proof.
  intros Htype Hdet. unfold detached in Hdet.
  destruct node as [ty doc st cls aria parent]. simpl in *. subst ty.
  destruct Hdet as [->|[d [-> Hview]]]; simpl; [reflexivity|].
  now rewrite Hview.
Qed.

(** In both copies a node that is not an element ends the walk with [false],
    detached or not. *)
Lemma isHidden_non_element node :
  nodeType node <> 1%Z ->
  FormDetectionEngine.isHidden (Some node) = Returned false /\
  AutomationCoreForms.isHidden (Some node) = false.
Proof.
  intros Htype. destruct node as [ty doc st cls aria parent]. simpl in *.
  apply Z.eqb_neq in Htype. now rewrite Htype.
Qed.

(** C8 (the code misses it): for an element whose document has no view, and
    for an element with no owning document, [isHidden] of
    src/form-detection-engine.js raises a [TypeError] where the claim says it
    returns [true]. *)
Theorem isHidden_detached_raises :
  FormDetectionEngine.isHidden (Some viewless_node)
    = Thrown (TypeError "Cannot read properties of null (reading 'getComputedStyle')")
  /\ FormDetectionEngine.isHidden (Some orphan_node)
    = Thrown (TypeError "Cannot read properties of null (reading 'defaultView')")
  /\ AutomationCoreForms.isHidden (Some viewless_node) = true
  /\ AutomationCoreForms.isHidden (Some orphan_node) = true.
Proof. repeat split. Qed.

End Visibility.

(** ** Batch processor: what each operation does to the world *)
Section BatchFrame.

Variable env : Env.

Lemma heap_update_eq a f h : heap_update a f h a = f (h a).
Proof. unfold heap_update. now rewrite Nat.eqb_refl. Qed.

Lemma heap_update_neq a a' f h : a' <> a -> heap_update a f h a' = h a'.
Proof. unfold heap_update. intros H. apply Nat.eqb_neq in H. now rewrite H. Qed.

Lemma Map_get_set_eq k a m : Map_get k (Map_set k a m) = Some a.
Proof.
  induction m as [|[k' a'] m IH]; simpl.
  - now rewrite String.eqb_refl.
  - destruct (k' =? k)%string eqn:E; simpl.
    + now rewrite String.eqb_refl.
    + now rewrite E.
Qed.

Lemma Map_set_values k a m x :
  In x (List.map snd (Map_set k a m)) -> x = a \/ In x (List.map snd m).
Proof.
  induction m as [|[k' a'] m IH]; simpl.
  - intros [<-|[]]. now left.
  - destruct (k' =? k)%string; simpl.
    + intros [<-|H]; [now left|right; now right].
    + intros [<-|H]; [right; now left|]. destruct (IH H) as [->|H']; [now left|right; now right].
Qed.

Lemma Map_get_values k m a : Map_get k m = Some a -> In a (List.map snd m).
Proof.
  induction m as [|[k' a'] m IH]; simpl; [discriminate|].
  destruct (k' =? k)%string; [intros [= ->]; now left|]. intros H. right. now apply IH.
Qed.

Lemma same_core_refl w : same_core w w.
Proof. repeat split. Qed.

Lemma same_core_trans w1 w2 w3 : same_core w1 w2 -> same_core w2 w3 -> same_core w1 w3.
Proof. unfold same_core. intros (?&?&?&?) (?&?&?&?). repeat split; congruence. Qed.

Lemma persistBatchState_core w :
  same_core w (snd (BatchProcessor.persistBatchState env w)).
Proof. destruct w. unfold same_core. crunch; repeat split. Qed.

Lemma logBatchEvent_core batchId event data w :
  same_core w (snd (BatchProcessor.logBatchEvent env batchId event data w)).
Proof. destruct w. unfold same_core. crunch; repeat split. Qed.

Lemma processForm_core profile row w :
  same_core w (snd (BatchProcessor.processForm env profile row w)).
Proof.
  destruct w. unfold same_core. run_ops.
  destruct (Qltb _ _); run_ops; repeat split.
Qed.

Lemma processForm_outcome profile row w :
  fst (BatchProcessor.processForm env profile row w)
  = if Qltb (random_at env (n_random w)) (9 # 10)
    then Returned (mkResult profile row "success")
    else Thrown (Error "Simulated form submission error").
Proof.
  destruct w. run_ops. destruct (Qltb _ _); reflexivity.
Qed.

Lemma trackBatchProgress_world batchId w :
  snd (BatchProcessor.trackBatchProgress batchId w) = w.
Proof. destruct w. run_ops. destruct (Map_get batchId _); reflexivity. Qed.

Lemma scheduleBatchRun_spec profile batchConfig w :
  let w' := snd (BatchProcessor.scheduleBatchRun env profile batchConfig w) in
  let batchId := fst (BatchProcessor.scheduleBatchRun env profile batchConfig w) in
  batchId = uuid_at env (n_uuid w) /\
  next_addr w' = S (next_addr w) /\
  (forall a, a <> next_addr w -> heap w' a = heap w a) /\
  b_id (heap w' (next_addr w)) = batchId /\
  b_profile (heap w' (next_addr w)) = profile /\
  b_status (heap w' (next_addr w)) = Scheduled /\
  b_progress (heap w' (next_addr w)) = mkProgress 0 0 0 0 /\
  batches w' = Map_set batchId (next_addr w) (batches w) /\
  emitted w' = emitted w.
Proof.
  destruct w. crunch; rewrite ?heap_update_eq;
    repeat split; intros; now rewrite heap_update_neq.
Qed.

Lemma executeBatch_start_none profile inputRows w :
  List.find (fun a => (b_profile (heap w a) =? profile)%string
                      && Status_eqb (b_status (heap w a)) Scheduled)
            (List.map snd (batches w)) = None ->
  BatchProcessor.executeBatch_start env profile inputRows w
  = (Thrown (Error "No scheduled batch for this profile."), w).
Proof. destruct w. cbn [heap batches]. intros H. run_ops. now rewrite H. Qed.

Lemma executeBatch_start_some profile inputRows w a :
  List.find (fun a => (b_profile (heap w a) =? profile)%string
                      && Status_eqb (b_status (heap w a)) Scheduled)
            (List.map snd (batches w)) = Some a ->
  let w' := snd (BatchProcessor.executeBatch_start env profile inputRows w) in
  fst (BatchProcessor.executeBatch_start env profile inputRows w) = Returned a /\
  next_addr w' = next_addr w /\ batches w' = batches w /\
  (forall a', a' <> a -> heap w' a' = heap w a') /\
  b_id (heap w' a) = b_id (heap w a) /\
  b_profile (heap w' a) = b_profile (heap w a) /\
  b_status (heap w' a) = Running /\
  b_progress (heap w' a) = set_total (Z.of_nat (length inputRows)) (b_progress (heap w a)) /\
  emitted w' = emitted w ++ [batchStarted (b_id (heap w a))].
Proof.
  destruct w. cbn [heap batches]. intros H. run_ops. rewrite H. run_ops.
  split_fs; run_ops; rewrite ?heap_update_eq;
    repeat split; intros; now rewrite !heap_update_neq.
Qed.

Lemma executeBatch_settle_spec a idx row outcome results failures w :
  let w' := snd (BatchProcessor.executeBatch_settle env a idx row outcome results failures w) in
  let acc := fst (BatchProcessor.executeBatch_settle env a idx row outcome results failures w) in
  next_addr w' = next_addr w /\ batches w' = batches w /\
  (forall a', a' <> a -> heap w' a' = heap w a') /\
  b_id (heap w' a) = b_id (heap w a) /\
  b_profile (heap w' a) = b_profile (heap w a) /\
  b_status (heap w' a) = b_status (heap w a) /\
  b_progress (heap w' a)
    = incr_processed (match outcome with
                      | Returned _ => incr_succeeded (b_progress (heap w a))
                      | Thrown _ => incr_failed (b_progress (heap w a))
                      end) /\
  emitted w' = emitted w ++ [progress (b_id (heap w a)) (b_progress (heap w' a))] /\
  acc = match outcome with
        | Returned result => (results ++ [result], failures)
        | Thrown err =>
            (results, failures ++ [mkFailure row (b_profile (heap w a)) (err_message err) 1])
        end.
Proof.
  destruct w. destruct outcome as [result|err]; crunch; rewrite ?heap_update_eq;
    repeat split; intros; now rewrite !heap_update_neq.
Qed.

Lemma executeBatch_finish_spec a inputRows results failures w :
  let w' := snd (BatchProcessor.executeBatch_finish env a inputRows results failures w) in
  let r := fst (BatchProcessor.executeBatch_finish env a inputRows results failures w) in
  next_addr w' = next_addr w /\ batches w' = batches w /\
  (forall a', a' <> a -> heap w' a' = heap w a') /\
  b_id (heap w' a) = b_id (heap w a) /\
  b_profile (heap w' a) = b_profile (heap w a) /\
  b_status (heap w' a) = (if (length failures =? 0)%nat then Completed else Failed) /\
  b_progress (heap w' a) = b_progress (heap w a) /\
  b_failures (heap w' a) = failures /\
  (exists completedAt,
     b_summary (heap w' a)
     = Some (mkSummary (Z.of_nat (length inputRows))
                       (p_succeeded (b_progress (heap w a)))
                       (p_failed (b_progress (heap w a))) completedAt)) /\
  emitted w' = emitted w ++ [batchCompleted (b_id (heap w a)) (b_summary (heap w' a))] /\
  r = mkExecResult (b_id (heap w a)) results failures.
Proof.
  destruct w. crunch; rewrite ?heap_update_eq;
    repeat split; try (intros; now rewrite !heap_update_neq); eexists; reflexivity.
Qed.

Lemma handleBatchCompletion_none batchId summary w :
  Map_get batchId (batches w) = None ->
  BatchProcessor.handleBatchCompletion env batchId summary w = (tt, w).
Proof. destruct w. cbn [batches]. intros H. run_ops. now rewrite H. Qed.

Lemma handleBatchCompletion_some batchId summary w a :
  Map_get batchId (batches w) = Some a ->
  let w' := snd (BatchProcessor.handleBatchCompletion env batchId summary w) in
  next_addr w' = next_addr w /\ batches w' = batches w /\
  (forall a', a' <> a -> heap w' a' = heap w a') /\
  b_id (heap w' a) = b_id (heap w a) /\
  b_profile (heap w' a) = b_profile (heap w a) /\
  b_status (heap w' a) = Completed /\
  b_progress (heap w' a) = b_progress (heap w a) /\
  b_summary (heap w' a) = summary /\
  emitted w' = emitted w ++ [batchFinalized batchId summary].
Proof.
  destruct w. cbn [batches heap]. intros H. run_ops. rewrite H. run_ops.
  split_fs; run_ops; rewrite ?heap_update_eq;
    repeat split; intros; now rewrite !heap_update_neq.
Qed.

End BatchFrame.

(** ** Retry engine *)
Section Retry.

Variable env : Env.

(** The loop never turns more often than [retry_fuel] allows: more fuel
    changes nothing. *)
Lemma retry_loop_fuel_enough fuel failure maxAttempts retryDelay :
  forall attempt lastError w,
    (BatchProcessor.retry_fuel maxAttempts attempt <= fuel)%nat ->
    BatchProcessor.retry_loop env fuel failure maxAttempts retryDelay attempt lastError w
    = BatchProcessor.retry_loop env (BatchProcessor.retry_fuel maxAttempts attempt)
        failure maxAttempts retryDelay attempt lastError w.
Proof.
  unfold BatchProcessor.retry_fuel.
  induction fuel as [|fuel IH]; intros attempt lastError w Hfuel.
  - assert (Z.to_nat (maxAttempts + 1 - attempt) = 0)%nat as -> by lia. reflexivity.
  - destruct (attempt <=? maxAttempts)%Z eqn:Hle.
    + apply Z.leb_le in Hle.
      assert (Z.to_nat (maxAttempts + 1 - attempt)
              = S (Z.to_nat (maxAttempts + 1 - (attempt + 1)))) as Hs by lia.
      rewrite Hs. cbn [BatchProcessor.retry_loop].
      apply Z.leb_le in Hle. rewrite Hle.
      binds.
      destruct (fst (BatchProcessor.processForm env (f_profile failure) (f_row failure) w));
        [reflexivity|].
      binds. apply IH. lia.
    + cbn [BatchProcessor.retry_loop]. rewrite Hle.
      destruct (Z.to_nat (maxAttempts + 1 - attempt)); cbn [BatchProcessor.retry_loop];
        [reflexivity|now rewrite Hle].
Qed.

Lemma retry_loop_core fuel failure maxAttempts retryDelay :
  forall attempt lastError w,
    same_core w (snd (BatchProcessor.retry_loop env fuel failure maxAttempts retryDelay
                        attempt lastError w)).
Proof.
  induction fuel as [|fuel IH]; intros attempt lastError w; cbn [BatchProcessor.retry_loop].
  - apply same_core_refl.
  - destruct (attempt <=? maxAttempts)%Z; [|apply same_core_refl].
    binds.
    pose proof (processForm_core env (f_profile failure) (f_row failure) w) as Hp.
    destruct (fst (BatchProcessor.processForm env (f_profile failure) (f_row failure) w)).
    + exact Hp.
    + binds.
      eapply same_core_trans; [exact Hp|].
      eapply same_core_trans; [apply logBatchEvent_core|]. apply IH.
Qed.

Lemma retry_all_core maxAttempts retryDelay failures :
  forall finalResults newFailures w,
    same_core w (snd (BatchProcessor.retry_all env maxAttempts retryDelay failures
                        finalResults newFailures w)).
Proof.
  induction failures as [|failure rest IH]; intros finalResults newFailures w;
    cbn [BatchProcessor.retry_all].
  - apply same_core_refl.
  - rewrite bind_eq.
    pose proof (retry_loop_core
                  (BatchProcessor.retry_fuel maxAttempts
                     (if (f_attempt failure =? 0)%Z then 1%Z else f_attempt failure))
                  failure maxAttempts retryDelay
                  (if (f_attempt failure =? 0)%Z then 1%Z else f_attempt failure)
                  (f_error failure) w) as Hone.
    unfold BatchProcessor.retry_one.
    destruct (fst (BatchProcessor.retry_loop _ _ _ _ _ _ _ _)) as [[[result|] attempt] lastError];
      (eapply same_core_trans; [exact Hone|apply IH]).
Qed.

Lemma retryFailedSubmissions_core failures retryPolicy w :
  same_core w (snd (BatchProcessor.retryFailedSubmissions env failures retryPolicy w)).
Proof. unfold BatchProcessor.retryFailedSubmissions. apply retry_all_core. Qed.

(** No record is dropped, whatever the processor answers: each input record
    ends in exactly one of the two output lists. *)
Lemma retry_all_nothing_dropped maxAttempts retryDelay failures :
  forall finalResults newFailures w,
    let r := fst (BatchProcessor.retry_all env maxAttempts retryDelay failures
                    finalResults newFailures w) in
    (length (rr_succeeded r) + length (rr_failures r)
     = length finalResults + length newFailures + length failures)%nat.
Proof.
  induction failures as [|failure rest IH]; intros finalResults newFailures w;
    cbn [BatchProcessor.retry_all].
  - cbn. lia.
  - rewrite bind_eq.
    destruct (fst (BatchProcessor.retry_one env maxAttempts retryDelay failure w))
      as [[[result|] attempt] lastError]; cbv zeta.
    + rewrite IH, length_app. cbn. lia.
    + rewrite IH, length_app. cbn. lia.
Qed.

Lemma retryFailedSubmissions_nothing_dropped failures retryPolicy w :
  let r := fst (BatchProcessor.retryFailedSubmissions env failures retryPolicy w) in
  (length (rr_succeeded r) + length (rr_failures r) = length failures)%nat.
Proof.
  unfold BatchProcessor.retryFailedSubmissions.
  pose proof (retry_all_nothing_dropped (num_or (maxAttempts retryPolicy) 3)
                (num_or (retryDelayMs retryPolicy) 1000) failures [] [] w) as H.
  cbn in H. exact H.
Qed.

Section AlwaysFailing.

(** The processor fails on every invocation. *)
Hypothesis always_fails : forall n, Qltb (random_at env n) (9 # 10) = false.

Lemma processForm_fails profile row w :
  fst (BatchProcessor.processForm env profile row w)
  = Thrown (Error "Simulated form submission error").
Proof. rewrite processForm_outcome. now rewrite always_fails. Qed.

Lemma retry_loop_always_fails failure maxAttempts retryDelay fuel :
  forall attempt lastError w,
    fuel = BatchProcessor.retry_fuel maxAttempts attempt ->
    fst (BatchProcessor.retry_loop env fuel failure maxAttempts retryDelay attempt lastError w)
    = (None, Z.max attempt (maxAttempts + 1),
       if (attempt <=? maxAttempts)%Z then "Simulated form submission error" else lastError).
Proof.
  unfold BatchProcessor.retry_fuel.
  induction fuel as [|fuel IH]; intros attempt lastError w Hfuel;
    cbn [BatchProcessor.retry_loop].
  - assert (maxAttempts < attempt)%Z as Hlt by lia.
    apply Z.leb_gt in Hlt as Hleb. rewrite Hleb. cbn. f_equal. f_equal. lia.
  - assert (attempt <= maxAttempts)%Z as Hle by lia.
    apply Z.leb_le in Hle as Hleb. rewrite Hleb.
    binds.
    rewrite processForm_fails. binds.
    rewrite IH by lia. cbn [err_message Error].
    f_equal; [f_equal; lia|]. now destruct (attempt + 1 <=? maxAttempts)%Z.
Qed.

Lemma retry_one_always_fails maxAttempts retryDelay failure w :
  fst (BatchProcessor.retry_one env maxAttempts retryDelay failure w)
  = (None, f_attempt (exhausted maxAttempts failure), f_error (exhausted maxAttempts failure)).
Proof.
  unfold BatchProcessor.retry_one. rewrite retry_loop_always_fails by reflexivity.
  reflexivity.
Qed.

Lemma retry_all_always_fails maxAttempts retryDelay failures :
  forall finalResults newFailures w,
    fst (BatchProcessor.retry_all env maxAttempts retryDelay failures finalResults newFailures w)
    = mkRetryResult finalResults (newFailures ++ List.map (exhausted maxAttempts) failures).
Proof.
  induction failures as [|failure rest IH]; intros finalResults newFailures w;
    cbn [BatchProcessor.retry_all List.map].
  - cbn. now rewrite app_nil_r.
  - rewrite bind_eq, retry_one_always_fails. rewrite IH.
    now rewrite <- app_assoc.
Qed.

End AlwaysFailing.

(** When every invocation of the whole call fails, every record comes back
    exhausted, in input order. *)
Lemma retryFailedSubmissions_all_fail failures retryPolicy w :
  (forall n, Qltb (random_at env n) (9 # 10) = false) ->
  fst (BatchProcessor.retryFailedSubmissions env failures retryPolicy w)
  = mkRetryResult [] (List.map (exhausted (num_or (maxAttempts retryPolicy) 3)) failures).
Proof.
  intros Hfail. unfold BatchProcessor.retryFailedSubmissions.
  now rewrite (retry_all_always_fails Hfail).
Qed.

(** A failing invocation takes one draw; the log line takes none. *)
Lemma processForm_fails_once profile row w :
  Qltb (random_at env (n_random w)) (9 # 10) = false ->
  fst (BatchProcessor.processForm env profile row w)
  = Thrown (Error "Simulated form submission error")
  /\ n_random (snd (BatchProcessor.processForm env profile row w)) = S (n_random w).
Proof.
  destruct w. cbn [n_random]. intros H. run_ops. rewrite H. split; reflexivity.
Qed.

Lemma logBatchEvent_random batchId event data w :
  n_random (snd (BatchProcessor.logBatchEvent env batchId event data w)) = n_random w.
Proof. destruct w. crunch; reflexivity. Qed.

(** The loop for one record when the invocations made for it fail: the
    draws it consumes are the [fuel] draws that follow [n_random w]. *)
Lemma retry_loop_exhausts failure maxAttempts retryDelay fuel :
  forall attempt lastError w,
    fuel = BatchProcessor.retry_fuel maxAttempts attempt ->
    (forall k, (k < fuel)%nat -> Qltb (random_at env (n_random w + k)) (9 # 10) = false) ->
    fst (BatchProcessor.retry_loop env fuel failure maxAttempts retryDelay attempt lastError w)
    = (None, Z.max attempt (maxAttempts + 1),
       if (attempt <=? maxAttempts)%Z then "Simulated form submission error" else lastError).
Proof.
  unfold BatchProcessor.retry_fuel.
  induction fuel as [|fuel IH]; intros attempt lastError w Hfuel Hdraws;
    cbn [BatchProcessor.retry_loop].
  - assert (maxAttempts < attempt)%Z as Hlt by lia.
    apply Z.leb_gt in Hlt as Hleb. rewrite Hleb. cbn. f_equal. f_equal. lia.
  - assert (attempt <= maxAttempts)%Z as Hle by lia.
    apply Z.leb_le in Hle as Hleb. rewrite Hleb. binds.
    destruct (processForm_fails_once (f_profile failure) (f_row failure) w) as [Hout Hrandom].
    { rewrite <- (Nat.add_0_r (n_random w)). apply Hdraws. lia. }
    rewrite Hout. binds.
    rewrite IH.
    + cbn [err_message Error]. f_equal; [f_equal; lia|].
      now destruct (attempt + 1 <=? maxAttempts)%Z.
    + lia.
    + intros k Hk. rewrite logBatchEvent_random, Hrandom.
      replace (S (n_random w) + k)%nat with (n_random w + S k)%nat by lia.
      apply Hdraws. lia.
Qed.

Lemma retry_all_app maxAttempts retryDelay failures1 failures2 :
  forall finalResults newFailures w,
    BatchProcessor.retry_all env maxAttempts retryDelay (failures1 ++ failures2)
      finalResults newFailures w
    = BatchProcessor.retry_all env maxAttempts retryDelay failures2
        (rr_succeeded (fst (BatchProcessor.retry_all env maxAttempts retryDelay failures1
                              finalResults newFailures w)))
        (rr_failures (fst (BatchProcessor.retry_all env maxAttempts retryDelay failures1
                             finalResults newFailures w)))
        (snd (BatchProcessor.retry_all env maxAttempts retryDelay failures1
                finalResults newFailures w)).
Proof.
  induction failures1 as [|failure rest IH]; intros finalResults newFailures w;
    cbn [app BatchProcessor.retry_all].
  - reflexivity.
  - rewrite !bind_eq.
    destruct (fst (BatchProcessor.retry_one env maxAttempts retryDelay failure w))
      as [[[result|] attempt] lastError]; apply IH.
Qed.

(** The accumulators are only appended to. *)
Lemma retry_all_acc maxAttempts retryDelay failures :
  forall finalResults newFailures w,
    BatchProcessor.retry_all env maxAttempts retryDelay failures finalResults newFailures w
    = (mkRetryResult
         (finalResults
          ++ rr_succeeded (fst (BatchProcessor.retry_all env maxAttempts retryDelay failures [] [] w)))
         (newFailures
          ++ rr_failures (fst (BatchProcessor.retry_all env maxAttempts retryDelay failures [] [] w))),
       snd (BatchProcessor.retry_all env maxAttempts retryDelay failures [] [] w)).
Proof.
  induction failures as [|failure rest IH]; intros finalResults newFailures w;
    cbn [BatchProcessor.retry_all].
  - rewrite !ret_eq. cbn [fst snd rr_succeeded rr_failures]. now rewrite !app_nil_r.
  - rewrite !bind_eq.
    destruct (fst (BatchProcessor.retry_one env maxAttempts retryDelay failure w))
      as [[[result|] attempt] lastError].
    + rewrite (IH (finalResults ++ [result])), (IH ([] ++ [result])).
      cbn [fst snd rr_succeeded rr_failures app]. now rewrite <- !app_assoc.
    + rewrite (IH finalResults (newFailures ++ _)), (IH [] ([] ++ _)).
      cbn [fst snd rr_succeeded rr_failures app]. now rewrite <- !app_assoc.
Qed.

(** C3: with [maxAttempts = 3], take a failure record with [attempt = 1],
    anywhere in the input, for which every invocation of the processor fails
    (the three draws taken when its turn comes).  It comes back in
    [failures], after the failures of the records before it, with
    [attempt = 4] and the message of the last failed invocation in place of
    the message it came with.  [succeeded] holds results of the records
    before and after it only, and every record after it lands in one of the
    two lists: nothing is dropped. *)
Theorem retryFailedSubmissions_exhaustion
  (before after : list FailureRecord) (failure : FailureRecord)
  (retryPolicy : RetryPolicy) (w : World) :
  maxAttempts retryPolicy = Some 3%Z ->
  f_attempt failure = 1%Z ->
  let earlier := BatchProcessor.retryFailedSubmissions env before retryPolicy w in
  (forall k, (k < 3)%nat ->
     Qltb (random_at env (n_random (snd earlier) + k)) (9 # 10) = false) ->
  let r := fst (BatchProcessor.retryFailedSubmissions env (before ++ failure :: after)
                  retryPolicy w) in
  exists succeeded_after failures_after,
    rr_failures r
    = rr_failures (fst earlier)
      ++ mkFailure (f_row failure) (f_profile failure) "Simulated form submission error" 4
      :: failures_after
    /\ rr_succeeded r = rr_succeeded (fst earlier) ++ succeeded_after
    /\ (length succeeded_after + length failures_after = length after)%nat.
Proof.
  intros Hmax Hattempt earlier Hdraws r. subst r earlier.
  unfold BatchProcessor.retryFailedSubmissions in *. rewrite Hmax in *.
  cbn [num_or Z.eqb] in *.
  set (delay := num_or (retryDelayMs retryPolicy) 1000) in *.
  rewrite retry_all_app.
  destruct (BatchProcessor.retry_all env 3 delay before [] [] w) as [[done failed] w1].
  cbn [fst snd rr_succeeded rr_failures] in *.
  cbn [BatchProcessor.retry_all]. rewrite bind_eq.
  unfold BatchProcessor.retry_one. rewrite Hattempt. cbn [Z.eqb].
  change (BatchProcessor.retry_fuel 3 1) with 3%nat.
  rewrite (retry_loop_exhausts failure 3 delay 3 1 (f_error failure) w1 eq_refl Hdraws).
  cbn [Z.leb Z.compare Pos.compare Pos.compare_cont Z.max Z.add Pos.add].
  rewrite retry_all_acc. cbn [fst rr_succeeded rr_failures].
  eexists _, _. split; [|split; [reflexivity|]].
  - rewrite <- app_assoc. reflexivity.
  - pose proof (retry_all_nothing_dropped 3 delay after [] []
                  (snd (BatchProcessor.retry_loop env 3 failure 3 delay 1 (f_error failure) w1)))
      as H.
    cbn in H. exact H.
Qed.

End Retry.

Lemma retryFailedSubmissions_exhaustion_witness :
  exists succeeded_after failures_after,
    rr_failures (fst (BatchProcessor.retryFailedSubmissions env_second_fails
                        (retry_input_before ++ retry_input_failure :: retry_input_after)
                        (mkPolicy (Some 3%Z) None) fresh_world))
    = rr_failures (fst (BatchProcessor.retryFailedSubmissions env_second_fails
                          retry_input_before (mkPolicy (Some 3%Z) None) fresh_world))
      ++ mkFailure (f_row retry_input_failure) (f_profile retry_input_failure)
           "Simulated form submission error" 4
      :: failures_after
    /\ rr_succeeded (fst (BatchProcessor.retryFailedSubmissions env_second_fails
                            (retry_input_before ++ retry_input_failure :: retry_input_after)
                            (mkPolicy (Some 3%Z) None) fresh_world))
       = rr_succeeded (fst (BatchProcessor.retryFailedSubmissions env_second_fails
                              retry_input_before (mkPolicy (Some 3%Z) None) fresh_world))
         ++ succeeded_after
    /\ (length succeeded_after + length failures_after = length retry_input_after)%nat.
Proof.
  apply (retryFailedSubmissions_exhaustion env_second_fails
           retry_input_before retry_input_after retry_input_failure
           (mkPolicy (Some 3%Z) None) fresh_world).
  - reflexivity.
  - reflexivity.
  - intros k Hk. destruct k as [|[|[|k]]]; [reflexivity|reflexivity|reflexivity|lia].
Defined.

(** What the call returns on that input: the first and the third record
    succeed, the second is exhausted. *)
Example retryFailedSubmissions_mixed :
  fst (BatchProcessor.retryFailedSubmissions env_second_fails
         (retry_input_before ++ retry_input_failure :: retry_input_after)
         (mkPolicy (Some 3%Z) None) fresh_world)
  = mkRetryResult
      [mkResult "p1" "rowA" "success"; mkResult "p1" "rowC" "success"]
      [mkFailure "rowB" "p1" "Simulated form submission error" 4].
Proof. vm_compute. reflexivity. Qed.

(** ** The engine under interleaving: the accounting invariant *)
Section Interleaving.

Variable env : Env.

Lemma In_remove_nth {A : Type} n (l : list A) x :
  In x (BatchProcessor.remove_nth n l) -> In x l.
Proof.
  revert n. induction l as [|y l IH]; intros [|n]; simpl; auto.
  intros [<-|H]; [now left|right; eauto].
Qed.

Lemma In_replace_nth {A : Type} n (y : A) (l : list A) x :
  In x (BatchProcessor.replace_nth n y l) -> x = y \/ In x (BatchProcessor.remove_nth n l).
Proof.
  revert n. induction l as [|z l IH]; intros [|n]; simpl; auto.
  - intros [<-|H]; auto.
  - intros [<-|H]; [right; now left|]. destruct (IH _ H); auto.
Qed.

Lemma map_remove_nth {A B : Type} (f : A -> B) n (l : list A) :
  List.map f (BatchProcessor.remove_nth n l) = BatchProcessor.remove_nth n (List.map f l).
Proof.
  revert n. induction l as [|y l IH]; intros [|n]; simpl; auto. now rewrite IH.
Qed.

Lemma map_replace_nth_same {A B : Type} (f : A -> B) n (y x : A) (l : list A) :
  nth_error l n = Some x -> f y = f x ->
  List.map f (BatchProcessor.replace_nth n y l) = List.map f l.
Proof.
  revert n. induction l as [|z l IH]; intros [|n]; simpl; try discriminate.
  - intros [= ->] ->. reflexivity.
  - intros Hn Hf. now rewrite (IH _ Hn Hf).
Qed.

Lemma NoDup_remove_nth {A : Type} n (l : list A) :
  List.NoDup l -> List.NoDup (BatchProcessor.remove_nth n l).
Proof.
  revert n. induction l as [|y l IH]; intros [|n] H; simpl; auto.
  - now inversion H.
  - inversion H as [|? ? Hnotin Hnodup]; subst. constructor; [|now apply IH].
    intros Hin. apply Hnotin. eapply In_remove_nth. exact Hin.
Qed.

Lemma NoDup_nth_not_in_rest {A : Type} n (l : list A) x :
  List.NoDup l -> nth_error l n = Some x -> ~ In x (BatchProcessor.remove_nth n l).
Proof.
  revert n. induction l as [|y l IH]; intros [|n] H; simpl; try discriminate.
  - intros [= ->]. now inversion H.
  - intros Hn. inversion H as [|? ? Hnotin Hnodup]; subst.
    intros [->|Hin].
    + apply Hnotin. eapply nth_error_In. exact Hn.
    + now apply (IH n Hnodup Hn).
Qed.

(** The other tasks of the queue work on other batch objects. *)
Lemma other_tasks_elsewhere (tasks : list BatchProcessor.Task) n t t' :
  List.NoDup (List.map BatchProcessor.t_entry tasks) ->
  nth_error tasks n = Some t ->
  In t' (BatchProcessor.remove_nth n tasks) ->
  BatchProcessor.t_entry t' <> BatchProcessor.t_entry t.
Proof.
  intros Hnd Hn Hin Heq.
  apply (NoDup_nth_not_in_rest n (List.map BatchProcessor.t_entry tasks)
           (BatchProcessor.t_entry t) Hnd).
  - now rewrite nth_error_map, Hn.
  - rewrite <- map_remove_nth, <- Heq. now apply in_map.
Qed.

Lemma task_ok_stable w w' t :
  (next_addr w <= next_addr w')%nat ->
  b_progress (heap w' (BatchProcessor.t_entry t)) = b_progress (heap w (BatchProcessor.t_entry t)) ->
  b_status (heap w' (BatchProcessor.t_entry t)) <> Scheduled ->
  task_ok w t -> task_ok w' t.
Proof.
  unfold task_ok. intros Hnext Hprog Hstatus (H1 & H2 & H3 & H4 & H5 & H6 & H7 & H8).
  rewrite Hprog. repeat split; auto. lia.
Qed.

Lemma settled_ok_stable w w' s :
  (next_addr w <= next_addr w')%nat ->
  (forall a inputRows r, s = BatchProcessor.Resolved a inputRows r ->
     b_progress (heap w' a) = b_progress (heap w a) /\
     b_id (heap w' a) = b_id (heap w a) /\
     b_status (heap w' a) <> Scheduled) ->
  settled_ok w s -> settled_ok w' s.
Proof.
  destruct s as [a inputRows r|]; cbn; auto.
  intros Hnext Hsame (H1 & H2 & H3).
  destruct (Hsame a inputRows r eq_refl) as (Hp & Hid & Hst).
  unfold accounted in *. rewrite Hp, Hid. repeat split; auto; try lia; apply H3.
Qed.

(** A change of the world that leaves the queue and the settled calls alone. *)
Lemma Inv_world_frame e w' :
  Inv e ->
  (next_addr (BatchProcessor.e_world e) <= next_addr w')%nat ->
  (forall a, In a (List.map snd (batches w')) -> (a < next_addr w')%nat) ->
  (forall a, (a < next_addr w')%nat -> b_status (heap w' a) = Scheduled ->
             b_progress (heap w' a) = mkProgress 0 0 0 0) ->
  (forall a, (a < next_addr (BatchProcessor.e_world e))%nat ->
             b_progress (heap w' a) = b_progress (heap (BatchProcessor.e_world e) a) /\
             b_id (heap w' a) = b_id (heap (BatchProcessor.e_world e) a) /\
             (b_status (heap (BatchProcessor.e_world e) a) <> Scheduled ->
              b_status (heap w' a) <> Scheduled)) ->
  (forall ev, In ev (emitted w') ->
              In ev (emitted (BatchProcessor.e_world e)) \/ snapshot_consistent ev) ->
  Inv (BatchProcessor.mkEngine w' (BatchProcessor.e_inflight e) (BatchProcessor.e_settled e)).
Proof.
  intros HI Hnext Hmap Hsched Hsame Hev. destruct HI as [I1 I2 I3 I4 I5 I6 I7].
  constructor; cbn [BatchProcessor.e_world BatchProcessor.e_inflight BatchProcessor.e_settled];
    auto.
  - intros t Ht. pose proof (I3 t Ht) as Hok.
    destruct (Hsame (BatchProcessor.t_entry t)) as (Hp & _ & Hst); [apply Hok|].
    apply (task_ok_stable _ _ _ Hnext Hp); [apply Hst; apply Hok|exact Hok].
  - intros s Hs. pose proof (I5 s Hs) as Hok.
    apply (settled_ok_stable _ _ _ Hnext); [|exact Hok].
    intros a inputRows r ->. cbn in Hok. destruct Hok as (Ha & Hst & _).
    destruct (Hsame a Ha) as (Hp & Hid & Hst'). auto.
  - intros ev Hin. destruct (Hev ev Hin); auto.
Qed.

Lemma Inv_fresh : Inv BatchProcessor.fresh_engine.
Proof.
  constructor; cbn.
  - intros a [].
  - intros a Ha. lia.
  - intros t [].
  - constructor.
  - intros s [].
  - intros a inputRows r [].
  - intros ev [].
Qed.

Lemma step_scheduleBatchRun_Inv e profile batchConfig :
  Inv e -> Inv (BatchProcessor.step env (BatchProcessor.Act_scheduleBatchRun profile batchConfig) e).
Proof.
  intros HI. cbn [BatchProcessor.step].
  pose proof (scheduleBatchRun_spec env profile batchConfig (BatchProcessor.e_world e)) as H.
  revert H.
  destruct (BatchProcessor.scheduleBatchRun env profile batchConfig (BatchProcessor.e_world e))
    as [batchId w'].
  cbn [fst snd]. intros (Hid & Hnext & Hheap & Hbid & Hbp & Hst & Hprog & Hmap & Hem).
  apply Inv_world_frame; auto.
  - lia.
  - intros a Ha. rewrite Hmap in Ha. apply Map_set_values in Ha.
    destruct Ha as [->|Ha]; [lia|]. apply (inv_map _ HI) in Ha. lia.
  - intros a Ha Hs.
    destruct (Nat.eq_dec a (next_addr (BatchProcessor.e_world e))) as [->|Hne]; [exact Hprog|].
    rewrite Hheap in * by auto. apply (inv_scheduled _ HI); auto. lia.
  - intros a Ha. rewrite Hheap by lia. auto.
  - intros ev Hin. rewrite Hem in Hin. now left.
Qed.

Lemma step_handleBatchCompletion_Inv e batchId summary :
  Inv e -> Inv (BatchProcessor.step env (BatchProcessor.Act_handleBatchCompletion batchId summary) e).
Proof.
  intros HI. cbn [BatchProcessor.step].
  destruct (Map_get batchId (batches (BatchProcessor.e_world e))) as [a|] eqn:Hget.
  - pose proof (handleBatchCompletion_some env batchId summary _ a Hget) as H. revert H.
    destruct (BatchProcessor.handleBatchCompletion env batchId summary (BatchProcessor.e_world e))
      as [u w'].
    cbn [fst snd]. intros (Hnext & Hmap & Hheap & Hbid & Hbp & Hst & Hprog & Hsum & Hem).
    apply Inv_world_frame; auto.
    + lia.
    + intros a' Ha'. rewrite Hmap in Ha'. rewrite Hnext. now apply (inv_map _ HI).
    + intros a' Ha' Hs. destruct (Nat.eq_dec a' a) as [->|Hne]; [congruence|].
      rewrite Hheap in * by auto. apply (inv_scheduled _ HI); auto. lia.
    + intros a' Ha'. destruct (Nat.eq_dec a' a) as [->|Hne].
      * repeat split; auto. intros _. congruence.
      * rewrite Hheap by auto. auto.
    + intros ev Hin. rewrite Hem in Hin. apply in_app_or in Hin.
      destruct Hin as [Hin|[<-|[]]]; [now left|right; exact I].
  - rewrite (handleBatchCompletion_none env batchId summary _ Hget).
    now destruct e.
Qed.

Lemma step_trackBatchProgress_Inv e batchId :
  Inv e -> Inv (BatchProcessor.step env (BatchProcessor.Act_trackBatchProgress batchId) e).
Proof.
  intros HI. cbn [BatchProcessor.step].
  pose proof (trackBatchProgress_world batchId (BatchProcessor.e_world e)) as H. revert H.
  destruct (BatchProcessor.trackBatchProgress batchId (BatchProcessor.e_world e)) as [p w'].
  cbn [snd]. intros ->. now destruct e.
Qed.

Lemma step_retryFailedSubmissions_Inv e failures retryPolicy :
  Inv e ->
  Inv (BatchProcessor.step env (BatchProcessor.Act_retryFailedSubmissions failures retryPolicy) e).
Proof.
  intros HI. cbn [BatchProcessor.step].
  pose proof (retryFailedSubmissions_core env failures retryPolicy (BatchProcessor.e_world e)) as H.
  revert H.
  destruct (BatchProcessor.retryFailedSubmissions env failures retryPolicy (BatchProcessor.e_world e))
    as [r w'].
  cbn [snd]. intros (Hheap & Hnext & Hmap & Hem).
  apply Inv_world_frame; auto.
  - lia.
  - intros a Ha. rewrite Hmap in Ha. rewrite Hnext. now apply (inv_map _ HI).
  - intros a Ha Hs. rewrite Hheap in *. apply (inv_scheduled _ HI); auto. lia.
  - intros a Ha. rewrite Hheap. auto.
  - intros ev Hin. rewrite Hem in Hin. now left.
Qed.

Lemma NoDup_snoc {A : Type} (l : list A) x : List.NoDup l -> ~ In x l -> List.NoDup (l ++ [x]).
Proof.
  induction l as [|y l IH]; simpl; intros Hnd Hx.
  - constructor; [intros []|constructor].
  - inversion Hnd as [|? ? Hy Hl]; subst. constructor.
    + intros Hin. apply in_app_or in Hin. destruct Hin as [Hin|[->|[]]]; auto.
    + apply IH; auto.
Qed.

(** A change of the world confined to the batch object [a], with a new
    queue and new settled calls. *)
Lemma Inv_touch e a w' tasks' settled' :
  Inv e ->
  next_addr w' = next_addr (BatchProcessor.e_world e) ->
  batches w' = batches (BatchProcessor.e_world e) ->
  (forall a', a' <> a -> heap w' a' = heap (BatchProcessor.e_world e) a') ->
  b_status (heap w' a) <> Scheduled ->
  (forall t, In t tasks' ->
     (BatchProcessor.t_entry t = a /\ task_ok w' t) \/
     (BatchProcessor.t_entry t <> a /\ In t (BatchProcessor.e_inflight e))) ->
  List.NoDup (List.map BatchProcessor.t_entry tasks') ->
  (forall s, In s settled' ->
     (In s (BatchProcessor.e_settled e) /\
      forall a' inputRows r, s = BatchProcessor.Resolved a' inputRows r -> a' <> a) \/
     settled_ok w' s) ->
  (forall a' inputRows r, In (BatchProcessor.Resolved a' inputRows r) settled' ->
     ~ In a' (List.map BatchProcessor.t_entry tasks')) ->
  (forall ev, In ev (emitted w') ->
     In ev (emitted (BatchProcessor.e_world e)) \/ snapshot_consistent ev) ->
  Inv (BatchProcessor.mkEngine w' tasks' settled').
Proof.
  intros HI Hnext Hmap Hheap Hst Htasks Hnd Hsettled Hidle Hev.
  destruct HI as [I1 I2 I3 I4 I5 I6 I7].
  constructor; cbn [BatchProcessor.e_world BatchProcessor.e_inflight BatchProcessor.e_settled];
    auto.
  - intros a' Ha'. rewrite Hmap in Ha'. rewrite Hnext. auto.
  - intros a' Ha' Hs. destruct (Nat.eq_dec a' a) as [->|Hne]; [contradiction|].
    rewrite Hheap in * by auto. apply I2; auto. lia.
  - intros t Ht. destruct (Htasks t Ht) as [[_ Hok]|[Hne Hin]]; [exact Hok|].
    apply (task_ok_stable (BatchProcessor.e_world e)); [lia| | |now apply I3].
    + now rewrite Hheap.
    + rewrite Hheap by auto. apply (I3 t Hin).
  - intros s Hs. destruct (Hsettled s Hs) as [[Hin Hne]|Hok]; [|exact Hok].
    apply (settled_ok_stable (BatchProcessor.e_world e)); [lia| |now apply I5].
    intros a' inputRows r ->. specialize (Hne a' inputRows r eq_refl).
    rewrite Hheap by auto. repeat split. apply (I5 _ Hin).
  - intros ev Hin. destruct (Hev ev Hin); auto.
Qed.

(** What [find] tells about the batch that [executeBatch] picks. *)
Lemma picked_batch_facts e profile a :
  Inv e ->
  List.find (fun a => (b_profile (heap (BatchProcessor.e_world e) a) =? profile)%string
                      && Status_eqb (b_status (heap (BatchProcessor.e_world e) a)) Scheduled)
            (List.map snd (batches (BatchProcessor.e_world e))) = Some a ->
  (a < next_addr (BatchProcessor.e_world e))%nat /\
  b_status (heap (BatchProcessor.e_world e) a) = Scheduled /\
  b_progress (heap (BatchProcessor.e_world e) a) = mkProgress 0 0 0 0 /\
  ~ In a (List.map BatchProcessor.t_entry (BatchProcessor.e_inflight e)) /\
  (forall inputRows r, ~ In (BatchProcessor.Resolved a inputRows r) (BatchProcessor.e_settled e)).
Proof.
  intros HI Hfind. apply List.find_some in Hfind. destruct Hfind as [Hin Hpred].
  apply andb_prop in Hpred. destruct Hpred as [_ Hst].
  assert (b_status (heap (BatchProcessor.e_world e) a) = Scheduled) as Hs.
  { destruct (b_status (heap (BatchProcessor.e_world e) a)); try discriminate; reflexivity. }
  pose proof (inv_map _ HI a Hin) as Ha.
  repeat split; auto.
  - now apply (inv_scheduled _ HI).
  - intros Hin'. apply in_map_iff in Hin'. destruct Hin' as [t [<- Ht]].
    apply (inv_tasks _ HI) in Ht. now apply Ht.
  - intros inputRows r Hin'. apply (inv_settled _ HI) in Hin'. cbn in Hin'. now apply Hin'.
Qed.

Lemma step_executeBatch_Inv e profile inputRows :
  Inv e -> Inv (BatchProcessor.step env (BatchProcessor.Act_executeBatch profile inputRows) e).
Proof.
  intros HI. cbn [BatchProcessor.step].
  destruct (List.find (fun a => (b_profile (heap (BatchProcessor.e_world e) a) =? profile)%string
                      && Status_eqb (b_status (heap (BatchProcessor.e_world e) a)) Scheduled)
            (List.map snd (batches (BatchProcessor.e_world e)))) as [a|] eqn:Hfind.
  - destruct (picked_batch_facts e profile a HI Hfind) as (Ha & Hsched & Hzero & Hfree & Hunsettled).
    pose proof (executeBatch_start_some env profile inputRows _ a Hfind) as H. revert H.
    destruct (BatchProcessor.executeBatch_start env profile inputRows (BatchProcessor.e_world e))
      as [started w1].
    cbn [fst snd]. intros (-> & Hnext & Hmap & Hheap & Hbid & Hbp & Hst & Hprog & Hem).
    rewrite Hzero in Hprog. cbn in Hprog.
    destruct inputRows as [|row rest]; cbn [BatchProcessor.executeBatch_continue].
    + binds.
      pose proof (executeBatch_finish_spec env a [] [] [] w1) as H.
      cbv zeta in H.
      destruct H as (Hnext2 & Hmap2 & Hheap2 & Hbid2 & Hbp2 & Hst2 & Hprog2 & Hfail2 & _ & Hem2 & Hr).
      rewrite Hr.
      set (w2 := snd (BatchProcessor.executeBatch_finish env a [] [] [] w1)) in *.
      apply (Inv_touch e a _ _ _ HI).
      * congruence.
      * congruence.
      * intros a' Hne. rewrite Hheap2, Hheap by auto. reflexivity.
      * rewrite Hst2. discriminate.
      * intros t Ht. right. split; [|exact Ht].
        intros Heq. apply Hfree. rewrite <- Heq. now apply in_map.
      * apply (inv_distinct _ HI).
      * intros s Hs. apply in_app_or in Hs. destruct Hs as [Hs|[<-|[]]].
        -- left. split; [exact Hs|]. intros a' rows r -> ->. now apply (Hunsettled rows r).
        -- right. cbn [settled_ok]. unfold accounted.
           rewrite Hprog2, Hprog, Hst2, Hnext2, Hnext.
           cbn. repeat split; try lia; try discriminate. congruence.
      * intros a' rows r Hs. apply in_app_or in Hs. destruct Hs as [Hs|[[= <- <-]|[]]].
        -- now apply (inv_settled_idle _ HI a' rows r).
        -- exact Hfree.
      * intros ev Hin. rewrite Hem2, Hem in Hin.
        apply in_app_or in Hin. destruct Hin as [Hin|[<-|[]]]; [|right; exact I].
        apply in_app_or in Hin. destruct Hin as [Hin|[<-|[]]]; [now left|right; exact I].
    + binds.
      pose proof (processForm_core env (b_profile (heap w1 a)) row w1) as (Hheap2 & Hnext2 & Hmap2 & Hem2).
      set (w2 := snd (BatchProcessor.processForm env (b_profile (heap w1 a)) row w1)) in *.
      apply (Inv_touch e a _ _ _ HI).
      * congruence.
      * congruence.
      * intros a' Hne. rewrite Hheap2, Hheap by auto. reflexivity.
      * rewrite Hheap2, Hst. discriminate.
      * intros t Ht. apply in_app_or in Ht. destruct Ht as [Ht|[<-|[]]].
        -- right. split; [|exact Ht].
           intros Heq. apply Hfree. rewrite <- Heq. now apply in_map.
        -- left. split; [reflexivity|]. unfold task_ok. cbn.
           rewrite Hheap2, Hprog, Hst, Hnext2, Hnext. cbn.
           repeat split; try lia; try discriminate.
      * rewrite map_app. cbn. apply NoDup_snoc; [apply (inv_distinct _ HI)|exact Hfree].
      * intros s Hs. left. split; [exact Hs|].
        intros a' rows r -> ->. now apply (Hunsettled rows r).
      * intros a' rows r Hs Hin. rewrite map_app in Hin. apply in_app_or in Hin.
        destruct Hin as [Hin|[<-|[]]].
        -- now apply (inv_settled_idle _ HI a' rows r).
        -- now apply (Hunsettled rows r).
      * intros ev Hin. rewrite Hem2, Hem in Hin.
        apply in_app_or in Hin. destruct Hin as [Hin|[<-|[]]]; [now left|right; exact I].
  - rewrite (executeBatch_start_none env profile inputRows _ Hfind).
    destruct HI as [I1 I2 I3 I4 I5 I6 I7].
    constructor; cbn [BatchProcessor.e_world BatchProcessor.e_inflight BatchProcessor.e_settled];
      auto.
    + intros s Hs. apply in_app_or in Hs. destruct Hs as [Hs|[<-|[]]]; [auto|exact I].
    + intros a rows r Hs. apply in_app_or in Hs. destruct Hs as [Hs|[Hs|[]]]; [eauto|discriminate].
Qed.

(** The counters of a task's batch once the awaited row has settled. *)
Lemma settle_counters w t :
  task_ok w t ->
  let a := BatchProcessor.t_entry t in
  let w1 := snd (BatchProcessor.executeBatch_settle env a (BatchProcessor.t_idx t)
                   (BatchProcessor.t_row t) (BatchProcessor.t_pending t)
                   (BatchProcessor.t_results t) (BatchProcessor.t_failures t) w) in
  let acc := fst (BatchProcessor.executeBatch_settle env a (BatchProcessor.t_idx t)
                   (BatchProcessor.t_row t) (BatchProcessor.t_pending t)
                   (BatchProcessor.t_results t) (BatchProcessor.t_failures t) w) in
  let p1 := b_progress (heap w1 a) in
  p_total p1 = Z.of_nat (length (BatchProcessor.t_inputRows t)) /\
  p_processed p1 = Z.of_nat (S (BatchProcessor.t_idx t)) /\
  p_succeeded p1 = Z.of_nat (length (fst acc)) /\
  p_failed p1 = Z.of_nat (length (snd acc)) /\
  (length (fst acc) + length (snd acc) = S (BatchProcessor.t_idx t))%nat.
Proof.
  intros (Ha & Hst & Htot & Hproc & Hsucc & Hfail & Hlen & Hidx). cbv zeta.
  pose proof (executeBatch_settle_spec env (BatchProcessor.t_entry t) (BatchProcessor.t_idx t)
                (BatchProcessor.t_row t) (BatchProcessor.t_pending t)
                (BatchProcessor.t_results t) (BatchProcessor.t_failures t) w) as H.
  cbv zeta in H.
  destruct H as (_ & _ & _ & _ & _ & _ & Hprog1 & _ & Hacc).
  rewrite Hprog1, Hacc.
  destruct (BatchProcessor.t_pending t); cbn; rewrite ?length_app; cbn;
    repeat split; lia.
Qed.

Lemma step_resume_Inv e n :
  Inv e -> Inv (BatchProcessor.step env (BatchProcessor.Act_resume n) e).
Proof.
  intros HI. cbn [BatchProcessor.step].
  destruct (nth_error (BatchProcessor.e_inflight e) n) as [t|] eqn:Hn; [|exact HI].
  pose proof (inv_tasks _ HI t (nth_error_In _ _ Hn)) as Hok.
  pose proof (settle_counters _ t Hok) as Hcount. cbv zeta in Hcount.
  pose proof (executeBatch_settle_spec env (BatchProcessor.t_entry t) (BatchProcessor.t_idx t)
                (BatchProcessor.t_row t) (BatchProcessor.t_pending t)
                (BatchProcessor.t_results t) (BatchProcessor.t_failures t)
                (BatchProcessor.e_world e)) as H.
  cbv zeta in H. revert H Hcount.
  destruct (BatchProcessor.executeBatch_settle env (BatchProcessor.t_entry t)
              (BatchProcessor.t_idx t) (BatchProcessor.t_row t) (BatchProcessor.t_pending t)
              (BatchProcessor.t_results t) (BatchProcessor.t_failures t)
              (BatchProcessor.e_world e)) as [acc w1].
  cbn [fst snd].
  intros (Hnext1 & Hmap1 & Hheap1 & Hbid1 & Hbp1 & Hst1 & _ & Hem1 & _)
         (Ctot & Cproc & Csucc & Cfail & Clen).
  destruct Hok as (Ha & Hst & _ & _ & _ & _ & _ & Hidx).
  set (a := BatchProcessor.t_entry t) in *.
  assert (Hothers : forall t', In t' (BatchProcessor.remove_nth n (BatchProcessor.e_inflight e)) ->
                               BatchProcessor.t_entry t' <> a).
  { intros t' Ht'. apply (other_tasks_elsewhere _ n t t' (inv_distinct _ HI) Hn Ht'). }
  assert (Hsettled_elsewhere : forall s, In s (BatchProcessor.e_settled e) ->
            forall a' rows r, s = BatchProcessor.Resolved a' rows r -> a' <> a).
  { intros s Hs a' rows r -> ->. apply (inv_settled_idle _ HI a rows r Hs).
    apply in_map. eapply nth_error_In. exact Hn. }
  assert (Hprogress_ok : snapshot_consistent
            (progress (b_id (heap (BatchProcessor.e_world e) a)) (b_progress (heap w1 a)))).
  { cbn. lia. }
  destruct (BatchProcessor.t_rest t) as [|row' rest'] eqn:Hrest;
    cbn [BatchProcessor.executeBatch_continue].
  - binds.
    pose proof (executeBatch_finish_spec env a (BatchProcessor.t_inputRows t)
                  (fst acc) (snd acc) w1) as H.
    cbv zeta in H.
    destruct H as (Hnext2 & Hmap2 & Hheap2 & Hbid2 & Hbp2 & Hst2 & Hprog2 & Hfail2 & _ & Hem2 & Hr).
    rewrite Hr.
    set (w2 := snd (BatchProcessor.executeBatch_finish env a (BatchProcessor.t_inputRows t)
                      (fst acc) (snd acc) w1)) in *.
    apply (Inv_touch e a _ _ _ HI).
    + congruence.
    + congruence.
    + intros a' Hne. rewrite Hheap2, Hheap1 by auto. reflexivity.
    + rewrite Hst2. destruct (length (snd acc) =? 0)%nat; discriminate.
    + intros t' Ht'. right. split; [now apply Hothers|]. eapply In_remove_nth. exact Ht'.
    + rewrite map_remove_nth. apply NoDup_remove_nth. apply (inv_distinct _ HI).
    + intros s Hs. apply in_app_or in Hs. destruct Hs as [Hs|[<-|[]]].
      * left. split; [exact Hs|]. now apply Hsettled_elsewhere.
      * right. cbn [settled_ok]. unfold accounted. rewrite Hprog2, Hnext2, Hnext1, Hbid2, Hbid1.
        cbn [r_results r_failures r_batchId]. cbn [length] in Hidx.
        repeat split; try lia.
        rewrite Hst2. destruct (length (snd acc) =? 0)%nat; discriminate.
    + intros a' rows r Hs. apply in_app_or in Hs. destruct Hs as [Hs|[[= <- <-]|[]]].
      * intros Hin. apply (inv_settled_idle _ HI a' rows r Hs).
        apply in_map_iff in Hin. destruct Hin as [t' [<- Ht']].
        apply in_map. eapply In_remove_nth. exact Ht'.
      * intros Hin. apply in_map_iff in Hin. destruct Hin as [t' [Heq Ht']].
        now apply (Hothers t' Ht').
    + intros ev Hin. rewrite Hem2, Hem1 in Hin.
      apply in_app_or in Hin. destruct Hin as [Hin|[<-|[]]]; [|right; exact I].
      apply in_app_or in Hin. destruct Hin as [Hin|[<-|[]]]; [now left|right; exact Hprogress_ok].
  - binds.
    pose proof (processForm_core env (b_profile (heap w1 a)) row' w1)
      as (Hheap2 & Hnext2 & Hmap2 & Hem2).
    set (w2 := snd (BatchProcessor.processForm env (b_profile (heap w1 a)) row' w1)) in *.
    set (task := BatchProcessor.mkTask a (BatchProcessor.t_inputRows t)
                   (S (BatchProcessor.t_idx t)) row' rest'
                   (fst (BatchProcessor.processForm env (b_profile (heap w1 a)) row' w1))
                   (fst acc) (snd acc)).
    apply (Inv_touch e a _ _ _ HI).
    + congruence.
    + congruence.
    + intros a' Hne. rewrite Hheap2, Hheap1 by auto. reflexivity.
    + rewrite Hheap2, Hst1. exact Hst.
    + intros t' Ht'. apply In_replace_nth in Ht'. destruct Ht' as [->|Ht'].
      * left. split; [reflexivity|]. unfold task_ok. cbn [task BatchProcessor.t_entry
          BatchProcessor.t_inputRows BatchProcessor.t_idx BatchProcessor.t_rest
          BatchProcessor.t_results BatchProcessor.t_failures].
        rewrite Hheap2, Hnext2, Hnext1, Hst1. cbn [length] in Hidx.
        repeat split; auto; lia.
      * right. split; [now apply Hothers|]. eapply In_remove_nth. exact Ht'.
    + rewrite (map_replace_nth_same BatchProcessor.t_entry n task t _ Hn eq_refl).
      apply (inv_distinct _ HI).
    + intros s Hs. left. split; [exact Hs|]. now apply Hsettled_elsewhere.
    + intros a' rows r Hs.
      rewrite (map_replace_nth_same BatchProcessor.t_entry n task t _ Hn eq_refl).
      now apply (inv_settled_idle _ HI a' rows r).
    + intros ev Hin. rewrite Hem2, Hem1 in Hin.
      apply in_app_or in Hin. destruct Hin as [Hin|[<-|[]]]; [now left|right; exact Hprogress_ok].
Qed.

Theorem step_Inv act e : Inv e -> Inv (BatchProcessor.step env act e).
Proof.
  destruct act.
  - apply step_scheduleBatchRun_Inv.
  - apply step_executeBatch_Inv.
  - apply step_resume_Inv.
  - apply step_trackBatchProgress_Inv.
  - apply step_handleBatchCompletion_Inv.
  - apply step_retryFailedSubmissions_Inv.
Qed.

Lemma run_Inv acts e : Inv e -> Inv (BatchProcessor.run env acts e).
Proof.
  revert e. induction acts as [|act acts IH]; intros e HI; cbn; [exact HI|].
  apply IH. now apply step_Inv.
Qed.

End Interleaving.

(** *** Starting from a registry loaded from disk *)

Lemma registry_ok_Inv w : registry_ok w -> Inv (BatchProcessor.mkEngine w [] []).
Proof.
  intros (Hmap & Hsched & Hem). constructor; cbn; auto.
  - intros t [].
  - constructor.
  - intros s [].
  - intros ev Hin. rewrite Hem in Hin. destruct Hin.
Qed.

Lemma load_entries_ok entries :
  registry_file_ok entries ->
  forall w, registry_ok w ->
    registry_ok (snd (for_each entries
                        (fun kv => a <- new_object (snd kv) ;; batches_set (fst kv) a) w)).
Proof.
  induction 1 as [|kv entries Hkv Hrest IH]; intros w Hw; cbn [for_each].
  - exact Hw.
  - rewrite !bind_eq. apply IH. clear IH.
    destruct Hw as (Hmap & Hsched & Hem). destruct w as [h na b sf lf c em nu nc nf nr].
    cbn in *. unfold registry_ok. cbn. repeat split; auto.
    + intros a Ha. apply Map_set_values in Ha. destruct Ha as [->|Ha]; [lia|].
      apply Hmap in Ha. lia.
    + intros a Ha. destruct (Nat.eq_dec a na) as [->|Hne].
      * rewrite heap_update_eq. exact Hkv.
      * rewrite heap_update_neq by exact Hne. apply Hsched. lia.
Qed.

Lemma registry_ok_empty w :
  batches w = [] -> next_addr w = 0%nat -> emitted w = [] -> registry_ok w.
Proof.
  intros Hb Hn He. unfold registry_ok. rewrite Hb, Hn, He. split; [|split].
  - intros a [].
  - intros a Ha. lia.
  - reflexivity.
Qed.

Lemma loadBatchState_ok env files :
  Forall (fun pc => registry_file_ok (snd pc)) files ->
  registry_ok (snd (BatchProcessor.loadBatchState env (boot_world files))).
Proof.
  intros Hfiles.
  assert (registry_ok (boot_world files)) as Hboot by now apply registry_ok_empty.
  unfold BatchProcessor.loadBatchState. rewrite bind_eq.
  unfold fs_read_batches at 1 2.
  destruct (List.find (fun pc => (fst pc =? BatchProcessor.BATCH_STATE_FILE env)%string)
                      (state_files (boot_world files))) as [pc|] eqn:Hfind.
  - cbn [fst snd]. apply List.find_some in Hfind. destruct Hfind as [Hin _].
    cbn in Hin. rewrite List.Forall_forall in Hfiles. specialize (Hfiles pc Hin).
    destruct (fs_ok_at env (n_fs (boot_world files))).
    + apply load_entries_ok; [exact Hfiles|]. now apply registry_ok_empty.
    + now apply registry_ok_empty.
  - exact Hboot.
Qed.

(** X11: the accounting of C1 holds as well in a process that starts by loading
    the registry from the state file a previous process left. *)
Theorem executeBatch_accounting_after_restart
  (env : Env) (files : list (string * list (BatchId * Batch)))
  (acts : list BatchProcessor.Action) :
  Forall (fun pc => registry_file_ok (snd pc)) files ->
  let e := BatchProcessor.run env acts
             (BatchProcessor.mkEngine
                (snd (BatchProcessor.loadBatchState env (boot_world files))) [] []) in
  (forall batchEntry inputRows r,
     In (BatchProcessor.Resolved batchEntry inputRows r) (BatchProcessor.e_settled e) ->
     accounted (BatchProcessor.e_world e) batchEntry inputRows r)
  /\
  (forall ev, In ev (emitted (BatchProcessor.e_world e)) -> snapshot_consistent ev).
Proof.
  intros Hfiles e.
  pose proof (run_Inv env acts _ (registry_ok_Inv _ (loadBatchState_ok env files Hfiles))) as HI.
  fold e in HI. split.
  - intros a inputRows r Hin. apply (inv_settled _ HI) in Hin. apply Hin.
  - apply (inv_events _ HI).
Qed.

(** C1: from a fresh engine and along every interleaving of calls and
    resumptions, (1) when a call of [executeBatch] on [inputRows] has resolved,
    the batch it ran has [processed = total = inputRows.length] and
    [succeeded + failed = processed], and it keeps them; (2) every progress
    snapshot emitted so far has [processed = succeeded + failed] and
    [processed <= total]. *)
Theorem executeBatch_accounting (env : Env) (acts : list BatchProcessor.Action) :
  let e := BatchProcessor.run env acts BatchProcessor.fresh_engine in
  (forall batchEntry inputRows r,
     In (BatchProcessor.Resolved batchEntry inputRows r) (BatchProcessor.e_settled e) ->
     let p := b_progress (heap (BatchProcessor.e_world e) batchEntry) in
     p_processed p = p_total p /\
     p_total p = Z.of_nat (length inputRows) /\
     (p_succeeded p + p_failed p = p_processed p)%Z /\
     r_batchId r = b_id (heap (BatchProcessor.e_world e) batchEntry))
  /\
  (forall batchId p,
     In (progress batchId p) (emitted (BatchProcessor.e_world e)) ->
     p_processed p = (p_succeeded p + p_failed p)%Z /\ (p_processed p <= p_total p)%Z).
Proof.
  intros e. pose proof (run_Inv env acts _ Inv_fresh) as HI. fold e in HI. split.
  - intros a inputRows r Hin. apply (inv_settled _ HI) in Hin. cbn in Hin.
    destruct Hin as (_ & _ & H1 & H2 & H3 & _ & _ & H6). cbv zeta. auto.
  - intros batchId p Hin. apply (inv_events _ HI) in Hin. exact Hin.
Qed.

Lemma executeBatch_accounting_witness :
  let e := BatchProcessor.run env_all_succeed interleaved_run BatchProcessor.fresh_engine in
  let p := b_progress (heap (BatchProcessor.e_world e) 1) in
  p_processed p = p_total p /\
  p_total p = Z.of_nat (length ["rowC"; "rowD"]) /\
  (p_succeeded p + p_failed p = p_processed p)%Z /\
  "batch-1" = b_id (heap (BatchProcessor.e_world e) 1).
Proof.
  intros e.
  apply (proj1 (executeBatch_accounting env_all_succeed interleaved_run)
           1%nat ["rowC"; "rowD"]
           (mkExecResult "batch-1"
              [mkResult "p2" "rowC" "success"; mkResult "p2" "rowD" "success"] [])).
  vm_compute. right. left. reflexivity.
Defined.

(** ** Status transitions *)
Section StatusTransitions.

Variable env : Env.






End StatusTransitions.


(** The same hook called while [executeBatch] is suspended sets
    ['completed']; the end of [executeBatch] then overwrites it. *)
Example executeBatch_overwrites_finalized :
  let e := BatchProcessor.run env_all_fail
             [ BatchProcessor.Act_scheduleBatchRun "p1" "{}";
               BatchProcessor.Act_executeBatch "p1" ["rowA"];
               BatchProcessor.Act_handleBatchCompletion "batch-0" None ]
             BatchProcessor.fresh_engine in
  b_status (heap (BatchProcessor.e_world e) 0) = Completed /\
  b_status (heap (BatchProcessor.e_world
                    (BatchProcessor.step env_all_fail (BatchProcessor.Act_resume 0) e)) 0)
    = Failed.
Proof. vm_compute. repeat split. Qed.



(** ** Sequential calls of [executeBatch] and [scheduleBatchRun] *)
Section Sequential.

Variable env : Env.

Lemma find_first {A : Type} (f : A -> bool) pre a post :
  (forall x, In x pre -> f x = false) -> f a = true ->
  List.find f (pre ++ a :: post) = Some a.
Proof.
  intros Hpre Ha. induction pre as [|x pre IH]; cbn.
  - now rewrite Ha.
  - rewrite (Hpre x) by now left. apply IH. intros y Hy. apply Hpre. now right.
Qed.

Lemma find_none_all {A : Type} (f : A -> bool) l :
  (forall x, In x l -> f x = false) -> List.find f l = None.
Proof.
  induction l as [|x l IH]; cbn; intros H; [reflexivity|].
  rewrite (H x) by now left. apply IH. intros y Hy. apply H. now right.
Qed.

Lemma executeBatch_loop_spec a rows :
  forall idx results failures w,
    let w' := snd (BatchProcessor.executeBatch_loop env a idx rows results failures w) in
    next_addr w' = next_addr w /\ batches w' = batches w /\
    (forall a', a' <> a -> heap w' a' = heap w a') /\
    b_id (heap w' a) = b_id (heap w a) /\
    b_profile (heap w' a) = b_profile (heap w a) /\
    b_status (heap w' a) = b_status (heap w a).
Proof.
  induction rows as [|row rest IH]; intros idx results failures w;
    cbn [BatchProcessor.executeBatch_loop].
  - cbn. repeat split.
  - binds.
    pose proof (processForm_core env (b_profile (heap w a)) row w) as (Hheap1 & Hnext1 & Hmap1 & _).
    set (w1 := snd (BatchProcessor.processForm env (b_profile (heap w a)) row w)) in *.
    set (outcome := fst (BatchProcessor.processForm env (b_profile (heap w a)) row w)).
    pose proof (executeBatch_settle_spec env a idx row outcome results failures w1) as H.
    cbv zeta in H. destruct H as (Hnext2 & Hmap2 & Hheap2 & Hid2 & Hp2 & Hst2 & _).
    set (w2 := snd (BatchProcessor.executeBatch_settle env a idx row outcome results failures w1)) in *.
    set (acc := fst (BatchProcessor.executeBatch_settle env a idx row outcome results failures w1)).
    specialize (IH (S idx) (fst acc) (snd acc) w2). cbv zeta in IH.
    destruct IH as (Hnext3 & Hmap3 & Hheap3 & Hid3 & Hp3 & Hst3).
    cbv zeta. rewrite Hnext3, Hmap3, Hid3, Hp3, Hst3, Hnext2, Hmap2, Hid2, Hp2, Hst2,
      Hnext1, Hmap1, Hheap1.
    repeat split. intros a' Hne. now rewrite Hheap3, Hheap2, Hheap1.
Qed.

Lemma executeBatch_some profile inputRows w a :
  List.find (fun a => scheduled_for profile (heap w a)) (List.map snd (batches w)) = Some a ->
  let out := BatchProcessor.executeBatch env profile inputRows w in
  (exists r, fst out = Returned r /\ r_batchId r = b_id (heap w a)) /\
  is_terminal (b_status (heap (snd out) a)) = true /\
  (forall a', a' <> a -> heap (snd out) a' = heap w a') /\
  batches (snd out) = batches w.
Proof.
  intros Hfind. cbv zeta. unfold BatchProcessor.executeBatch.
  pose proof (executeBatch_start_some env profile inputRows w a Hfind) as H. cbv zeta in H.
  revert H. rewrite bind_eq.
  destruct (BatchProcessor.executeBatch_start env profile inputRows w) as [started w1].
  cbn [fst snd]. intros (-> & Hnext1 & Hmap1 & Hheap1 & Hid1 & Hp1 & Hst1 & _).
  pose proof (executeBatch_loop_spec a inputRows 0 [] [] w1) as H. cbv zeta in H.
  revert H. rewrite bind_eq.
  destruct (BatchProcessor.executeBatch_loop env a 0 inputRows [] [] w1) as [acc w2].
  cbn [fst snd]. intros (Hnext2 & Hmap2 & Hheap2 & Hid2 & Hp2 & Hst2).
  pose proof (executeBatch_finish_spec env a inputRows (fst acc) (snd acc) w2) as H.
  cbv zeta in H. revert H. rewrite bind_eq.
  destruct (BatchProcessor.executeBatch_finish env a inputRows (fst acc) (snd acc) w2) as [r w3].
  cbn [fst snd ret].
  intros (Hnext3 & Hmap3 & Hheap3 & Hid3 & Hp3 & Hst3 & _ & _ & _ & _ & Hr).
  repeat split.
  - eexists. split; [reflexivity|]. rewrite Hr. cbn [r_batchId]. congruence.
  - rewrite Hst3. now destruct (length (snd acc) =? 0)%nat.
  - intros a' Hne. now rewrite Hheap3, Hheap2, Hheap1.
  - congruence.
Qed.

Lemma executeBatch_none profile inputRows w :
  List.find (fun a => scheduled_for profile (heap w a)) (List.map snd (batches w)) = None ->
  BatchProcessor.executeBatch env profile inputRows w
  = (Thrown (Error "No scheduled batch for this profile."), w).
Proof.
  intros Hfind. unfold BatchProcessor.executeBatch.
  rewrite bind_eq, (executeBatch_start_none env profile inputRows w Hfind). reflexivity.
Qed.

(** C4 (amended): [executeBatch] runs the scheduled batch of the profile
    that comes first in the registry, which keeps insertion order: of several
    scheduled batches of one profile, the one scheduled first.  The batches
    after it are left as they are.  When the registry holds no scheduled
    batch of the profile, the call ends with the error "No scheduled batch
    for this profile." and the world is unchanged: no row is processed. *)
Theorem executeBatch_picks_first_scheduled
  (profile : Profile) (inputRows : list Row) (w : World) :
  let out := BatchProcessor.executeBatch env profile inputRows w in
  (forall pre a post,
     List.map snd (batches w) = pre ++ a :: post ->
     (forall a', In a' pre -> scheduled_for profile (heap w a') = false) ->
     scheduled_for profile (heap w a) = true ->
     (exists r, fst out = Returned r /\ r_batchId r = b_id (heap w a)) /\
     is_terminal (b_status (heap (snd out) a)) = true /\
     (forall a', a' <> a -> heap (snd out) a' = heap w a'))
  /\
  ((forall a, In a (List.map snd (batches w)) -> scheduled_for profile (heap w a) = false) ->
   out = (Thrown (Error "No scheduled batch for this profile."), w)).
Proof.
  cbv zeta. split.
  - intros pre a post Hsplit Hpre Ha.
    assert (List.find (fun a => scheduled_for profile (heap w a)) (List.map snd (batches w))
            = Some a) as Hfind.
    { rewrite Hsplit. now apply (find_first (fun a => scheduled_for profile (heap w a))). }
    destruct (executeBatch_some profile inputRows w a Hfind) as (H1 & H2 & H3 & _). auto.
  - intros Hnone. apply executeBatch_none.
    now apply (find_none_all (fun a => scheduled_for profile (heap w a))).
Qed.

(** [scheduleBatchRun] returns the new id with the batch registered in
    memory whatever the file system answers. *)
Lemma scheduleBatchRun_registers profile batchConfig w :
  let out := BatchProcessor.scheduleBatchRun env profile batchConfig w in
  fst out = uuid_at env (n_uuid w) /\
  Map_get (fst out) (batches (snd out)) = Some (next_addr w) /\
  b_status (heap (snd out) (next_addr w)) = Scheduled /\
  b_progress (heap (snd out) (next_addr w)) = mkProgress 0 0 0 0 /\
  b_profile (heap (snd out) (next_addr w)) = profile.
Proof.
  pose proof (scheduleBatchRun_spec env profile batchConfig w) as H. cbv zeta in *.
  destruct H as (Hid & _ & _ & _ & Hp & Hst & Hprog & Hmap & _).
  repeat split; auto. rewrite Hmap. apply Map_get_set_eq.
Qed.

(** C9 (amended): [scheduleBatchRun] never raises.  It returns the new id
    and registers the batch in memory, scheduled and with zeroed progress.
    When the write of the state file succeeds the file holds the registry
    with the new batch; when it fails the file is left as it was, a line is
    written to the console, and the id is returned all the same. *)
Theorem scheduleBatchRun_persistence
  (profile : Profile) (batchConfig : BatchConfig) (w : World) :
  let out := BatchProcessor.scheduleBatchRun env profile batchConfig w in
  fst out = uuid_at env (n_uuid w) /\
  Map_get (fst out) (batches (snd out)) = Some (next_addr w) /\
  b_status (heap (snd out) (next_addr w)) = Scheduled /\
  b_progress (heap (snd out) (next_addr w)) = mkProgress 0 0 0 0 /\
  (if fs_ok_at env (n_fs w)
   then state_files (snd out)
        = (BatchProcessor.BATCH_STATE_FILE env, entries_snapshot (snd out)) :: state_files w
        /\ console (snd out) = console w
   else state_files (snd out) = state_files w
        /\ console (snd out) = console w ++ ["Failed to persist batch state: EACCES"]).
Proof.
  destruct (scheduleBatchRun_registers profile batchConfig w) as (H1 & H2 & H3 & H4 & _).
  cbv zeta. repeat (split; [assumption|]). clear H1 H2 H3 H4.
  destruct w as [h na b sf lf c em nu nc nf nr]. run_ops. cbn [n_fs state_files console].
  destruct (fs_ok_at env nf); run_ops; split_fs; run_ops; split; reflexivity.
Qed.

End Sequential.

(** C4, as the claim states it, fails: with [batch-0] and then [batch-1]
    scheduled for the same profile, [executeBatch] runs [batch-0], the one
    created first, and [batch-1], created last, stays scheduled. *)
Lemma most_recent_batch_counterexample :
  let out := BatchProcessor.executeBatch env_all_succeed "p1" ["rowA"] two_scheduled_world in
  List.map fst (batches two_scheduled_world) = ["batch-0"; "batch-1"] /\
  (b_createdAt (heap two_scheduled_world 0) < b_createdAt (heap two_scheduled_world 1))%Z /\
  fst out = Returned (mkExecResult "batch-0" [mkResult "p1" "rowA" "success"] []) /\
  b_id (heap (snd out) 1) = "batch-1" /\
  b_status (heap (snd out) 1) = Scheduled /\
  b_status (heap (snd out) 0) = Completed.
Proof. vm_compute. repeat split. Qed.

Lemma executeBatch_picks_first_scheduled_witness :
  (exists r,
     fst (BatchProcessor.executeBatch env_all_succeed "p1" ["rowA"] two_scheduled_world)
     = Returned r /\ r_batchId r = b_id (heap two_scheduled_world 0)) /\
  is_terminal
    (b_status (heap (snd (BatchProcessor.executeBatch env_all_succeed "p1" ["rowA"]
                            two_scheduled_world)) 0)) = true /\
  (forall a', a' <> 0%nat ->
     heap (snd (BatchProcessor.executeBatch env_all_succeed "p1" ["rowA"] two_scheduled_world)) a'
     = heap two_scheduled_world a').
Proof.
  apply (proj1 (executeBatch_picks_first_scheduled env_all_succeed "p1" ["rowA"]
                  two_scheduled_world) [] 0%nat [1%nat]).
  - reflexivity.
  - intros a' [].
  - reflexivity.
Defined.

(** C9, as the claim states it, fails: with the file system down,
    [scheduleBatchRun] returns the id, the batch exists in memory only, no
    state file is written and the failure goes to the console. *)
Lemma scheduleBatchRun_swallows_counterexample :
  let out := BatchProcessor.scheduleBatchRun env_disk_down "p1" "{}" fresh_world in
  fst out = "batch-0" /\
  Map_get "batch-0" (batches (snd out)) = Some 0%nat /\
  state_files (snd out) = [] /\
  console (snd out) = ["Failed to persist batch state: EACCES"].
Proof. vm_compute. repeat split. Qed.

(** ** The two copies of the batch processor *)
Section Equivalence.

Variable env : Env.

Lemma sim_ret {A : Type} (x : A) : sim env (ret x) (ret x).
Proof. intros w1 w2 H. split; [reflexivity|exact H]. Qed.

Lemma sim_bind {A B : Type} (m1 m2 : M A) (k1 k2 : A -> M B) :
  sim env m1 m2 -> (forall x, sim env (k1 x) (k2 x)) ->
  sim env (bind m1 k1) (bind m2 k2).
Proof.
  intros Hm Hk w1 w2 H. rewrite !bind_eq.
  destruct (Hm w1 w2 H) as [Hfst Hsnd]. rewrite Hfst. now apply Hk.
Qed.

Ltac sim_prim :=
  let w1 := fresh "w1" in let w2 := fresh "w2" in let H := fresh "H" in
  intros w1 w2 H; destruct w1, w2; destruct H; cbn in *; subst;
  split; [reflexivity|constructor; cbn; auto].

Lemma sim_assign a f : sim env (assign a f) (assign a f).
Proof. sim_prim. Qed.

Lemma sim_deref a : sim env (deref a) (deref a).
Proof. sim_prim. Qed.

Lemma sim_emit ev : sim env (emit ev) (emit ev).
Proof. sim_prim. Qed.

Lemma sim_console_log msg : sim env (console_log msg) (console_log msg).
Proof. sim_prim. Qed.

Lemma sim_new_object b : sim env (new_object b) (new_object b).
Proof. sim_prim. Qed.

Lemma sim_batches_set k a : sim env (batches_set k a) (batches_set k a).
Proof. sim_prim. Qed.

Lemma sim_batches_get k : sim env (batches_get k) (batches_get k).
Proof. sim_prim. Qed.

Lemma sim_batches_values_find pred :
  sim env (batches_values_find pred) (batches_values_find pred).
Proof. sim_prim. Qed.

Lemma sim_uuidv4 : sim env (uuidv4 env) (uuidv4 env).
Proof. sim_prim. Qed.

Lemma sim_Date_now : sim env (Date_now env) (Date_now env).
Proof. sim_prim. Qed.

Lemma sim_Math_random : sim env (Math_random env) (Math_random env).
Proof. sim_prim. Qed.

(** The two copies write the same content, each to its own state file. *)
Lemma sim_writeFileSync :
  sim env (fs_writeFileSync_batches env (BatchProcessor.BATCH_STATE_FILE env))
          (fs_writeFileSync_batches env AutomationCoreBatch.BATCH_STATE_FILE_PATH).
Proof.
  intros w1 w2 H; destruct w1, w2; destruct H; cbn in *; subst.
  unfold fs_writeFileSync_batches; cbn.
  destruct (fs_ok_at env _); cbn; (split; [reflexivity|constructor; cbn; auto]).
  constructor; [|assumption]. cbn. auto.
Qed.

Lemma sim_appendFileSync entry :
  sim env (fs_appendFileSync env (BatchProcessor.path_resolve (dirname env) "batch-processor.log")
             entry)
          (fs_appendFileSync env AutomationCoreBatch.BATCH_PROCESSOR_LOG_FILE_PATH entry).
Proof.
  intros w1 w2 H; destruct w1, w2; destruct H; cbn in *; subst.
  unfold fs_appendFileSync; cbn.
  destruct (fs_ok_at env _); cbn; (split; [reflexivity|constructor; cbn; auto]).
  apply Forall2_app; [assumption|]. constructor; [|constructor]. cbn. auto.
Qed.

Lemma sim_read_batches :
  sim env (fs_read_batches env (BatchProcessor.BATCH_STATE_FILE env))
          (fs_read_batches env AutomationCoreBatch.BATCH_STATE_FILE_PATH).
Proof.
  intros w1 w2 [Hh Hn Hb Hsf Hlf Hc He Hu Hcl Hfs Hr]. destruct w1, w2; cbn in *; subst.
  unfold fs_read_batches; cbn.
  destruct Hsf as [|x y l1 l2 (Hx & Hy & Hxy) Hrest]; cbn.
  - split; [reflexivity|constructor; cbn; auto]. constructor.
  - rewrite Hx, Hy, !String.eqb_refl. cbn. rewrite Hxy.
    split; [reflexivity|constructor; cbn; auto]. constructor; auto.
Qed.

Ltac sim_step :=
  first
    [ apply sim_ret | apply sim_assign | apply sim_deref | apply sim_emit
    | apply sim_console_log | apply sim_new_object | apply sim_batches_set
    | apply sim_batches_get | apply sim_batches_values_find | apply sim_uuidv4
    | apply sim_Date_now | apply sim_Math_random | apply sim_writeFileSync
    | apply sim_appendFileSync | apply sim_read_batches
    | apply sim_bind; [|intros ?] ].

Ltac sim_case :=
  match goal with
  | |- sim _ (match ?x with _ => _ end) (match ?x with _ => _ end) => destruct x
  | |- sim _ (if ?x then _ else _) (if ?x then _ else _) => destruct x
  end.

Ltac sim_auto := repeat first [sim_step | sim_case].

Lemma sim_persistBatchState :
  sim env (BatchProcessor.persistBatchState env) (AutomationCoreBatch.persistBatchState env).
Proof.
  unfold BatchProcessor.persistBatchState, AutomationCoreBatch.persistBatchState. sim_auto.
Qed.

Lemma sim_logBatchEvent batchId event data :
  sim env (BatchProcessor.logBatchEvent env batchId event data)
          (AutomationCoreBatch.logBatchEvent env batchId event data).
Proof.
  unfold BatchProcessor.logBatchEvent, AutomationCoreBatch.logBatchEvent. sim_auto.
Qed.

Lemma sim_processForm profile row :
  sim env (BatchProcessor.processForm env profile row)
          (AutomationCoreBatch.processFormForBatch env profile row).
Proof.
  unfold BatchProcessor.processForm, AutomationCoreBatch.processFormForBatch,
         BatchProcessor.delay, AutomationCoreBatch.delay,
         BatchProcessor.i18n, AutomationCoreBatch.batchProcessorI18n.
  sim_auto.
Qed.

Ltac sim_ops :=
  repeat first
    [ sim_step | sim_case
    | apply sim_persistBatchState | apply sim_logBatchEvent | apply sim_processForm ].

Lemma sim_scheduleBatchRun profile batchConfig :
  sim env (BatchProcessor.scheduleBatchRun env profile batchConfig)
          (AutomationCoreBatch.scheduleBatchRun env profile batchConfig).
Proof.
  unfold BatchProcessor.scheduleBatchRun, AutomationCoreBatch.scheduleBatchRun. sim_ops.
Qed.

Lemma sim_executeBatch_start profile inputRows :
  sim env (BatchProcessor.executeBatch_start env profile inputRows)
          (AutomationCoreBatch.executeBatch_start env profile inputRows).
Proof.
  unfold BatchProcessor.executeBatch_start, AutomationCoreBatch.executeBatch_start,
         BatchProcessor.i18n, AutomationCoreBatch.batchProcessorI18n.
  sim_ops.
Qed.

Lemma sim_executeBatch_settle a idx row outcome results failures :
  sim env (BatchProcessor.executeBatch_settle env a idx row outcome results failures)
          (AutomationCoreBatch.executeBatch_settle env a idx row outcome results failures).
Proof.
  unfold BatchProcessor.executeBatch_settle, AutomationCoreBatch.executeBatch_settle. sim_ops.
Qed.

Lemma sim_executeBatch_finish a inputRows results failures :
  sim env (BatchProcessor.executeBatch_finish env a inputRows results failures)
          (AutomationCoreBatch.executeBatch_finish env a inputRows results failures).
Proof.
  unfold BatchProcessor.executeBatch_finish, AutomationCoreBatch.executeBatch_finish. sim_ops.
Qed.

Lemma sim_executeBatch_loop a rows :
  forall idx results failures,
    sim env (BatchProcessor.executeBatch_loop env a idx rows results failures)
            (AutomationCoreBatch.executeBatch_loop env a idx rows results failures).
Proof.
  induction rows as [|row rest IH]; intros idx results failures;
    cbn [BatchProcessor.executeBatch_loop AutomationCoreBatch.executeBatch_loop].
  - apply sim_ret.
  - apply sim_bind; [apply sim_deref|intros b].
    apply sim_bind; [apply sim_processForm|intros outcome].
    apply sim_bind; [apply sim_executeBatch_settle|intros acc]. apply IH.
Qed.

Lemma sim_executeBatch profile inputRows :
  sim env (BatchProcessor.executeBatch env profile inputRows)
          (AutomationCoreBatch.executeBatch env profile inputRows).
Proof.
  unfold BatchProcessor.executeBatch, AutomationCoreBatch.executeBatch.
  apply sim_bind; [apply sim_executeBatch_start|intros [a|err]]; [|apply sim_ret].
  apply sim_bind; [apply sim_executeBatch_loop|intros acc].
  apply sim_bind; [apply sim_executeBatch_finish|intros r]. apply sim_ret.
Qed.

Lemma sim_retry_loop fuel failure maxAttempts retryDelay :
  forall attempt lastError,
    sim env (BatchProcessor.retry_loop env fuel failure maxAttempts retryDelay attempt lastError)
            (AutomationCoreBatch.retry_loop env fuel failure maxAttempts retryDelay
               attempt lastError).
Proof.
  induction fuel as [|fuel IH]; intros attempt lastError;
    cbn [BatchProcessor.retry_loop AutomationCoreBatch.retry_loop].
  - apply sim_ret.
  - destruct (attempt <=? maxAttempts)%Z; [|apply sim_ret].
    apply sim_bind; [apply sim_ret|intros _].
    apply sim_bind; [apply sim_processForm|intros [result|err]]; [apply sim_ret|].
    apply sim_bind; [apply sim_logBatchEvent|intros _]. apply IH.
Qed.

Lemma sim_retry_all maxAttempts retryDelay failures :
  forall finalResults newFailures,
    sim env (BatchProcessor.retry_all env maxAttempts retryDelay failures finalResults newFailures)
            (AutomationCoreBatch.retry_all env maxAttempts retryDelay failures
               finalResults newFailures).
Proof.
  induction failures as [|failure rest IH]; intros finalResults newFailures;
    cbn [BatchProcessor.retry_all AutomationCoreBatch.retry_all].
  - apply sim_ret.
  - apply sim_bind; [apply sim_retry_loop|intros [[[result|] attempt] lastError]]; apply IH.
Qed.

Lemma sim_retryFailedSubmissions failures retryPolicy :
  sim env (BatchProcessor.retryFailedSubmissions env failures retryPolicy)
          (AutomationCoreBatch.retryFailedSubmissions env failures retryPolicy).
Proof. apply sim_retry_all. Qed.

Lemma sim_trackBatchProgress batchId :
  sim env (BatchProcessor.trackBatchProgress batchId)
          (AutomationCoreBatch.trackBatchProgress batchId).
Proof.
  unfold BatchProcessor.trackBatchProgress, AutomationCoreBatch.trackBatchProgress. sim_ops.
Qed.

Lemma sim_handleBatchCompletion batchId summary :
  sim env (BatchProcessor.handleBatchCompletion env batchId summary)
          (AutomationCoreBatch.handleBatchCompletion env batchId summary).
Proof.
  unfold BatchProcessor.handleBatchCompletion, AutomationCoreBatch.handleBatchCompletion.
  sim_ops.
Qed.

(** Loading the registry at module start, each copy from its own file. *)
Lemma sim_loadBatchState :
  sim env (BatchProcessor.loadBatchState env) (AutomationCoreBatch.loadBatchState env).
Proof.
  unfold BatchProcessor.loadBatchState, AutomationCoreBatch.loadBatchState.
  apply sim_bind; [apply sim_read_batches|intros [[entries|err]|]]; sim_ops.
  induction entries as [|kv entries IH]; cbn [for_each]; sim_ops. exact IH.
Qed.

Lemma sim_perform c : sim env (perform_batch_processor env c) (perform_automation_core env c).
Proof.
  destruct c; cbn [perform_batch_processor perform_automation_core];
    (apply sim_bind; [|intros ?; apply sim_ret]).
  - apply sim_scheduleBatchRun.
  - apply sim_executeBatch.
  - apply sim_retryFailedSubmissions.
  - apply sim_trackBatchProgress.
  - apply sim_handleBatchCompletion.
Qed.

Lemma sim_perform_all calls :
  sim env (perform_all (perform_batch_processor env) calls)
          (perform_all (perform_automation_core env) calls).
Proof.
  induction calls as [|c calls IH]; cbn [perform_all]; [apply sim_ret|].
  apply sim_bind; [apply sim_perform|intros x].
  apply sim_bind; [exact IH|intros xs]. apply sim_ret.
Qed.

Lemma same_state_fresh : same_state env fresh_world fresh_world.
Proof. constructor; cbn; auto; constructor. Qed.

(** C10: for every sequence of calls of the exported operations, run from
    corresponding worlds under the same environment (identifiers, clock,
    file-system answers, draws of the processor), the copy in
    batch-processor.js and the copy in automation-core.js give the same
    replies and leave the same registry, the same batch objects, the same
    emitted events and the same console; each writes the same content to its
    own state file and log. *)
Theorem batch_processor_copies_equivalent (calls : list Call) (w1 w2 : World) :
  same_state env w1 w2 ->
  fst (perform_all (perform_batch_processor env) calls w1)
  = fst (perform_all (perform_automation_core env) calls w2)
  /\ same_state env (snd (perform_all (perform_batch_processor env) calls w1))
                    (snd (perform_all (perform_automation_core env) calls w2)).
Proof. intros H. now apply sim_perform_all. Qed.

End Equivalence.

(** ** A call of [executeBatch] that nothing interleaves with *)
Section Uninterrupted.

Variable env : Env.

Lemma nth_error_snoc {A : Type} (l : list A) x : nth_error (l ++ [x]) (length l) = Some x.
Proof. induction l; cbn; auto. Qed.

Lemma remove_nth_snoc {A : Type} (l : list A) x :
  BatchProcessor.remove_nth (length l) (l ++ [x]) = l.
Proof. induction l as [|y l IH]; cbn; [reflexivity|]. now rewrite IH. Qed.

Lemma replace_nth_snoc {A : Type} (l : list A) x y :
  BatchProcessor.replace_nth (length l) y (l ++ [x]) = l ++ [y].
Proof. induction l as [|z l IH]; cbn; [reflexivity|]. now rewrite IH. Qed.

(** Resuming the last task of the queue until its rows are exhausted does
    what the rest of the sequential loop does. *)
Lemma continue_nil a inputRows idx results failures :
  BatchProcessor.executeBatch_continue env a inputRows idx [] results failures
  = (r <- BatchProcessor.executeBatch_finish env a inputRows results failures ;; ret (inr r)).
Proof. reflexivity. Qed.

Lemma continue_cons a inputRows idx row rest results failures :
  BatchProcessor.executeBatch_continue env a inputRows idx (row :: rest) results failures
  = (b <- deref a ;;
     outcome <- BatchProcessor.processForm env (b_profile b) row ;;
     ret (inl (BatchProcessor.mkTask a inputRows idx row rest outcome results failures))).
Proof. reflexivity. Qed.

Lemma loop_nil a idx results failures :
  BatchProcessor.executeBatch_loop env a idx [] results failures = ret (results, failures).
Proof. reflexivity. Qed.

Lemma loop_cons a idx row rest results failures :
  BatchProcessor.executeBatch_loop env a idx (row :: rest) results failures
  = (b <- deref a ;;
     outcome <- BatchProcessor.processForm env (b_profile b) row ;;
     acc <- BatchProcessor.executeBatch_settle env a idx row outcome results failures ;;
     BatchProcessor.executeBatch_loop env a (S idx) rest (fst acc) (snd acc)).
Proof. reflexivity. Qed.

Lemma executeBatch_eq profile inputRows w :
  BatchProcessor.executeBatch env profile inputRows w
  = match fst (BatchProcessor.executeBatch_start env profile inputRows w) with
    | Thrown err => (Thrown err, snd (BatchProcessor.executeBatch_start env profile inputRows w))
    | Returned a =>
        (acc <- BatchProcessor.executeBatch_loop env a 0 inputRows [] [] ;;
         r <- BatchProcessor.executeBatch_finish env a inputRows (fst acc) (snd acc) ;;
         ret (Returned r))
          (snd (BatchProcessor.executeBatch_start env profile inputRows w))
    end.
Proof.
  unfold BatchProcessor.executeBatch. rewrite bind_eq.
  now destruct (fst (BatchProcessor.executeBatch_start env profile inputRows w)).
Qed.

Lemma step_executeBatch_eq profile inputRows e :
  BatchProcessor.step env (BatchProcessor.Act_executeBatch profile inputRows) e
  = match fst (BatchProcessor.executeBatch_start env profile inputRows
                 (BatchProcessor.e_world e)) with
    | Thrown err =>
        BatchProcessor.mkEngine
          (snd (BatchProcessor.executeBatch_start env profile inputRows
                  (BatchProcessor.e_world e)))
          (BatchProcessor.e_inflight e)
          (BatchProcessor.e_settled e ++ [BatchProcessor.Rejected profile inputRows err])
    | Returned a =>
        match fst (BatchProcessor.executeBatch_continue env a inputRows 0 inputRows [] []
                     (snd (BatchProcessor.executeBatch_start env profile inputRows
                             (BatchProcessor.e_world e)))) with
        | inl task =>
            BatchProcessor.mkEngine
              (snd (BatchProcessor.executeBatch_continue env a inputRows 0 inputRows [] []
                      (snd (BatchProcessor.executeBatch_start env profile inputRows
                              (BatchProcessor.e_world e)))))
              (BatchProcessor.e_inflight e ++ [task])
              (BatchProcessor.e_settled e)
        | inr r =>
            BatchProcessor.mkEngine
              (snd (BatchProcessor.executeBatch_continue env a inputRows 0 inputRows [] []
                      (snd (BatchProcessor.executeBatch_start env profile inputRows
                              (BatchProcessor.e_world e)))))
              (BatchProcessor.e_inflight e)
              (BatchProcessor.e_settled e ++ [BatchProcessor.Resolved a inputRows r])
        end
    end.
Proof.
  cbn [BatchProcessor.step].
  destruct (BatchProcessor.executeBatch_start env profile inputRows (BatchProcessor.e_world e))
    as [[a|err] w1]; [|reflexivity].
  rewrite fst_pair, snd_pair.
  now destruct (BatchProcessor.executeBatch_continue env a inputRows 0 inputRows [] [] w1)
    as [[task|r] w2].
Qed.

(** A resumption of the task [t] found at place [n] of the queue. *)
Lemma step_resume_eq n e t :
  nth_error (BatchProcessor.e_inflight e) n = Some t ->
  forall acc w1,
    BatchProcessor.executeBatch_settle env
      (BatchProcessor.t_entry t) (BatchProcessor.t_idx t)
      (BatchProcessor.t_row t) (BatchProcessor.t_pending t)
      (BatchProcessor.t_results t) (BatchProcessor.t_failures t)
      (BatchProcessor.e_world e) = (acc, w1) ->
    BatchProcessor.step env (BatchProcessor.Act_resume n) e
    = match fst (BatchProcessor.executeBatch_continue env
                   (BatchProcessor.t_entry t) (BatchProcessor.t_inputRows t)
                   (S (BatchProcessor.t_idx t)) (BatchProcessor.t_rest t)
                   (fst acc) (snd acc) w1) with
      | inl task =>
          BatchProcessor.mkEngine
            (snd (BatchProcessor.executeBatch_continue env
                    (BatchProcessor.t_entry t) (BatchProcessor.t_inputRows t)
                    (S (BatchProcessor.t_idx t)) (BatchProcessor.t_rest t)
                    (fst acc) (snd acc) w1))
            (BatchProcessor.replace_nth n task (BatchProcessor.e_inflight e))
            (BatchProcessor.e_settled e)
      | inr r =>
          BatchProcessor.mkEngine
            (snd (BatchProcessor.executeBatch_continue env
                    (BatchProcessor.t_entry t) (BatchProcessor.t_inputRows t)
                    (S (BatchProcessor.t_idx t)) (BatchProcessor.t_rest t)
                    (fst acc) (snd acc) w1))
            (BatchProcessor.remove_nth n (BatchProcessor.e_inflight e))
            (BatchProcessor.e_settled e
             ++ [BatchProcessor.Resolved (BatchProcessor.t_entry t)
                   (BatchProcessor.t_inputRows t) r])
      end.
Proof.
  intros Hn acc w1 Hsettle. cbn [BatchProcessor.step]. rewrite Hn, Hsettle.
  now destruct (BatchProcessor.executeBatch_continue env _ _ _ _ _ _ w1) as [[task|r] w2].
Qed.

Lemma run_cons act acts e :
  BatchProcessor.run env (act :: acts) e = BatchProcessor.run env acts (BatchProcessor.step env act e).
Proof. reflexivity. Qed.

Lemma resumes_are_the_loop a inputRows rest :
  forall idx row pending results failures w tasks settled acc w1 acc' w2,
    BatchProcessor.executeBatch_settle env a idx row pending results failures w = (acc, w1) ->
    BatchProcessor.executeBatch_loop env a (S idx) rest (fst acc) (snd acc) w1 = (acc', w2) ->
    BatchProcessor.run env
      (List.repeat (BatchProcessor.Act_resume (length tasks)) (S (length rest)))
      (BatchProcessor.mkEngine w
         (tasks ++ [BatchProcessor.mkTask a inputRows idx row rest pending results failures])
         settled)
    = BatchProcessor.mkEngine
        (snd (BatchProcessor.executeBatch_finish env a inputRows (fst acc') (snd acc') w2))
        tasks
        (settled ++ [BatchProcessor.Resolved a inputRows
                       (fst (BatchProcessor.executeBatch_finish env a inputRows
                               (fst acc') (snd acc') w2))]).
Proof.
  induction rest as [|row' rest' IH];
    intros idx row pending results failures w tasks settled acc w1 acc' w2 Hsettle Hloop;
    change (List.repeat (BatchProcessor.Act_resume (length tasks)) (S ?n))
      with (BatchProcessor.Act_resume (length tasks)
            :: List.repeat (BatchProcessor.Act_resume (length tasks)) n);
    rewrite run_cons;
    match goal with
    | |- context [BatchProcessor.mkEngine w (tasks ++ [?t]) settled] =>
        rewrite (step_resume_eq (length tasks)
                   (BatchProcessor.mkEngine w (tasks ++ [t]) settled) t
                   (nth_error_snoc tasks t) acc w1 Hsettle)
    end;
    cbn [BatchProcessor.t_entry BatchProcessor.t_idx BatchProcessor.t_row
         BatchProcessor.t_pending BatchProcessor.t_results BatchProcessor.t_failures
         BatchProcessor.t_rest BatchProcessor.t_inputRows
         BatchProcessor.e_inflight BatchProcessor.e_settled].
  - rewrite loop_nil, ret_eq in Hloop. injection Hloop as <- <-.
    rewrite continue_nil. binds. rewrite remove_nth_snoc. reflexivity.
  - rewrite continue_cons. binds. rewrite replace_nth_snoc.
    rewrite loop_cons in Hloop. revert Hloop. binds.
    generalize (BatchProcessor.processForm env (b_profile (heap w1 a)) row' w1).
    intros [outcome w1']. rewrite !fst_pair, !snd_pair.
    destruct (BatchProcessor.executeBatch_settle env a (S idx) row' outcome (fst acc) (snd acc) w1')
      as [acc1 w1''] eqn:Hsettle'.
    rewrite !fst_pair, !snd_pair. intros Hloop.
    apply (IH (S idx) row' outcome (fst acc) (snd acc) w1' tasks settled acc1 w1'' acc' w2
             Hsettle' Hloop).
Qed.

(** The sequential [executeBatch] is the run in which the call is resumed
    row after row with nothing in between. *)
Lemma executeBatch_is_a_run e profile inputRows a :
  List.find (fun a => scheduled_for profile (heap (BatchProcessor.e_world e) a))
            (List.map snd (batches (BatchProcessor.e_world e))) = Some a ->
  exists r,
    fst (BatchProcessor.executeBatch env profile inputRows (BatchProcessor.e_world e)) = Returned r /\
    BatchProcessor.run env
      (BatchProcessor.Act_executeBatch profile inputRows
       :: List.repeat (BatchProcessor.Act_resume (length (BatchProcessor.e_inflight e)))
            (length inputRows)) e
    = BatchProcessor.mkEngine
        (snd (BatchProcessor.executeBatch env profile inputRows (BatchProcessor.e_world e)))
        (BatchProcessor.e_inflight e)
        (BatchProcessor.e_settled e ++ [BatchProcessor.Resolved a inputRows r]).
Proof.
  intros Hfind.
  pose proof (executeBatch_start_some env profile inputRows _ a Hfind) as (Hstart & _).
  rewrite executeBatch_eq, run_cons, step_executeBatch_eq. revert Hstart.
  generalize (BatchProcessor.executeBatch_start env profile inputRows (BatchProcessor.e_world e)).
  intros [started w1]. rewrite !fst_pair, !snd_pair. intros ->.
  destruct inputRows as [|row rest].
  - rewrite continue_nil, loop_nil. binds.
    eexists. split; reflexivity.
  - rewrite continue_cons, loop_cons. binds.
    change (length (row :: rest)) with (S (length rest)).
    generalize (BatchProcessor.processForm env (b_profile (heap w1 a)) row w1).
    intros [outcome w2]. rewrite !fst_pair, !snd_pair.
    destruct (BatchProcessor.executeBatch_settle env a 0 row outcome [] [] w2)
      as [acc w3] eqn:Hsettle.
    rewrite !fst_pair, !snd_pair.
    destruct (BatchProcessor.executeBatch_loop env a 1 rest (fst acc) (snd acc) w3)
      as [acc' w4] eqn:Hloop.
    rewrite !fst_pair, !snd_pair.
    rewrite (resumes_are_the_loop a (row :: rest) rest 0 row outcome [] [] w2
               (BatchProcessor.e_inflight e) (BatchProcessor.e_settled e)
               acc w3 acc' w4 Hsettle Hloop).
    eexists. split; reflexivity.
Qed.

(** In every state the engine can reach, a call of [executeBatch] for a
    profile that has a scheduled batch resolves, and the batch it ran is
    fully accounted for; the engine stays within its invariant. *)
Theorem executeBatch_resolves_accounted (acts : list BatchProcessor.Action)
  (profile : Profile) (inputRows : list Row) (a : nat) :
  let e := BatchProcessor.run env acts BatchProcessor.fresh_engine in
  let out := BatchProcessor.executeBatch env profile inputRows (BatchProcessor.e_world e) in
  List.find (fun a => scheduled_for profile (heap (BatchProcessor.e_world e) a))
            (List.map snd (batches (BatchProcessor.e_world e))) = Some a ->
  exists r,
    fst out = Returned r /\ accounted (snd out) a inputRows r /\
    (forall batchId p, In (progress batchId p) (emitted (snd out)) ->
       p_processed p = (p_succeeded p + p_failed p)%Z /\ (p_processed p <= p_total p)%Z).
Proof.
  intros e out Hfind.
  destruct (executeBatch_is_a_run e profile inputRows a Hfind) as (r & Hr & Hrun).
  pose proof (run_Inv env acts _ Inv_fresh) as HI. fold e in HI.
  pose proof (run_Inv env
                (BatchProcessor.Act_executeBatch profile inputRows
                 :: List.repeat (BatchProcessor.Act_resume (length (BatchProcessor.e_inflight e)))
                      (length inputRows)) e HI) as HI'.
  rewrite Hrun in HI'. fold out in HI'.
  exists r. split; [exact Hr|]. split.
  - pose proof (inv_settled _ HI' (BatchProcessor.Resolved a inputRows r)) as Hs.
    cbn in Hs. apply Hs. apply in_or_app. right. now left.
  - intros batchId p Hin. apply (inv_events _ HI') in Hin. exact Hin.
Qed.

End Uninterrupted.

Lemma batch_processor_copies_equivalent_witness :
  fst (perform_all (perform_batch_processor env_all_fail) demo_calls fresh_world)
  = fst (perform_all (perform_automation_core env_all_fail) demo_calls fresh_world)
  /\ same_state env_all_fail
       (snd (perform_all (perform_batch_processor env_all_fail) demo_calls fresh_world))
       (snd (perform_all (perform_automation_core env_all_fail) demo_calls fresh_world)).
Proof.
  apply (batch_processor_copies_equivalent env_all_fail demo_calls fresh_world fresh_world).
  constructor; cbn; auto; constructor.
Defined.

(** The two copies do not write to the same place. *)
Example copies_write_their_own_files :
  List.map fst (state_files (snd (perform_all (perform_batch_processor env_all_fail)
                                    [Call_scheduleBatchRun "p1" "{}"] fresh_world)))
  = ["/app/batch-state.json"]
  /\ List.map fst (state_files (snd (perform_all (perform_automation_core env_all_fail)
                                       [Call_scheduleBatchRun "p1" "{}"] fresh_world)))
  = ["./batch-state.json"].
Proof. vm_compute. split; reflexivity. Qed.

(** The scenarios of the specification. *)
Example batch_happy_path :
  let out := BatchProcessor.executeBatch env_all_succeed "p1" ["rowA"; "rowB"]
               (snd (BatchProcessor.scheduleBatchRun env_all_succeed "p1" "{}" fresh_world)) in
  b_status (heap (snd out) 0) = Completed /\
  b_progress (heap (snd out) 0) = mkProgress 2 2 0 2 /\
  b_failures (heap (snd out) 0) = [].
Proof. vm_compute. repeat split. Qed.

Example batch_without_schedule :
  BatchProcessor.executeBatch env_all_succeed "p1" ["rowA"] fresh_world
  = (Thrown (Error "No scheduled batch for this profile."), fresh_world).
Proof. reflexivity. Qed.

(** ** Progress as [trackBatchProgress] reports it *)
Section Tracking.

Variable env : Env.

Hypothesis uuid_fresh : uuid_unique env.

Lemma Map_get_set_neq k k' a m : k' <> k -> Map_get k' (Map_set k a m) = Map_get k' m.
Proof.
  intros Hne. induction m as [|[k0 a0] m IH]; cbn.
  - destruct (k =? k')%string eqn:E; [apply String.eqb_eq in E; congruence|reflexivity].
  - destruct (k0 =? k)%string eqn:E; cbn.
    + apply String.eqb_eq in E. subst k0.
      destruct (k =? k')%string eqn:E'; [apply String.eqb_eq in E'; congruence|reflexivity].
    + destruct (k0 =? k')%string; [reflexivity|exact IH].
Qed.

Lemma Map_set_keys k a m x :
  In x (List.map fst (Map_set k a m)) -> x = k \/ In x (List.map fst m).
Proof.
  induction m as [|[k0 a0] m IH]; cbn.
  - intros [<-|[]]. now left.
  - destruct (k0 =? k)%string; cbn.
    + intros [<-|H]; [now left|right; now right].
    + intros [<-|H]; [right; now left|]. destruct (IH H) as [->|H']; [now left|right; now right].
Qed.

Lemma Map_get_key k m a : Map_get k m = Some a -> In k (List.map fst m).
Proof.
  induction m as [|[k0 a0] m IH]; cbn; [discriminate|].
  destruct (k0 =? k)%string eqn:E; [intros _; left; now apply String.eqb_eq|].
  intros H. right. now apply IH.
Qed.

Lemma scheduleBatchRun_n_uuid profile batchConfig w :
  n_uuid (snd (BatchProcessor.scheduleBatchRun env profile batchConfig w)) = S (n_uuid w).
Proof. destruct w. crunch; reflexivity. Qed.

Lemma processForm_n_uuid profile row w :
  n_uuid (snd (BatchProcessor.processForm env profile row w)) = n_uuid w.
Proof. destruct w. run_ops. destruct (Qltb _ _); reflexivity. Qed.

Lemma logBatchEvent_n_uuid batchId event data w :
  n_uuid (snd (BatchProcessor.logBatchEvent env batchId event data w)) = n_uuid w.
Proof. destruct w. crunch; reflexivity. Qed.

Lemma executeBatch_start_n_uuid profile inputRows w :
  n_uuid (snd (BatchProcessor.executeBatch_start env profile inputRows w)) = n_uuid w.
Proof.
  destruct w. run_ops. destruct (List.find _ _); run_ops; split_fs; reflexivity.
Qed.

Lemma executeBatch_settle_n_uuid a idx row outcome results failures w :
  n_uuid (snd (BatchProcessor.executeBatch_settle env a idx row outcome results failures w))
  = n_uuid w.
Proof. destruct w, outcome; crunch; reflexivity. Qed.

Lemma executeBatch_finish_n_uuid a inputRows results failures w :
  n_uuid (snd (BatchProcessor.executeBatch_finish env a inputRows results failures w))
  = n_uuid w.
Proof. destruct w. crunch; reflexivity. Qed.

Lemma executeBatch_continue_n_uuid a inputRows idx rows results failures w :
  n_uuid (snd (BatchProcessor.executeBatch_continue env a inputRows idx rows results failures w))
  = n_uuid w.
Proof.
  destruct rows as [|row rest].
  - rewrite continue_nil. binds. apply executeBatch_finish_n_uuid.
  - rewrite continue_cons. binds. apply processForm_n_uuid.
Qed.

Lemma handleBatchCompletion_n_uuid batchId summary w :
  n_uuid (snd (BatchProcessor.handleBatchCompletion env batchId summary w)) = n_uuid w.
Proof.
  destruct w. run_ops. destruct (Map_get _ _); run_ops; split_fs; reflexivity.
Qed.

Lemma retry_loop_n_uuid fuel failure maxAttempts retryDelay :
  forall attempt lastError w,
    n_uuid (snd (BatchProcessor.retry_loop env fuel failure maxAttempts retryDelay
                   attempt lastError w)) = n_uuid w.
Proof.
  induction fuel as [|fuel IH]; intros attempt lastError w; cbn [BatchProcessor.retry_loop].
  - reflexivity.
  - destruct (attempt <=? maxAttempts)%Z; [|reflexivity]. binds.
    pose proof (processForm_n_uuid (f_profile failure) (f_row failure) w) as Hp.
    destruct (fst (BatchProcessor.processForm env (f_profile failure) (f_row failure) w)).
    + binds. exact Hp.
    + binds. now rewrite IH, logBatchEvent_n_uuid.
Qed.

Lemma retry_all_n_uuid maxAttempts retryDelay failures :
  forall finalResults newFailures w,
    n_uuid (snd (BatchProcessor.retry_all env maxAttempts retryDelay failures
                   finalResults newFailures w)) = n_uuid w.
Proof.
  induction failures as [|failure rest IH]; intros finalResults newFailures w;
    cbn [BatchProcessor.retry_all].
  - reflexivity.
  - rewrite bind_eq. unfold BatchProcessor.retry_one.
    destruct (fst (BatchProcessor.retry_loop _ _ _ _ _ _ _ _)) as [[[result|] attempt] lastError];
      now rewrite IH, retry_loop_n_uuid.
Qed.

(** A change of the world that keeps the registry and the ids. *)
Lemma registry_keyed_frame w w' :
  registry_keyed env w ->
  next_addr w' = next_addr w -> batches w' = batches w -> n_uuid w' = n_uuid w ->
  (forall a, (a < next_addr w)%nat -> b_id (heap w' a) = b_id (heap w a)) ->
  registry_keyed env w'.
Proof.
  intros (Hget & Hkeys) Hnext Hmap Huuid Hid. split.
  - intros a Ha. rewrite Hnext in Ha. rewrite Hmap, Hid by exact Ha. now apply Hget.
  - intros k Hk. rewrite Hmap in Hk. rewrite Huuid. now apply Hkeys.
Qed.

Lemma step_registry_keyed act e :
  Inv e -> registry_keyed env (BatchProcessor.e_world e) ->
  registry_keyed env (BatchProcessor.e_world (BatchProcessor.step env act e)).
Proof.
  intros HI HK.
  destruct act as [profile batchConfig|profile inputRows|n|batchId|batchId summary|failures retryPolicy].
  - (* scheduleBatchRun *)
    cbn [BatchProcessor.step].
    pose proof (scheduleBatchRun_spec env profile batchConfig (BatchProcessor.e_world e)) as H.
    pose proof (scheduleBatchRun_n_uuid profile batchConfig (BatchProcessor.e_world e)) as Hu.
    revert H Hu.
    destruct (BatchProcessor.scheduleBatchRun env profile batchConfig (BatchProcessor.e_world e))
      as [batchId w'].
    cbn [fst snd BatchProcessor.e_world].
    intros (-> & Hnext & Hheap & Hbid & _ & _ & _ & Hmap & _) Hu.
    destruct HK as (Hget & Hkeys).
    assert (Hnew : ~ In (uuid_at env (n_uuid (BatchProcessor.e_world e)))
                        (List.map fst (batches (BatchProcessor.e_world e)))).
    { intros Hin. destruct (Hkeys _ Hin) as (i & Hi & Heq). apply uuid_fresh in Heq. lia. }
    split.
    + intros a Ha. rewrite Hmap.
      destruct (Nat.eq_dec a (next_addr (BatchProcessor.e_world e))) as [->|Hne].
      * rewrite Hbid. apply Map_get_set_eq.
      * rewrite Hheap by exact Hne. assert (a < next_addr (BatchProcessor.e_world e))%nat as Ha' by lia.
        rewrite Map_get_set_neq; [now apply Hget|].
        intros Heq. apply Hnew. rewrite <- Heq. eapply Map_get_key. now apply Hget.
    + intros k Hk. rewrite Hmap in Hk. rewrite Hu. apply Map_set_keys in Hk.
      destruct Hk as [->|Hk]; [exists (n_uuid (BatchProcessor.e_world e)); split; [lia|reflexivity]|].
      destruct (Hkeys k Hk) as (i & Hi & ->). exists i. split; [lia|reflexivity].
  - (* executeBatch *)
    rewrite step_executeBatch_eq.
    destruct (List.find (fun a => (b_profile (heap (BatchProcessor.e_world e) a) =? profile)%string
                      && Status_eqb (b_status (heap (BatchProcessor.e_world e) a)) Scheduled)
            (List.map snd (batches (BatchProcessor.e_world e)))) as [a|] eqn:Hfind.
    + pose proof (executeBatch_start_some env profile inputRows _ a Hfind) as H.
      pose proof (executeBatch_start_n_uuid profile inputRows (BatchProcessor.e_world e)) as Hu.
      cbv zeta in H. revert H Hu.
      generalize (BatchProcessor.executeBatch_start env profile inputRows (BatchProcessor.e_world e)).
      intros [started w1]. rewrite !fst_pair, !snd_pair.
      intros (-> & Hnext & Hmap & Hheap & Hbid & _) Hu.
      assert (registry_keyed env w1) as HK1.
      { apply (registry_keyed_frame _ _ HK Hnext Hmap Hu). intros a' Ha'.
        destruct (Nat.eq_dec a' a) as [->|Hne]; [exact Hbid|now rewrite Hheap]. }
      assert (HK2 : registry_keyed env
                (snd (BatchProcessor.executeBatch_continue env a inputRows 0 inputRows [] [] w1))).
      { destruct inputRows as [|row rest].
        - rewrite continue_nil. binds.
          pose proof (executeBatch_finish_spec env a [] [] [] w1) as H. cbv zeta in H.
          destruct H as (Hnext2 & Hmap2 & Hheap2 & Hbid2 & _).
          apply (registry_keyed_frame _ _ HK1 Hnext2 Hmap2 (executeBatch_finish_n_uuid _ _ _ _ _)).
          intros a' Ha'. destruct (Nat.eq_dec a' a) as [->|Hne]; [exact Hbid2|now rewrite Hheap2].
        - rewrite continue_cons. binds.
          pose proof (processForm_core env (b_profile (heap w1 a)) row w1) as (Hh & Hn & Hm & _).
          apply (registry_keyed_frame _ _ HK1 Hn Hm (processForm_n_uuid _ _ _)).
          intros a' Ha'. now rewrite Hh. }
      destruct (fst (BatchProcessor.executeBatch_continue env a inputRows 0 inputRows [] [] w1));
        exact HK2.
    + rewrite (executeBatch_start_none env profile inputRows _ Hfind). exact HK.
  - (* a resumption *)
    destruct (nth_error (BatchProcessor.e_inflight e) n) as [t|] eqn:Hn.
    2:{ cbn [BatchProcessor.step]. rewrite Hn. exact HK. }
    pose proof (executeBatch_settle_spec env (BatchProcessor.t_entry t) (BatchProcessor.t_idx t)
                  (BatchProcessor.t_row t) (BatchProcessor.t_pending t)
                  (BatchProcessor.t_results t) (BatchProcessor.t_failures t)
                  (BatchProcessor.e_world e)) as H.
    pose proof (executeBatch_settle_n_uuid (BatchProcessor.t_entry t) (BatchProcessor.t_idx t)
                  (BatchProcessor.t_row t) (BatchProcessor.t_pending t)
                  (BatchProcessor.t_results t) (BatchProcessor.t_failures t)
                  (BatchProcessor.e_world e)) as Hu.
    cbv zeta in H. revert H Hu.
    destruct (BatchProcessor.executeBatch_settle env (BatchProcessor.t_entry t)
                (BatchProcessor.t_idx t) (BatchProcessor.t_row t) (BatchProcessor.t_pending t)
                (BatchProcessor.t_results t) (BatchProcessor.t_failures t)
                (BatchProcessor.e_world e)) as [acc w1] eqn:Hsettle.
    rewrite !fst_pair, !snd_pair. intros (Hnext & Hmap & Hheap & Hbid & _) Hu.
    rewrite (step_resume_eq env n e t Hn acc w1 Hsettle).
    set (a := BatchProcessor.t_entry t) in *.
    assert (registry_keyed env w1) as HK1.
    { apply (registry_keyed_frame _ _ HK Hnext Hmap Hu). intros a' Ha'.
      destruct (Nat.eq_dec a' a) as [->|Hne]; [exact Hbid|now rewrite Hheap]. }
    assert (HK2 : registry_keyed env
              (snd (BatchProcessor.executeBatch_continue env a (BatchProcessor.t_inputRows t)
                      (S (BatchProcessor.t_idx t)) (BatchProcessor.t_rest t)
                      (fst acc) (snd acc) w1))).
    { destruct (BatchProcessor.t_rest t) as [|row rest].
      - rewrite continue_nil. binds.
        pose proof (executeBatch_finish_spec env a (BatchProcessor.t_inputRows t)
                      (fst acc) (snd acc) w1) as H. cbv zeta in H.
        destruct H as (Hnext2 & Hmap2 & Hheap2 & Hbid2 & _).
        apply (registry_keyed_frame _ _ HK1 Hnext2 Hmap2 (executeBatch_finish_n_uuid _ _ _ _ _)).
        intros a' Ha'. destruct (Nat.eq_dec a' a) as [->|Hne]; [exact Hbid2|now rewrite Hheap2].
      - rewrite continue_cons. binds.
        pose proof (processForm_core env (b_profile (heap w1 a)) row w1) as (Hh & Hn' & Hm & _).
        apply (registry_keyed_frame _ _ HK1 Hn' Hm (processForm_n_uuid _ _ _)).
        intros a' Ha'. now rewrite Hh. }
    destruct (fst (BatchProcessor.executeBatch_continue env a _ _ _ _ _ w1)); exact HK2.
  - (* trackBatchProgress *)
    cbn [BatchProcessor.step].
    pose proof (trackBatchProgress_world batchId (BatchProcessor.e_world e)) as H. revert H.
    destruct (BatchProcessor.trackBatchProgress batchId (BatchProcessor.e_world e)) as [p w'].
    cbn [snd BatchProcessor.e_world]. now intros ->.
  - (* handleBatchCompletion *)
    cbn [BatchProcessor.step].
    destruct (Map_get batchId (batches (BatchProcessor.e_world e))) as [a|] eqn:Hget.
    + pose proof (handleBatchCompletion_some env batchId summary _ a Hget) as H.
      pose proof (handleBatchCompletion_n_uuid batchId summary (BatchProcessor.e_world e)) as Hu.
      revert H Hu.
      destruct (BatchProcessor.handleBatchCompletion env batchId summary (BatchProcessor.e_world e))
        as [u w'].
      cbn [fst snd BatchProcessor.e_world]. intros (Hnext & Hmap & Hheap & Hbid & _) Hu.
      apply (registry_keyed_frame _ _ HK Hnext Hmap Hu). intros a' Ha'.
      destruct (Nat.eq_dec a' a) as [->|Hne]; [exact Hbid|now rewrite Hheap].
    + rewrite (handleBatchCompletion_none env batchId summary _ Hget). exact HK.
  - (* retryFailedSubmissions *)
    cbn [BatchProcessor.step].
    pose proof (retryFailedSubmissions_core env failures retryPolicy (BatchProcessor.e_world e)) as H.
    pose proof (retry_all_n_uuid (num_or (maxAttempts retryPolicy) 3)
                  (num_or (retryDelayMs retryPolicy) 1000) failures [] []
                  (BatchProcessor.e_world e)) as Hu.
    fold (BatchProcessor.retryFailedSubmissions env failures retryPolicy (BatchProcessor.e_world e))
      in Hu.
    revert H Hu.
    destruct (BatchProcessor.retryFailedSubmissions env failures retryPolicy
                (BatchProcessor.e_world e)) as [r w'].
    cbn [snd BatchProcessor.e_world]. intros (Hheap & Hnext & Hmap & _) Hu.
    apply (registry_keyed_frame _ _ HK Hnext Hmap Hu). intros a' Ha'. now rewrite Hheap.
Qed.

Lemma run_registry_keyed acts :
  forall e, Inv e -> registry_keyed env (BatchProcessor.e_world e) ->
            registry_keyed env (BatchProcessor.e_world (BatchProcessor.run env acts e)).
Proof.
  induction acts as [|act acts IH]; intros e HI HK; [exact HK|].
  rewrite run_cons. apply IH; [now apply step_Inv|now apply step_registry_keyed].
Qed.

(** X12: with identifiers that never repeat, the accounting of C1 is what
    [trackBatchProgress] reports for the id a resolved call returned. *)
Theorem trackBatchProgress_after_resolve (acts : list BatchProcessor.Action) :
  let e := BatchProcessor.run env acts BatchProcessor.fresh_engine in
  forall batchEntry inputRows r,
    In (BatchProcessor.Resolved batchEntry inputRows r) (BatchProcessor.e_settled e) ->
    exists p,
      fst (BatchProcessor.trackBatchProgress (r_batchId r) (BatchProcessor.e_world e)) = Some p /\
      p_processed p = p_total p /\
      p_total p = Z.of_nat (length inputRows) /\
      (p_succeeded p + p_failed p = p_processed p)%Z.
Proof.
  intros e a inputRows r Hin.
  pose proof (run_Inv env acts _ Inv_fresh) as HI. fold e in HI.
  assert (registry_keyed env (BatchProcessor.e_world e)) as (Hget & _).
  { apply run_registry_keyed; [exact Inv_fresh|]. split; cbn; [intros a' Ha'; lia|intros k []]. }
  apply (inv_settled _ HI) in Hin. cbn in Hin.
  destruct Hin as (Ha & _ & H1 & H2 & H3 & _ & _ & Hid).
  exists (b_progress (heap (BatchProcessor.e_world e) a)).
  split; [|auto].
  unfold BatchProcessor.trackBatchProgress, batches_get. rewrite bind_eq.
  cbn [fst snd]. rewrite Hid, (Hget a Ha). reflexivity.
Qed.

End Tracking.

(** * Further properties

    What the code shows beyond the claims above, module by module. *)

(** ** The batch processor: rows, events, the state file, retries *)

Section BatchRows.

Variable env : Env.

Lemma executeBatch_loop_rows a rows :
  forall idx results failures w,
    exists mask,
      length mask = length rows /\
      fst (BatchProcessor.executeBatch_loop env a idx rows results failures w)
      = (results ++ List.map (success_of (b_profile (heap w a))) (select mask rows),
         failures ++ List.map (failure_of (b_profile (heap w a)))
                              (select (List.map negb mask) rows)) /\
      emitted (snd (BatchProcessor.executeBatch_loop env a idx rows results failures w))
      = emitted w ++ progress_trace (b_id (heap w a)) (b_progress (heap w a)) mask /\
      b_progress (heap (snd (BatchProcessor.executeBatch_loop env a idx rows results failures w)) a)
      = List.fold_left (fun p ok => count_row ok p) mask (b_progress (heap w a)).
Proof.
  induction rows as [|row rest IH]; intros idx results failures w.
  - exists []. rewrite loop_nil, ret_eq. cbn. now rewrite !app_nil_r.
  - rewrite loop_cons. binds.
    pose proof (processForm_core env (b_profile (heap w a)) row w) as (Hheap1 & _ & _ & Hem1).
    pose proof (processForm_outcome env (b_profile (heap w a)) row w) as Hout.
    revert Hheap1 Hem1 Hout.
    generalize (BatchProcessor.processForm env (b_profile (heap w a)) row w).
    intros [outcome w1]. rewrite !fst_pair, !snd_pair. intros Hheap1 Hem1 Hout.
    pose proof (executeBatch_settle_spec env a idx row outcome results failures w1) as H.
    cbv zeta in H. revert H.
    generalize (BatchProcessor.executeBatch_settle env a idx row outcome results failures w1).
    intros [acc w2]. rewrite !fst_pair, !snd_pair.
    intros (_ & _ & _ & Hid2 & Hp2 & _ & Hprog2 & Hem2 & Hacc).
    destruct (IH (S idx) (fst acc) (snd acc) w2) as (mask & Hlen & Hfst & Hem & Hprog).
    rewrite Hheap1 in *.
    rewrite Hprog2 in Hem2. rewrite Hid2, Hp2, Hprog2, Hem2, Hem1 in *.
    destruct (Qltb (random_at env (n_random w)) (9 # 10)); subst outcome acc;
      cbn [fst snd err_message Error] in *.
    + exists (true :: mask). cbn [length List.map select negb List.fold_left progress_trace].
      rewrite Hfst, Hem, Hprog. unfold count_row at 1 3 4.
      rewrite <- !app_assoc. cbn [app]. repeat split; auto.
    + exists (false :: mask). cbn [length List.map select negb List.fold_left progress_trace].
      rewrite Hfst, Hem, Hprog. unfold count_row at 1 3 4.
      rewrite <- !app_assoc. cbn [app]. repeat split; auto.
Qed.

Lemma fold_count_row mask :
  forall p,
    let q := List.fold_left (fun p ok => count_row ok p) mask p in
    p_total q = p_total p /\
    p_processed q = (p_processed p + Z.of_nat (length mask))%Z /\
    p_succeeded q = (p_succeeded p + Z.of_nat (length (List.filter (fun ok => ok) mask)))%Z /\
    p_failed q = (p_failed p + Z.of_nat (length (List.filter negb mask)))%Z.
Proof.
  induction mask as [|ok mask IH]; intros p; cbn [List.fold_left length List.filter].
  - cbn. repeat split; lia.
  - specialize (IH (count_row ok p)). cbv zeta in *.
    destruct IH as (H1 & H2 & H3 & H4). rewrite H1, H2, H3, H4.
    destruct ok; cbn [negb length count_row incr_processed incr_succeeded incr_failed
                        p_total p_processed p_succeeded p_failed];
      repeat split; lia.
Qed.

Lemma select_length {A : Type} (mask : list bool) :
  forall l : list A, length mask = length l ->
    length (select mask l) = length (List.filter (fun ok => ok) mask) /\
    length (select (List.map negb mask) l) = length (List.filter negb mask).
Proof.
  induction mask as [|ok mask IH]; intros [|x l] Hlen; try discriminate; [split; reflexivity|].
  injection Hlen as Hlen. destruct (IH l Hlen) as [H1 H2].
  destruct ok; cbn [select List.map negb List.filter length]; split; congruence.
Qed.

(** What the sequential [executeBatch] does, once its batch [a] is found. *)
Lemma executeBatch_outcome profile inputRows w a :
  List.find (fun a => scheduled_for profile (heap w a)) (List.map snd (batches w)) = Some a ->
  let out := BatchProcessor.executeBatch env profile inputRows w in
  exists mask completedAt,
    let results := List.map (success_of profile) (select mask inputRows) in
    let failures := List.map (failure_of profile) (select (List.map negb mask) inputRows) in
    let counters :=
      List.fold_left (fun p ok => count_row ok p) mask
        (set_total (Z.of_nat (length inputRows)) (b_progress (heap w a))) in
    let summary :=
      Some (mkSummary (Z.of_nat (length inputRows)) (p_succeeded counters) (p_failed counters)
                      completedAt) in
    length mask = length inputRows /\
    fst out = Returned (mkExecResult (b_id (heap w a)) results failures) /\
    b_failures (heap (snd out) a) = failures /\
    b_status (heap (snd out) a) = (if (length failures =? 0)%nat then Completed else Failed) /\
    b_progress (heap (snd out) a) = counters /\
    b_summary (heap (snd out) a) = summary /\
    emitted (snd out)
    = emitted w
      ++ batchStarted (b_id (heap w a))
      :: progress_trace (b_id (heap w a))
           (set_total (Z.of_nat (length inputRows)) (b_progress (heap w a))) mask
      ++ [batchCompleted (b_id (heap w a)) summary].
Proof.
  intros Hfind. cbv zeta.
  assert (b_profile (heap w a) = profile) as Hprofile.
  { apply List.find_some in Hfind. destruct Hfind as [_ H]. unfold scheduled_for in H.
    apply andb_prop in H. destruct H as [H _]. now apply String.eqb_eq in H. }
  pose proof (executeBatch_start_some env profile inputRows w a Hfind) as H. cbv zeta in H.
  rewrite executeBatch_eq. revert H.
  generalize (BatchProcessor.executeBatch_start env profile inputRows w).
  intros [started w1]. rewrite !fst_pair, !snd_pair.
  intros (-> & _ & _ & _ & Hid1 & Hp1 & _ & Hprog1 & Hem1).
  binds.
  destruct (executeBatch_loop_rows a inputRows 0 [] [] w1) as (mask & Hlen & Hfst & Hem2 & Hprog2).
  pose proof (executeBatch_loop_spec env a inputRows 0 [] [] w1) as H. cbv zeta in H.
  revert H Hfst Hem2 Hprog2.
  generalize (BatchProcessor.executeBatch_loop env a 0 inputRows [] [] w1).
  intros [acc w2]. rewrite !fst_pair, !snd_pair.
  intros (_ & _ & _ & Hid2 & _ & _) -> Hem2 Hprog2.
  rewrite !fst_pair, !snd_pair. cbn [app] in *.
  pose proof (executeBatch_finish_spec env a inputRows
                (List.map (success_of (b_profile (heap w1 a))) (select mask inputRows))
                (List.map (failure_of (b_profile (heap w1 a)))
                   (select (List.map negb mask) inputRows)) w2) as H. cbv zeta in H.
  revert H.
  generalize (BatchProcessor.executeBatch_finish env a inputRows
                (List.map (success_of (b_profile (heap w1 a))) (select mask inputRows))
                (List.map (failure_of (b_profile (heap w1 a)))
                   (select (List.map negb mask) inputRows)) w2).
  intros [r w3]. rewrite !fst_pair, !snd_pair.
  intros (_ & _ & _ & _ & _ & Hst3 & Hprog3 & Hf3 & (completedAt & Hsum3) & Hem3 & ->).
  exists mask, completedAt.
  rewrite Hp1, Hprofile in *. rewrite Hid2, Hid1 in *.
  rewrite Hprog3, Hst3, Hf3, Hem3, Hsum3, Hem2, Hem1, Hprog2, Hprog1.
  rewrite <- !app_assoc. cbn [app].
  repeat split; auto.
Qed.

End BatchRows.

Section Durability.

Variable env : Env.

Hypothesis fs_works : forall n, fs_ok_at env n = true.

Ltac run_fs := repeat (run_ops; rewrite ?fs_works); run_ops.

Lemma disk_current_same_store w w' :
  same_store w w' -> disk_current env w -> disk_current env w'.
Proof.
  intros (Hh & Hb & Hf). unfold disk_current, entries_snapshot. now rewrite Hh, Hb, Hf.
Qed.

Lemma same_store_refl w : same_store w w.
Proof. repeat split. Qed.

Lemma same_store_trans w1 w2 w3 : same_store w1 w2 -> same_store w2 w3 -> same_store w1 w3.
Proof. unfold same_store. intros (?&?&?) (?&?&?). repeat split; congruence. Qed.

Lemma logBatchEvent_store batchId event data w :
  same_store w (snd (BatchProcessor.logBatchEvent env batchId event data w)).
Proof. destruct w. unfold same_store. crunch; repeat split. Qed.

Lemma processForm_store profile row w :
  same_store w (snd (BatchProcessor.processForm env profile row w)).
Proof.
  destruct w. unfold same_store. run_ops.
  destruct (Qltb _ _); run_ops; repeat split.
Qed.

Lemma scheduleBatchRun_current profile batchConfig w :
  disk_current env (snd (BatchProcessor.scheduleBatchRun env profile batchConfig w)).
Proof. destruct w as [h na b sf lf c em nu nc nf nr]. run_fs. unfold disk_current. cbn [state_files]. split; reflexivity. Qed.

Lemma executeBatch_start_current profile inputRows w :
  disk_current env w ->
  disk_current env (snd (BatchProcessor.executeBatch_start env profile inputRows w)).
Proof.
  destruct w as [h na b sf lf c em nu nc nf nr]. intros Hw. run_ops.
  destruct (List.find _ _); run_fs; [|exact Hw].
  unfold disk_current. cbn [state_files]. split; reflexivity.
Qed.

Lemma executeBatch_settle_current a idx row outcome results failures w :
  disk_current env (snd (BatchProcessor.executeBatch_settle env a idx row outcome results failures w)).
Proof.
  destruct w as [h na b sf lf c em nu nc nf nr]. destruct outcome; run_fs; unfold disk_current; cbn [state_files]; split; reflexivity.
Qed.

Lemma executeBatch_finish_current a inputRows results failures w :
  disk_current env (snd (BatchProcessor.executeBatch_finish env a inputRows results failures w)).
Proof.
  destruct w as [h na b sf lf c em nu nc nf nr]. run_fs. unfold disk_current. cbn [state_files]. split; reflexivity.
Qed.

Lemma handleBatchCompletion_current batchId summary w :
  disk_current env w ->
  disk_current env (snd (BatchProcessor.handleBatchCompletion env batchId summary w)).
Proof.
  destruct w as [h na b sf lf c em nu nc nf nr]. intros Hw. run_ops.
  destruct (Map_get _ _); run_fs; [|exact Hw].
  unfold disk_current. cbn [state_files]. split; reflexivity.
Qed.

Lemma retry_loop_store fuel failure maxAttempts retryDelay :
  forall attempt lastError w,
    same_store w (snd (BatchProcessor.retry_loop env fuel failure maxAttempts retryDelay
                         attempt lastError w)).
Proof.
  induction fuel as [|fuel IH]; intros attempt lastError w; cbn [BatchProcessor.retry_loop].
  - apply same_store_refl.
  - destruct (attempt <=? maxAttempts)%Z; [|apply same_store_refl].
    binds.
    pose proof (processForm_store (f_profile failure) (f_row failure) w) as Hp.
    destruct (fst (BatchProcessor.processForm env (f_profile failure) (f_row failure) w)).
    + exact Hp.
    + binds.
      eapply same_store_trans; [exact Hp|].
      eapply same_store_trans; [apply logBatchEvent_store|]. apply IH.
Qed.

Lemma retry_all_store maxAttempts retryDelay failures :
  forall finalResults newFailures w,
    same_store w (snd (BatchProcessor.retry_all env maxAttempts retryDelay failures
                         finalResults newFailures w)).
Proof.
  induction failures as [|failure rest IH]; intros finalResults newFailures w;
    cbn [BatchProcessor.retry_all].
  - apply same_store_refl.
  - rewrite bind_eq.
    pose proof (retry_loop_store
                  (BatchProcessor.retry_fuel maxAttempts
                     (if (f_attempt failure =? 0)%Z then 1%Z else f_attempt failure))
                  failure maxAttempts retryDelay
                  (if (f_attempt failure =? 0)%Z then 1%Z else f_attempt failure)
                  (f_error failure) w) as Hone.
    unfold BatchProcessor.retry_one.
    destruct (fst (BatchProcessor.retry_loop _ _ _ _ _ _ _ _)) as [[[result|] attempt] lastError];
      (eapply same_store_trans; [exact Hone|apply IH]).
Qed.

Lemma executeBatch_continue_current a inputRows idx rows results failures w :
  disk_current env w ->
  disk_current env
    (snd (BatchProcessor.executeBatch_continue env a inputRows idx rows results failures w)).
Proof.
  intros Hw. destruct rows as [|row rest].
  - rewrite continue_nil. binds. apply executeBatch_finish_current.
  - rewrite continue_cons. binds.
    eapply disk_current_same_store; [apply processForm_store|exact Hw].
Qed.

Lemma step_current act e :
  disk_current env (BatchProcessor.e_world e) ->
  disk_current env (BatchProcessor.e_world (BatchProcessor.step env act e)).
Proof.
  intros Hw. destruct act as [profile batchConfig|profile inputRows|n|batchId|batchId summary
                             |failures retryPolicy].
  - pose proof (scheduleBatchRun_current profile batchConfig (BatchProcessor.e_world e)) as H.
    cbn [BatchProcessor.step].
    destruct (BatchProcessor.scheduleBatchRun env profile batchConfig (BatchProcessor.e_world e)).
    exact H.
  - rewrite step_executeBatch_eq.
    pose proof (executeBatch_start_current profile inputRows _ Hw) as H1.
    destruct (fst (BatchProcessor.executeBatch_start env profile inputRows
                     (BatchProcessor.e_world e))) as [a|err]; [|exact H1].
    pose proof (executeBatch_continue_current a inputRows 0 inputRows [] [] _ H1) as H2.
    destruct (fst (BatchProcessor.executeBatch_continue env a inputRows 0 inputRows [] [] _));
      exact H2.
  - cbn [BatchProcessor.step].
    destruct (nth_error (BatchProcessor.e_inflight e) n) as [t|]; [|exact Hw].
    pose proof (executeBatch_settle_current
                  (BatchProcessor.t_entry t) (BatchProcessor.t_idx t) (BatchProcessor.t_row t)
                  (BatchProcessor.t_pending t) (BatchProcessor.t_results t)
                  (BatchProcessor.t_failures t) (BatchProcessor.e_world e)) as H1.
    destruct (BatchProcessor.executeBatch_settle env _ _ _ _ _ _ _) as [acc w1].
    cbn [snd] in H1.
    pose proof (executeBatch_continue_current
                  (BatchProcessor.t_entry t) (BatchProcessor.t_inputRows t)
                  (S (BatchProcessor.t_idx t)) (BatchProcessor.t_rest t) (fst acc) (snd acc)
                  w1 H1) as H2.
    destruct (BatchProcessor.executeBatch_continue env _ _ _ _ _ _ _) as [[task|r] w2];
      exact H2.
  - pose proof (trackBatchProgress_world batchId (BatchProcessor.e_world e)) as H.
    cbn [BatchProcessor.step].
    destruct (BatchProcessor.trackBatchProgress batchId (BatchProcessor.e_world e)).
    cbn [snd] in H. subst. exact Hw.
  - pose proof (handleBatchCompletion_current batchId summary _ Hw) as H.
    cbn [BatchProcessor.step].
    destruct (BatchProcessor.handleBatchCompletion env batchId summary _). exact H.
  - pose proof (retry_all_store (num_or (maxAttempts retryPolicy) 3)
                  (num_or (retryDelayMs retryPolicy) 1000) failures [] []
                  (BatchProcessor.e_world e)) as H.
    cbn [BatchProcessor.step]. unfold BatchProcessor.retryFailedSubmissions.
    destruct (BatchProcessor.retry_all env _ _ _ _ _ _).
    eapply disk_current_same_store; [exact H|exact Hw].
Qed.

(** X1: with a file system that accepts every write, the state file on disk
    is, between any two steps of the engine, the registry as it is in memory:
    the same keys in the same order, each with the data of its batch. *)
Theorem state_file_is_current (acts : list BatchProcessor.Action) :
  let w := BatchProcessor.e_world (BatchProcessor.run env acts BatchProcessor.fresh_engine) in
  match state_files w with
  | [] => batches w = []
  | (path, content) :: _ =>
      path = BatchProcessor.BATCH_STATE_FILE env /\ content = entries_snapshot w
  end.
Proof.
  cbv zeta. change (disk_current env
                      (BatchProcessor.e_world
                         (BatchProcessor.run env acts BatchProcessor.fresh_engine))).
  assert (forall e, disk_current env (BatchProcessor.e_world e) ->
                    disk_current env (BatchProcessor.e_world (BatchProcessor.run env acts e)))
    as Hrun.
  { induction acts as [|act acts IH]; intros e He; [exact He|].
    rewrite run_cons. apply IH. now apply step_current. }
  apply Hrun. reflexivity.
Qed.

End Durability.

Section StateFile.

Lemma Map_set_new k a m :
  ~ In k (List.map fst m) -> Map_set k a m = m ++ [(k, a)].
Proof.
  induction m as [|[k' a'] m IH]; cbn; intros Hk; [reflexivity|].
  destruct (k' =? k)%string eqn:E.
  - apply String.eqb_eq in E. subst. exfalso. apply Hk. now left.
  - rewrite IH; [reflexivity|]. intros Hin. apply Hk. now right.
Qed.

Lemma load_entries_snapshot entries :
  forall w,
    List.NoDup (List.map fst entries) ->
    (forall k, In k (List.map fst entries) -> ~ In k (List.map fst (batches w))) ->
    (forall a, In a (List.map snd (batches w)) -> (a < next_addr w)%nat) ->
    entries_snapshot
      (snd (for_each entries (fun kv => a <- new_object (snd kv) ;; batches_set (fst kv) a) w))
    = entries_snapshot w ++ entries.
Proof.
  induction entries as [|[k b] entries IH]; intros w Hnd Hfresh Hbound; cbn [for_each].
  - rewrite ret_eq. cbn [snd]. now rewrite app_nil_r.
  - rewrite !bind_eq.
    destruct w as [h na bs sf lf c em nu nc nf nr].
    cbn [new_object batches_set fst snd heap next_addr batches state_files log_files console
           emitted n_uuid n_clock n_fs n_random] in *.
    inversion Hnd as [|k' ks Hk Hnd']; subst.
    rewrite IH; cbn [batches next_addr heap].
    + unfold entries_snapshot. cbn [batches heap].
      rewrite Map_set_new by (apply Hfresh; now left).
      rewrite List.map_app. cbn [List.map fst snd]. rewrite heap_update_eq.
      rewrite <- app_assoc. cbn [app]. f_equal.
      apply List.map_ext_in. intros [k' a'] Hin. cbn [fst snd].
      rewrite heap_update_neq; [reflexivity|].
      assert (a' < na)%nat; [|lia].
      apply Hbound. change a' with (snd (k', a')). now apply List.in_map.
    + exact Hnd'.
    + intros k' Hk' Hin.
      rewrite Map_set_new in Hin by (apply Hfresh; now left).
      rewrite List.map_app in Hin. apply in_app_or in Hin. destruct Hin as [Hin|[<-|[]]].
      * apply (Hfresh k'); [now right|exact Hin].
      * contradiction.
    + intros a Ha. apply Map_set_values in Ha. destruct Ha as [->|Ha]; [lia|].
      apply Hbound in Ha. lia.
Qed.

(** X2: what [persistBatchState] writes, a new process that starts in the
    same directory reads back with [loadBatchState]: its registry has the
    same keys in the same order, each bound to a batch with the same data. *)
Theorem persist_load_round_trip (env env' : Env) (w : World) :
  List.NoDup (List.map fst (batches w)) ->
  fs_ok_at env (n_fs w) = true ->
  dirname env' = dirname env ->
  fs_ok_at env' 0 = true ->
  let disk := state_files (snd (BatchProcessor.persistBatchState env w)) in
  entries_snapshot (snd (BatchProcessor.loadBatchState env' (boot_world disk)))
  = entries_snapshot w.
Proof.
  intros Hnd Hwrite Hdir Hread. cbv zeta.
  assert (state_files (snd (BatchProcessor.persistBatchState env w))
          = (BatchProcessor.BATCH_STATE_FILE env, entries_snapshot w) :: state_files w) as ->.
  { destruct w as [h na bs sf lf c em nu nc nf nr]. cbn [n_fs] in Hwrite.
    run_ops. rewrite Hwrite. run_ops. reflexivity. }
  unfold BatchProcessor.loadBatchState, fs_read_batches, BatchProcessor.BATCH_STATE_FILE.
  rewrite bind_eq, Hdir.
  cbn [boot_world state_files List.find fst snd n_fs].
  rewrite String.eqb_refl. cbn [fst snd]. rewrite Hread.
  rewrite load_entries_snapshot.
  - reflexivity.
  - unfold entries_snapshot. rewrite List.map_map. cbn [fst]. exact Hnd.
  - intros k _ [].
  - intros a [].
Qed.

(** X3: when the state file is there but cannot be read, the process starts
    with an empty registry and a warning on the console; the next
    [scheduleBatchRun] then writes a state file that holds the new batch
    alone, in place of the batches the unread file recorded. *)
Theorem unreadable_state_file_is_replaced (env : Env)
  (entries : list (BatchId * Batch)) (older : list (string * list (BatchId * Batch)))
  (profile : Profile) (batchConfig : BatchConfig) :
  fs_ok_at env 0 = false ->
  fs_ok_at env 1 = true ->
  let files := (BatchProcessor.BATCH_STATE_FILE env, entries) :: older in
  let w1 := snd (BatchProcessor.loadBatchState env (boot_world files)) in
  let out := BatchProcessor.scheduleBatchRun env profile batchConfig w1 in
  batches w1 = [] /\
  console w1 = ["Could not load batch state: EACCES"] /\
  exists batch,
    state_files (snd out) = (BatchProcessor.BATCH_STATE_FILE env, [(fst out, batch)]) :: files /\
    b_id batch = fst out /\ b_profile batch = profile /\ b_status batch = Scheduled.
Proof.
  intros Hread Hwrite. cbv zeta.
  unfold BatchProcessor.loadBatchState, fs_read_batches.
  rewrite bind_eq.
  cbn [boot_world state_files List.find fst snd n_fs].
  rewrite String.eqb_refl. cbn [fst snd]. rewrite Hread.
  cbn [console_log snd batches console heap next_addr state_files log_files emitted
         n_uuid n_clock n_fs n_random app err_message Error].
  split; [reflexivity|]. split; [reflexivity|].
  run_ops. rewrite Hwrite. run_ops. split_fs; run_ops;
    (eexists; split; [reflexivity|]; rewrite ?heap_update_eq; repeat split).
Qed.

End StateFile.

Section RetryMore.

Variable env : Env.

Lemma retry_loop_result fuel failure maxAttempts retryDelay :
  forall attempt lastError w result attempt' lastError',
    fst (BatchProcessor.retry_loop env fuel failure maxAttempts retryDelay attempt lastError w)
    = (Some result, attempt', lastError') ->
    result = success_of (f_profile failure) (f_row failure).
Proof.
  induction fuel as [|fuel IH]; intros attempt lastError w result attempt' lastError';
    cbn [BatchProcessor.retry_loop].
  - rewrite ret_eq. discriminate.
  - destruct (attempt <=? maxAttempts)%Z; [|rewrite ret_eq; discriminate].
    binds. rewrite processForm_outcome.
    destruct (Qltb _ _).
    + rewrite ret_eq, fst_pair. now intros [= <- _ _].
    + binds. apply IH.
Qed.

Lemma retry_loop_gives_up fuel failure maxAttempts retryDelay :
  forall attempt lastError w attempt' lastError',
    fuel = BatchProcessor.retry_fuel maxAttempts attempt ->
    fst (BatchProcessor.retry_loop env fuel failure maxAttempts retryDelay attempt lastError w)
    = (None, attempt', lastError') ->
    (maxAttempts < attempt')%Z /\ (attempt <= attempt')%Z.
Proof.
  unfold BatchProcessor.retry_fuel.
  induction fuel as [|fuel IH]; intros attempt lastError w attempt' lastError' Hfuel;
    cbn [BatchProcessor.retry_loop].
  - rewrite ret_eq, fst_pair. intros [= <- _]. lia.
  - destruct (attempt <=? maxAttempts)%Z eqn:Hle.
    + binds. destruct (fst (BatchProcessor.processForm env _ _ w)).
      * rewrite ret_eq, fst_pair. discriminate.
      * binds. intros H. apply IH in H; [lia|]. apply Z.leb_le in Hle. lia.
    + rewrite ret_eq, fst_pair. intros [= <- _]. apply Z.leb_gt in Hle. lia.
Qed.

Lemma retry_all_rows maxAttempts retryDelay failures :
  forall finalResults newFailures w,
    exists mask kept,
      length mask = length failures /\
      fst (BatchProcessor.retry_all env maxAttempts retryDelay failures finalResults newFailures w)
      = mkRetryResult
          (finalResults
           ++ List.map (fun f => success_of (f_profile f) (f_row f)) (select mask failures))
          (newFailures ++ kept) /\
      Forall2 (fun f f' => f_row f' = f_row f /\ f_profile f' = f_profile f /\
                           (maxAttempts < f_attempt f')%Z /\
                           ((if (f_attempt f =? 0)%Z then 1 else f_attempt f) <= f_attempt f')%Z)
              (select (List.map negb mask) failures) kept.
Proof.
  induction failures as [|failure rest IH]; intros finalResults newFailures w;
    cbn [BatchProcessor.retry_all].
  - exists [], []. rewrite ret_eq. cbn. rewrite !app_nil_r. repeat split. constructor.
  - rewrite bind_eq. unfold BatchProcessor.retry_one.
    destruct (fst (BatchProcessor.retry_loop env _ failure maxAttempts retryDelay _ _ w))
      as [[[result|] attempt] lastError] eqn:Hone.
    + apply retry_loop_result in Hone. subst result.
      destruct (IH (finalResults ++ [success_of (f_profile failure) (f_row failure)])
                   newFailures
                   (snd (BatchProcessor.retry_loop env
                           (BatchProcessor.retry_fuel maxAttempts
                              (if (f_attempt failure =? 0)%Z then 1%Z else f_attempt failure))
                           failure maxAttempts retryDelay
                           (if (f_attempt failure =? 0)%Z then 1%Z else f_attempt failure)
                           (f_error failure) w)))
        as (mask & kept & Hlen & Hfst & Hkept).
      exists (true :: mask), kept. cbn [length List.map select negb].
      rewrite Hfst, <- app_assoc. cbn [app]. repeat split; auto.
    + apply retry_loop_gives_up in Hone; [|reflexivity].
      destruct (IH finalResults
                   (newFailures ++ [mkFailure (f_row failure) (f_profile failure) lastError attempt])
                   (snd (BatchProcessor.retry_loop env
                           (BatchProcessor.retry_fuel maxAttempts
                              (if (f_attempt failure =? 0)%Z then 1%Z else f_attempt failure))
                           failure maxAttempts retryDelay
                           (if (f_attempt failure =? 0)%Z then 1%Z else f_attempt failure)
                           (f_error failure) w)))
        as (mask & kept & Hlen & Hfst & Hkept).
      exists (false :: mask),
        (mkFailure (f_row failure) (f_profile failure) lastError attempt :: kept).
      cbn [length List.map select negb].
      rewrite Hfst, <- app_assoc. cbn [app].
      split; [now f_equal|]. split; [reflexivity|].
      constructor; [|exact Hkept]. cbn. repeat split; lia.
Qed.


(** X8: retrying a list in two parts, one after the other, gives what
    retrying the whole list gives. *)
Theorem retryFailedSubmissions_app
  (failures1 failures2 : list FailureRecord) (retryPolicy : RetryPolicy) (w : World) :
  let out1 := BatchProcessor.retryFailedSubmissions env failures1 retryPolicy w in
  let out2 := BatchProcessor.retryFailedSubmissions env failures2 retryPolicy (snd out1) in
  BatchProcessor.retryFailedSubmissions env (failures1 ++ failures2) retryPolicy w
  = (mkRetryResult (rr_succeeded (fst out1) ++ rr_succeeded (fst out2))
                   (rr_failures (fst out1) ++ rr_failures (fst out2)),
     snd out2).
Proof.
  cbv zeta. unfold BatchProcessor.retryFailedSubmissions.
  rewrite retry_all_app. now rewrite retry_all_acc.
Qed.

Lemma retry_all_exhausted maxAttempts retryDelay failures :
  Forall (fun f => (maxAttempts < f_attempt f)%Z /\ f_attempt f <> 0%Z) failures ->
  forall finalResults newFailures w,
    BatchProcessor.retry_all env maxAttempts retryDelay failures finalResults newFailures w
    = (mkRetryResult finalResults (newFailures ++ failures), w).
Proof.
  induction 1 as [|failure rest [Hgt Hnz] _ IH]; intros finalResults newFailures w;
    cbn [BatchProcessor.retry_all].
  - rewrite ret_eq. now rewrite app_nil_r.
  - rewrite bind_eq. unfold BatchProcessor.retry_one, BatchProcessor.retry_fuel.
    apply Z.eqb_neq in Hnz. rewrite Hnz.
    assert (Z.to_nat (maxAttempts + 1 - f_attempt failure) = 0%nat) as -> by lia.
    cbn [BatchProcessor.retry_loop]. rewrite ret_eq, fst_pair, snd_pair.
    rewrite IH, <- app_assoc. destruct failure. reflexivity.
Qed.

(** X9: the failures [retryFailedSubmissions] returns have used up their
    attempts: given to it again under the same policy (with [maxAttempts]
    not negative), they come back as they are, with no call of the processor,
    no log line and no other effect. *)
Theorem retryFailedSubmissions_again
  (failures : list FailureRecord) (retryPolicy : RetryPolicy) (w : World) :
  (0 <= num_or (maxAttempts retryPolicy) 3)%Z ->
  let out := BatchProcessor.retryFailedSubmissions env failures retryPolicy w in
  BatchProcessor.retryFailedSubmissions env (rr_failures (fst out)) retryPolicy (snd out)
  = (mkRetryResult [] (rr_failures (fst out)), snd out).
Proof.
  intros Hmax. cbv zeta.
  unfold BatchProcessor.retryFailedSubmissions.
  destruct (retry_all_rows (num_or (maxAttempts retryPolicy) 3)
              (num_or (retryDelayMs retryPolicy) 1000) failures [] [] w)
    as (mask & kept & _ & Hfst & Hkept).
  rewrite Hfst. cbn [rr_failures app].
  apply retry_all_exhausted.
  clear Hfst. revert Hkept. generalize (select (List.map negb mask) failures).
  induction kept as [|f' kept IH]; intros l Hkept; [constructor|].
  inversion Hkept as [|f ? l' ? (_ & _ & Hgt & _) Hrest]; subst.
  constructor; [split; lia|]. now apply (IH l').
Qed.

End RetryMore.

Section BatchOutcome.

Variable env : Env.

Lemma progress_trace_snapshots batchId mask :
  forall p,
    exists snapshots,
      progress_trace batchId p mask = List.map (progress batchId) snapshots /\
      length snapshots = length mask /\
      forall k q, nth_error snapshots k = Some q ->
        p_total q = p_total p /\
        p_processed q = (p_processed p + Z.of_nat (S k))%Z /\
        (p_succeeded q + p_failed q - p_processed q
         = p_succeeded p + p_failed p - p_processed p)%Z.
Proof.
  induction mask as [|ok mask IH]; intros p.
  - exists []. split; [reflexivity|]. split; [reflexivity|]. intros [|k] q; discriminate.
  - destruct (IH (count_row ok p)) as (snapshots & Htrace & Hlen & Hnth).
    exists (count_row ok p :: snapshots). cbn [progress_trace List.map length].
    rewrite Htrace, Hlen. split; [reflexivity|]. split; [reflexivity|].
    intros [|k] q H; cbn [nth_error] in H.
    + injection H as <-. destruct ok; cbn; repeat split; lia.
    + apply Hnth in H. destruct H as (H1 & H2 & H3). rewrite H1, H2.
      destruct ok; cbn in *; repeat split; lia.
Qed.


(** X5: the batch [executeBatch] ran ends [completed] exactly when no row
    failed and [failed] otherwise; it stores the failures the call returns,
    and its summary counts the rows, the results and the failures. *)
Theorem executeBatch_final_state
  (profile : Profile) (inputRows : list Row) (w : World) (a : nat) :
  List.find (fun a => scheduled_for profile (heap w a)) (List.map snd (batches w)) = Some a ->
  b_progress (heap w a) = mkProgress 0 0 0 0 ->
  let out := BatchProcessor.executeBatch env profile inputRows w in
  exists r completedAt,
    fst out = Returned r /\
    b_failures (heap (snd out) a) = r_failures r /\
    b_status (heap (snd out) a)
    = match r_failures r with [] => Completed | _ :: _ => Failed end /\
    b_summary (heap (snd out) a)
    = Some (mkSummary (Z.of_nat (length inputRows))
                      (Z.of_nat (length (r_results r)))
                      (Z.of_nat (length (r_failures r))) completedAt).
Proof.
  intros Hfind Hzero. cbv zeta.
  destruct (executeBatch_outcome env profile inputRows w a Hfind)
    as (mask & completedAt & Hlen & Hfst & Hfail & Hst & _ & Hsum & _).
  eexists _, completedAt. split; [exact Hfst|]. cbn [r_failures r_results].
  split; [exact Hfail|]. split.
  - rewrite Hst. now destruct (List.map (failure_of profile) _).
  - rewrite Hsum. rewrite Hzero.
    pose proof (fold_count_row mask (set_total (Z.of_nat (length inputRows)) (mkProgress 0 0 0 0)))
      as H. cbv zeta in H. destruct H as (_ & _ & H3 & H4).
    destruct (select_length mask inputRows Hlen) as [L1 L2].
    rewrite H3, H4, !length_map, L1, L2. reflexivity.
Qed.

(** X6: the events of an uninterrupted [executeBatch] on a batch with
    fresh counters: [batchStarted], then one [progress] event per row, the
    k-th of them (from 1) reporting [processed = k] of [total] rows with
    [succeeded + failed = processed], then [batchCompleted] with the summary
    the batch keeps.  An empty input gives the first and the last alone. *)
Theorem executeBatch_events
  (profile : Profile) (inputRows : list Row) (w : World) (a : nat) :
  List.find (fun a => scheduled_for profile (heap w a)) (List.map snd (batches w)) = Some a ->
  b_progress (heap w a) = mkProgress 0 0 0 0 ->
  let out := BatchProcessor.executeBatch env profile inputRows w in
  exists snapshots,
    emitted (snd out)
    = emitted w
      ++ batchStarted (b_id (heap w a))
      :: List.map (progress (b_id (heap w a))) snapshots
      ++ [batchCompleted (b_id (heap w a)) (b_summary (heap (snd out) a))] /\
    length snapshots = length inputRows /\
    forall k q, nth_error snapshots k = Some q ->
      p_total q = Z.of_nat (length inputRows) /\
      p_processed q = Z.of_nat (S k) /\
      (p_succeeded q + p_failed q = p_processed q)%Z.
Proof.
  intros Hfind Hzero. cbv zeta.
  destruct (executeBatch_outcome env profile inputRows w a Hfind)
    as (mask & completedAt & Hlen & _ & _ & _ & _ & Hsum & Hem).
  rewrite Hzero in *.
  destruct (progress_trace_snapshots (b_id (heap w a)) mask
              (set_total (Z.of_nat (length inputRows)) (mkProgress 0 0 0 0)))
    as (snapshots & Htrace & Hlen' & Hnth).
  exists snapshots. rewrite Hem, Hsum, Htrace. split; [reflexivity|].
  split; [congruence|].
  intros k q Hq. apply Hnth in Hq. cbn in Hq. destruct Hq as (H1 & H2 & H3).
  repeat split; lia.
Qed.

End BatchOutcome.

Section UnknownId.

Variable env : Env.

Lemma Map_get_absent k m : ~ In k (List.map fst m) -> Map_get k m = None.
Proof.
  induction m as [|[k' a'] m IH]; cbn; intros Hk; [reflexivity|].
  destruct (k' =? k)%string eqn:E.
  - apply String.eqb_eq in E. subst. exfalso. apply Hk. now left.
  - apply IH. intros Hin. apply Hk. now right.
Qed.

Lemma continue_batches a inputRows idx rows results failures w :
  batches (snd (BatchProcessor.executeBatch_continue env a inputRows idx rows results failures w))
  = batches w.
Proof.
  destruct rows as [|row rest].
  - rewrite continue_nil. binds.
    pose proof (executeBatch_finish_spec env a inputRows results failures w) as H.
    cbv zeta in H. apply H.
  - rewrite continue_cons. binds.
    pose proof (processForm_core env (b_profile (heap w a)) row w) as H. apply H.
Qed.

(** A step leaves the keys of the registry alone, or adds the identifier
    [uuidv4] has just returned. *)
Lemma step_keys act e k :
  In k (List.map fst (batches (BatchProcessor.e_world (BatchProcessor.step env act e)))) ->
  In k (List.map fst (batches (BatchProcessor.e_world e))) \/ exists i, k = uuid_at env i.
Proof.
  destruct act as [profile batchConfig|profile inputRows|n|batchId|batchId summary
                  |failures retryPolicy].
  - pose proof (scheduleBatchRun_spec env profile batchConfig (BatchProcessor.e_world e)) as H.
    cbv zeta in H. cbn [BatchProcessor.step].
    destruct (BatchProcessor.scheduleBatchRun env profile batchConfig (BatchProcessor.e_world e))
      as [batchId w'].
    cbn [fst snd BatchProcessor.e_world] in *.
    destruct H as (Hid & _ & _ & _ & _ & _ & _ & Hmap & _). rewrite Hmap.
    intros Hin. apply Map_set_keys in Hin. destruct Hin as [->|Hin]; [right|now left].
    now exists (n_uuid (BatchProcessor.e_world e)).
  - rewrite step_executeBatch_eq.
    destruct (List.find (fun a => scheduled_for profile (heap (BatchProcessor.e_world e) a))
                        (List.map snd (batches (BatchProcessor.e_world e)))) as [a|] eqn:Hfind.
    + pose proof (executeBatch_start_some env profile inputRows _ a Hfind) as H.
      cbv zeta in H. destruct H as (-> & _ & Hmap & _).
      pose proof (continue_batches a inputRows 0 inputRows [] []
                    (snd (BatchProcessor.executeBatch_start env profile inputRows
                            (BatchProcessor.e_world e)))) as Hc.
      destruct (fst (BatchProcessor.executeBatch_continue env a inputRows 0 inputRows [] [] _));
        cbn [BatchProcessor.e_world]; rewrite Hc, Hmap; now left.
    + rewrite (executeBatch_start_none env profile inputRows _ Hfind).
      cbn [fst snd BatchProcessor.e_world]. now left.
  - cbn [BatchProcessor.step].
    destruct (nth_error (BatchProcessor.e_inflight e) n) as [t|]; [|now left].
    pose proof (executeBatch_settle_spec env
                  (BatchProcessor.t_entry t) (BatchProcessor.t_idx t) (BatchProcessor.t_row t)
                  (BatchProcessor.t_pending t) (BatchProcessor.t_results t)
                  (BatchProcessor.t_failures t) (BatchProcessor.e_world e)) as H.
    cbv zeta in H. destruct H as (_ & Hmap & _).
    destruct (BatchProcessor.executeBatch_settle env _ _ _ _ _ _ _) as [acc w1].
    cbn [snd] in Hmap.
    pose proof (continue_batches
                  (BatchProcessor.t_entry t) (BatchProcessor.t_inputRows t)
                  (S (BatchProcessor.t_idx t)) (BatchProcessor.t_rest t) (fst acc) (snd acc)
                  w1) as Hc.
    destruct (BatchProcessor.executeBatch_continue env _ _ _ _ _ _ _) as [[task|r] w2];
      cbn [snd BatchProcessor.e_world] in *; rewrite Hc, Hmap; now left.
  - pose proof (trackBatchProgress_world batchId (BatchProcessor.e_world e)) as H.
    cbn [BatchProcessor.step].
    destruct (BatchProcessor.trackBatchProgress batchId (BatchProcessor.e_world e)).
    cbn [snd BatchProcessor.e_world] in *. subst. now left.
  - cbn [BatchProcessor.step].
    destruct (Map_get batchId (batches (BatchProcessor.e_world e))) as [a|] eqn:Hget.
    + pose proof (handleBatchCompletion_some env batchId summary _ a Hget) as H.
      cbv zeta in H. destruct H as (_ & Hmap & _).
      destruct (BatchProcessor.handleBatchCompletion env batchId summary _).
      cbn [snd BatchProcessor.e_world] in *. rewrite Hmap. now left.
    + rewrite (handleBatchCompletion_none env batchId summary _ Hget).
      cbn [BatchProcessor.e_world]. now left.
  - pose proof (retryFailedSubmissions_core env failures retryPolicy (BatchProcessor.e_world e))
      as (_ & _ & Hmap & _).
    cbn [BatchProcessor.step].
    destruct (BatchProcessor.retryFailedSubmissions env failures retryPolicy _).
    cbn [snd BatchProcessor.e_world] in *. rewrite Hmap. now left.
Qed.

Lemma run_keys acts :
  forall e k,
    In k (List.map fst (batches (BatchProcessor.e_world (BatchProcessor.run env acts e)))) ->
    In k (List.map fst (batches (BatchProcessor.e_world e))) \/ exists i, k = uuid_at env i.
Proof.
  induction acts as [|act acts IH]; intros e k Hin; [now left|].
  rewrite run_cons in Hin. apply IH in Hin. destruct Hin as [Hin|Hin]; [|now right].
  now apply step_keys in Hin.
Qed.

(** X10: the registry only ever holds identifiers that [uuidv4] returned.
    For any other id, whatever ran before, [trackBatchProgress] answers
    [null] and [handleBatchCompletion] does nothing at all: no batch is
    touched, nothing is written or logged, no event is emitted. *)
Theorem unknown_batch_id_is_ignored
  (acts : list BatchProcessor.Action) (batchId : BatchId) (summary : option Summary) :
  (forall i, uuid_at env i <> batchId) ->
  let w := BatchProcessor.e_world (BatchProcessor.run env acts BatchProcessor.fresh_engine) in
  BatchProcessor.trackBatchProgress batchId w = (None, w) /\
  BatchProcessor.handleBatchCompletion env batchId summary w = (tt, w).
Proof.
  intros Hnew. cbv zeta.
  assert (Map_get batchId
            (batches (BatchProcessor.e_world
                        (BatchProcessor.run env acts BatchProcessor.fresh_engine))) = None)
    as Hget.
  { apply Map_get_absent. intros Hin. apply run_keys in Hin.
    destruct Hin as [[]|[i Hi]]. now apply (Hnew i). }
  split.
  - unfold BatchProcessor.trackBatchProgress, batches_get. rewrite bind_eq.
    cbn [fst snd]. now rewrite Hget.
  - now apply handleBatchCompletion_none.
Qed.

End UnknownId.

(** ** Form detection: visibility, mapping rules, the clusterer *)

Section VisibilityMore.

Lemma isHidden_walk_agree :
  forall node,
    match FormDetectionEngine.isHidden_walk node with
    | Returned hidden => AutomationCoreForms.isHidden_walk node = hidden
    | Thrown _ => AutomationCoreForms.isHidden_walk node = true
    end.
Proof.
  fix IH 1. intros [ty doc st cls aria parent].
  cbn [FormDetectionEngine.isHidden_walk AutomationCoreForms.isHidden_walk
         nodeType ownerDocument parentElement].
  destruct (negb (ty =? 1)%Z); [reflexivity|].
  destruct doc as [[[view|]]|]; try reflexivity.
  cbn [defaultView getComputedStyle computed classList aria_hidden].
  unfold AutomationCoreForms.FORM_IGNORE_CLASSES, FormDetectionEngine.FORM_IGNORE_CLASSES.
  match goal with |- context [if ?c then Returned true else _] => destruct c end;
    [reflexivity|].
  destruct parent as [p|]; [apply IH|reflexivity].
Qed.

(** X13: the two copies of [isHidden] agree wherever the one of
    src/form-detection-engine.js returns; where that one throws, on a
    detached element met on the way up, the copy of automation-core.js
    returns [true]. *)
Theorem isHidden_copies_agree (el : option Node) :
  match FormDetectionEngine.isHidden el with
  | Returned hidden => AutomationCoreForms.isHidden el = hidden
  | Thrown _ => AutomationCoreForms.isHidden el = true
  end.
Proof.
  destruct el as [node|]; [|reflexivity]. apply isHidden_walk_agree.
Qed.

(** X14: hiding is inherited.  An element of a document with a view whose
    parent is hidden is hidden, in both copies. *)
Theorem isHidden_inherited (node parent : Node) :
  attached_element node ->
  parentElement node = Some parent ->
  FormDetectionEngine.isHidden (Some parent) = Returned true ->
  FormDetectionEngine.isHidden (Some node) = Returned true /\
  AutomationCoreForms.isHidden (Some node) = true.
Proof.
  intros (Hty & doc & view & Hdoc & Hview) Hparent Hhidden.
  assert (FormDetectionEngine.isHidden (Some node) = Returned true) as H.
  { destruct node as [ty d st cls aria par]. cbn in *. subst.
    cbn. rewrite Hview.
    match goal with |- context [if ?c then Returned true else _] => destruct c end;
      [reflexivity|exact Hhidden]. }
  split; [exact H|].
  pose proof (isHidden_walk_agree node) as Hc. cbn in H. now rewrite H in Hc.
Qed.

End VisibilityMore.

Section MappingCopies.




Lemma suggest_one_function_rule_throws rule rest field :
  is_function_rule rule = true ->
  truthy (fld_name field) || truthy (fld_id field) || truthy (fld_label field) = true ->
  AutomationCoreMappings.suggest_one (Some (rule :: rest)) field
  = Thrown (TypeError "rule.fieldMatch.test is not a function").
Proof.
  unfold is_function_rule, AutomationCoreMappings.suggest_one.
  cbn [AutomationCoreMappings.bestMatch_of].
  unfold AutomationCoreMappings.rule_matches, AutomationCoreMappings.test_on.
  destruct (FormDetectionEngine.fieldMatch rule) as [|fn|test]; try discriminate. intros _.
  destruct (truthy (fld_name field)), (truthy (fld_id field)), (truthy (fld_label field));
    cbn [orb]; intros H; try discriminate; reflexivity.
Qed.

Lemma suggest_one_function_rule rule rest field :
  is_function_rule rule = true ->
  AutomationCoreMappings.suggest_one (Some (rule :: rest)) field
  = Thrown (TypeError "rule.fieldMatch.test is not a function")
  \/ exists s, AutomationCoreMappings.suggest_one (Some (rule :: rest)) field = Returned s.
Proof.
  intros Hrule.
  destruct (truthy (fld_name field) || truthy (fld_id field) || truthy (fld_label field))
    eqn:Hnamed.
  - left. now apply suggest_one_function_rule_throws.
  - right. apply orb_false_elim in Hnamed. destruct Hnamed as [Hnamed Hlabel].
    apply orb_false_elim in Hnamed. destruct Hnamed as [Hname Hid].
    assert (forall r, exists b, AutomationCoreMappings.rule_matches r field = Returned b) as Hone.
    { intros r. unfold AutomationCoreMappings.rule_matches, AutomationCoreMappings.test_on.
      rewrite Hname, Hid, Hlabel. eexists. reflexivity. }
    assert (forall rs, exists o, AutomationCoreMappings.bestMatch_of rs field = Returned o) as Hall.
    { induction rs as [|r rs IH]; cbn [AutomationCoreMappings.bestMatch_of].
      - eexists. reflexivity.
      - destruct (Hone r) as [b ->]. destruct b; [eexists; reflexivity|exact IH]. }
    unfold AutomationCoreMappings.suggest_one.
    destruct (Hall (rule :: rest)) as [o ->]. destruct o; eexists; reflexivity.
Qed.

(** X16: in automation-core.js a rule list that starts with a function
    matcher makes [suggestMappings] throw a [TypeError] as soon as one of the
    fields has a name, an id or a label: the copy calls
    [rule.fieldMatch.test] before it asks whether the matcher is a function.
    (The version of src/form-detection-engine.js calls the function.) *)
Theorem suggestMappings_function_rule_throws
  (formFields : list FieldDescriptor) (field : FieldDescriptor)
  (rule : FormDetectionEngine.MappingRule) (rest : list FormDetectionEngine.MappingRule) :
  In field formFields ->
  truthy (fld_name field) || truthy (fld_id field) || truthy (fld_label field) = true ->
  is_function_rule rule = true ->
  AutomationCoreMappings.suggestMappings formFields (Some (rule :: rest))
  = Thrown (TypeError "rule.fieldMatch.test is not a function").
Proof.
  intros Hin Hnamed Hrule.
  induction formFields as [|f fs IH]; [destruct Hin|].
  cbn [AutomationCoreMappings.suggestMappings].
  destruct Hin as [->|Hin].
  - now rewrite (suggest_one_function_rule_throws rule rest field Hrule Hnamed).
  - destruct (suggest_one_function_rule rule rest f Hrule) as [->|[s ->]]; [reflexivity|].
    now rewrite (IH Hin).
Qed.

End MappingCopies.

Section ClustererMore.

Lemma filter_visible_spec controls :
  forall kept,
    FormDetectionEngine.filter_visible controls = Returned kept ->
    kept = List.filter (fun el => negb (AutomationCoreForms.isHidden (Some (el_node el)))
                                  && negb (el_disabled el)) controls /\
    Forall (fun el => FormDetectionEngine.isHidden (Some (el_node el)) = Returned false /\
                      el_disabled el = false) kept.
Proof.
  induction controls as [|el rest IH]; intros kept; cbn [FormDetectionEngine.filter_visible].
  - intros [= <-]. split; [reflexivity|constructor].
  - pose proof (isHidden_walk_agree (el_node el)) as Hagree.
    cbn [FormDetectionEngine.isHidden AutomationCoreForms.isHidden List.filter] in *.
    destruct (FormDetectionEngine.isHidden_walk (el_node el)) as [hidden|e] eqn:Hh;
      [|discriminate].
    destruct (FormDetectionEngine.filter_visible rest) as [kept'|e]; [|discriminate].
    destruct (IH kept' eq_refl) as [-> Hall]. rewrite Hagree. intros [= <-].
    split; [reflexivity|].
    destruct hidden; cbn [negb andb]; [exact Hall|].
    destruct (el_disabled el) eqn:Hd; cbn [negb]; [exact Hall|].
    constructor; [split; [exact Hh|exact Hd]|exact Hall].
Qed.



Lemma sort_by_top_length els : length (sort_by_top els) = length els.
Proof.
  unfold sort_by_top. induction els as [|el els IH]; cbn [List.fold_right]; [reflexivity|].
  assert (forall l, length (sort_insert el l) = S (length l)) as H.
  { induction l as [|y l IHl]; cbn [sort_insert]; [reflexivity|].
    destruct (Qle_bool _ _); cbn [length]; [reflexivity|]. now rewrite IHl. }
  rewrite H, IH. reflexivity.
Qed.










Lemma mapi_from_fields (f : list Element -> nat -> FormDescriptor) (l : list (list Element)) :
  (forall c i, form_fields (f c i) = List.map cluster_field c) ->
  forall idx, List.map form_fields (mapi_from f idx l) = List.map (List.map cluster_field) l.
Proof.
  intros Hf. induction l as [|c l IH]; intros idx; cbn [mapi_from List.map]; [reflexivity|].
  now rewrite Hf, IH.
Qed.

(** X18: where the clusterer of src/form-detection-engine.js returns, the
    copy in automation-core.js finds the same groups of the same fields, in
    the same order; the two differ in the id, the name and the method they
    give a group. *)
Theorem fallbackVisualDetection_copies_agree
  (domSnapshot : Snapshot) (forms : list FormDescriptor) :
  FormDetectionEngine.fallbackVisualDetection domSnapshot = Returned forms ->
  List.map form_fields (AutomationCoreForms.fallbackVisualDetection domSnapshot)
  = List.map form_fields forms.
Proof.
  unfold FormDetectionEngine.fallbackVisualDetection, AutomationCoreForms.fallbackVisualDetection.
  unfold AutomationCoreForms.FORM_FIELD_SELECTORS, FormDetectionEngine.FORM_FIELD_SELECTORS.
  destruct (FormDetectionEngine.filter_visible _) as [visibleControls|err] eqn:Hvis;
    [|discriminate].
  destruct (filter_visible_spec _ _ Hvis) as [Hfilter _].
  unfold FormDetectionEngine.FORM_FIELD_SELECTORS in Hfilter. rewrite <- Hfilter.
  destruct (length visibleControls =? 0)%nat; intros [= <-]; [reflexivity|].
  unfold mapi. now rewrite !mapi_from_fields.
Qed.

(** X19: the controls the selectors find are not deduplicated.  A visible
    input that is also [contenteditable="true"] is found by two selectors and
    listed twice, so a lone control less than 60 high is reported as a form
    of two fields. *)
Theorem fallbackVisualDetection_lists_twice (el : Element) :
  el_tagName el = "INPUT" ->
  el_attr_type el <> Some "hidden" ->
  el_attr_disabled el = false ->
  el_attr_contenteditable el = Some "true" ->
  el_disabled el = false ->
  FormDetectionEngine.isHidden (Some (el_node el)) = Returned false ->
  Qabs (rect_top (el_rect el) - rect_bottom (el_rect el)) < 60 ->
  FormDetectionEngine.fallbackVisualDetection [el]
  = Returned [FormDetectionEngine.synthetic_form [el; el] 0].
Proof.
  intros Htag Htype Hattr Hedit Hdis Hshown Hheight.
  unfold FormDetectionEngine.fallbackVisualDetection.
  assert (List.flat_map (querySelectorAll [el]) FormDetectionEngine.FORM_FIELD_SELECTORS
          = [el; el]) as ->.
  { cbn. unfold opt_str_is. rewrite Htag, Hattr, Hedit. cbn.
    destruct (el_attr_type el) as [t|]; [|reflexivity].
    destruct (t =? "hidden")%string eqn:E; [|reflexivity].
    apply String.eqb_eq in E. subst. contradiction. }
  cbn [FormDetectionEngine.filter_visible]. rewrite Hshown, Hdis. cbn [negb andb length Nat.eqb].
  unfold sort_by_top. cbn [List.fold_right sort_insert]. unfold getBoundingClientRect.
  assert (Qle_bool (rect_top (el_rect el)) (rect_top (el_rect el)) = true) as ->
    by (apply Qle_bool_iff; apply Qle_refl).
  unfold cluster_controls. cbn [List.fold_left cluster_step]. unfold getBoundingClientRect.
  assert (Qltb (Qabs (rect_top (el_rect el) - rect_bottom (el_rect el))) 60 = true) as ->.
  { unfold Qltb. apply negb_true_iff. destruct (Qle_bool _ _) eqn:E; [|reflexivity].
    apply Qle_bool_iff in E. exfalso. now apply (Qlt_not_le _ _ Hheight). }
  reflexivity.
Qed.

End ClustererMore.

(** ** The typing routines *)

Section TypingProperties.

Lemma append_empty_r s : (s ++ "")%string = s.
Proof. induction s as [|c s IH]; cbn; [reflexivity|]. now rewrite IH. Qed.

Lemma append_assoc' (a b c : string) : ((a ++ b) ++ c)%string = (a ++ (b ++ c))%string.
Proof. induction a as [|x a IH]; cbn; [reflexivity|]. now rewrite IH. Qed.

Lemma typeNext_spec rest :
  forall element,
    ContentScript.typeNext rest element
    = mkInputField (field_value element ++ rest)%string
        (field_has_focus element) (field_focus_calls element)
        (field_events element
         ++ List.map (mkDomEvent "input") (prefixes_from (field_value element) rest)
         ++ [mkDomEvent "change" (field_value element ++ rest)%string]).
Proof.
  induction rest as [|c rest IH]; intros [v hf fc evs]; cbn [ContentScript.typeNext].
  - unfold dispatchEvent. cbn. now rewrite append_empty_r.
  - rewrite IH. cbn. rewrite !append_assoc'. cbn. rewrite <- !app_assoc. reflexivity.
Qed.

(** X20: the typing routine the content script injects clears the field,
    then types the value character by character: the field ends with exactly
    [value], after one [input] event per character, each seeing one more
    character of the value, and one [change] event at the end.  An empty
    value clears the field and gives the [change] event alone. *)
Theorem ContentScript_simulateTyping_types_value (element : InputField) (value : string) :
  let typed := ContentScript.simulateTyping element value in
  field_value typed = value /\
  field_events typed
  = field_events element
    ++ List.map (mkDomEvent "input") (prefixes_from "" value)
    ++ [mkDomEvent "change" value].
Proof.
  cbv zeta. unfold ContentScript.simulateTyping. rewrite typeNext_spec.
  destruct element. cbn. split; reflexivity.
Qed.

Section Human.

Import HumanSimulation.

Variable page : Page.

Lemma type_character_spec opts text t :
  typed_to page text 1 3 (t_field t) (t_field (type_character page opts text t)).
Proof.
  destruct t as [[v hf fc evs] n]. unfold type_character, typed_to, dispatch_input,
    delay_randomBetween, Math_random, on_field, set_value, dispatchEvent.
  cbn [t_field t_draws field_value field_has_focus field_focus_calls field_events fst snd].
  destruct (has_InputEvent page);
    cbn [t_field t_draws field_value field_has_focus field_focus_calls field_events fst snd];
    (destruct (Qle_bool (typing_errorRate opts) 0);
     [|destruct (Qle_bool (typing_errorRate opts) (random_draw page n))]);
    cbn [t_field t_draws field_value field_has_focus field_focus_calls field_events fst snd];
    repeat split;
    try (exists []; rewrite app_nil_r; repeat split; constructor);
    try (eexists; split; [rewrite <- ?app_assoc; reflexivity|];
         split; [repeat constructor|cbn; lia]).
Qed.

Lemma typed_to_trans v1 v2 lo1 hi1 lo2 hi2 f1 f2 f3 :
  typed_to page v1 lo1 hi1 f1 f2 -> typed_to page v2 lo2 hi2 f2 f3 ->
  typed_to page v2 (lo1 + lo2) (hi1 + hi2) f1 f3.
Proof.
  intros (_ & Hf1 & Hc1 & evs1 & He1 & Ht1 & Hn1) (Hv2 & Hf2 & Hc2 & evs2 & He2 & Ht2 & Hn2).
  unfold typed_to. rewrite Hv2, Hf2, Hc2, Hf1, Hc1. repeat split.
  exists (evs1 ++ evs2). rewrite He2, He1, app_assoc. split; [reflexivity|].
  split; [now apply Forall_app|].
  destruct (has_InputEvent page); [rewrite length_app; lia|now subst].
Qed.

Lemma type_loop_spec opts rest :
  forall text t,
    rest <> "" ->
    typed_to page (text ++ rest)%string (String.length rest) (3 * String.length rest)
             (t_field t) (t_field (type_loop page opts rest text t)).
Proof.
  induction rest as [|c rest IH]; intros text t Hne; [contradiction|].
  cbn [type_loop].
  pose proof (type_character_spec opts (text ++ String c "")%string t) as Hone.
  destruct rest as [|c' rest'].
  - cbn [type_loop String.length]. exact Hone.
  - pose proof (IH (text ++ String c "")%string
                   (type_character page opts (text ++ String c "")%string t)) as Hrest.
    assert (String c' rest' <> "") as Hne' by discriminate. specialize (Hrest Hne').
    pose proof (typed_to_trans _ _ _ _ _ _ _ _ _ Hone Hrest) as H.
    rewrite append_assoc' in H. cbn [append] in H.
    replace (3 * String.length (String c (String c' rest')))%nat
      with (3 + 3 * String.length (String c' rest'))%nat by (cbn [String.length]; lia).
    exact H.
Qed.

(** X21: whatever the draws, the typos [simulateTyping] makes are taken
    back: for a value that is not empty the field ends with exactly [value],
    after at least one and at most three [input] events per character, and a
    final [change] event that sees the value.  For the empty value the field
    keeps the value it had: it is not cleared. *)
Theorem simulateTyping_leaves_value
  (field : InputField) (value : string) (options : Options) (draws : nat) :
  let typed := t_field (simulateTyping page field value options draws) in
  field_value typed = (if (value =? "")%string then field_value field else value) /\
  (has_InputEvent page = true ->
   (String.length value <= length (input_events typed) - length (input_events field)
    <= 3 * String.length value)%nat) /\
  (has_Event page = true ->
   exists evs, field_events typed = evs ++ [mkDomEvent "change" (field_value typed)]).
Proof.
  cbv zeta. unfold simulateTyping.
  set (t0 := if field_has_focus field then on_field focus (mkTyping field draws)
             else mkTyping field draws).
  assert (field_value (t_field t0) = field_value field /\
          field_events (t_field t0) = field_events field) as [Hv0 He0].
  { subst t0. destruct (field_has_focus field); split; reflexivity. }
  assert (field_value (t_field (type_loop page (addRandomization options) value "" t0))
          = (if (value =? "")%string then field_value field else value) /\
          (has_InputEvent page = true ->
           (String.length value
            <= length (input_events (t_field (type_loop page (addRandomization options)
                                                value "" t0)))
               - length (input_events field)
            <= 3 * String.length value)%nat)) as [Hv Hn].
  { destruct value as [|c value].
    - cbn. unfold input_events. rewrite Hv0, He0. split; [reflexivity|]. intros _. lia.
    - assert (String c value <> "") as Hne by discriminate.
      destruct (type_loop_spec (addRandomization options) (String c value) "" t0 Hne)
        as (Hval & _ & _ & evs & Hevs & Htypes & Hcount).
      cbn [append] in Hval. split; [exact Hval|]. intros Hinput. rewrite Hinput in Hcount.
      unfold input_events. rewrite Hevs, He0, List.filter_app, length_app.
      assert (List.filter (fun ev => (ev_type ev =? "input")%string) evs = evs) as ->.
      { clear Hevs Hcount. induction Htypes as [|ev evs Hev _ IH]; cbn; [reflexivity|].
        rewrite Hev. cbn. now rewrite IH. }
      lia. }
  destruct (has_Event page).
  - unfold on_field, dispatchEvent.
    cbn [t_field field_value field_events]. rewrite Hv. split; [reflexivity|]. split.
    + intros Hinput. specialize (Hn Hinput). unfold input_events in *.
      cbn [field_events]. rewrite List.filter_app. cbn. rewrite app_nil_r. exact Hn.
    + intros _. eexists. reflexivity.
  - split; [exact Hv|]. split; [exact Hn|discriminate].
Qed.

End Human.

End TypingProperties.

(** ** Sensitive field names *)

Section Sensitive.

Import RegExp.

Lemma search_ext p q :
  (forall prev s, match_at p prev s = match_at q prev s) ->
  forall s prev, search p prev s = search q prev s.
Proof.
  intros H. induction s as [|c s IH]; intros prev; cbn [search]; rewrite H; [reflexivity|].
  now rewrite IH.
Qed.

Lemma eat_empty prev s : eat "" prev s = Some (prev, s).
Proof. reflexivity. Qed.

Lemma test_user s : test (mkPattern false "user" "name" false) s = contains_word "user" s.
Proof.
  unfold contains_word, test. apply search_ext. intros prev s'. unfold match_at, plain.
  cbn [pat_boundary_before pat_literal pat_optional pat_boundary_after negb orb andb].
  destruct (eat "user" prev s') as [[last rest]|]; [|reflexivity].
  rewrite eat_empty. now destruct (eat "name" last rest) as [[? ?]|].
Qed.

Lemma eat_app a b :
  forall prev s,
    eat (a ++ b)%string prev s
    = match eat a prev s with
      | Some (last, rest) => eat b last rest
      | None => None
      end.
Proof.
  induction a as [|x a IH]; intros prev s; cbn [append eat]; [reflexivity|].
  destruct s as [|c s]; [reflexivity|].
  destruct (lower_ascii x =? lower_ascii c)%char; [apply IH|reflexivity].
Qed.

(** What [eat] leaves is a suffix of what it was given. *)
Lemma eat_suffix literal :
  forall prev s last rest,
    eat literal prev s = Some (last, rest) -> exists read, s = (read ++ rest)%string.
Proof.
  induction literal as [|x literal IH]; intros prev s last rest; cbn [eat].
  - intros [= _ <-]. now exists "".
  - destruct s as [|c s]; [discriminate|].
    destruct (lower_ascii x =? lower_ascii c)%char; [|discriminate].
    intros H. apply IH in H. destruct H as [read ->]. now exists (String c read).
Qed.

(** Whether a literal is found does not depend on the character before. *)
Lemma eat_prev literal :
  forall prev prev' s, eat literal prev s = None -> eat literal prev' s = None.
Proof.
  destruct literal as [|x literal]; intros prev prev' s; cbn [eat]; [discriminate|].
  destruct s as [|c s]; [reflexivity|].
  now destruct (lower_ascii x =? lower_ascii c)%char.
Qed.

Lemma match_at_plain word prev s :
  match_at (plain word) prev s = match eat word prev s with Some _ => true | None => false end.
Proof.
  unfold match_at, plain.
  cbn [pat_boundary_before pat_literal pat_optional pat_boundary_after negb orb andb].
  destruct (eat word prev s) as [[last rest]|]; reflexivity.
Qed.

Lemma search_plain_prev word s :
  forall prev prev', search (plain word) prev s = search (plain word) prev' s.
Proof.
  assert (forall prev prev' s, match_at (plain word) prev s = match_at (plain word) prev' s) as H.
  { intros prev prev' s'. rewrite !match_at_plain.
    destruct (eat word prev s') eqn:E1, (eat word prev' s') eqn:E2; try reflexivity.
    - now rewrite (eat_prev word prev' prev s' E2) in E1.
    - now rewrite (eat_prev word prev prev' s' E1) in E2. }
  induction s as [|c s IH]; intros prev prev'; cbn [search]; now rewrite (H prev prev').
Qed.

Lemma search_plain_skip word read :
  forall prev prev' rest,
    search (plain word) prev' rest = true ->
    search (plain word) prev (read ++ rest)%string = true.
Proof.
  induction read as [|c read IH]; intros prev prev' rest H; cbn [append].
  - now rewrite (search_plain_prev word rest prev prev').
  - cbn [search]. rewrite (IH (Some c) prev' rest H). apply orb_true_r.
Qed.

Lemma odd_pattern_is_subsumed s :
  forall prev,
    search (mkPattern true "un/,username" "" false) prev s = true ->
    search (plain "user") prev s = true.
Proof.
  assert (forall prev s,
            match_at (mkPattern true "un/,username" "" false) prev s = true ->
            search (plain "user") prev s = true) as Hat.
  { intros prev s' H. unfold match_at in H.
    cbn [pat_boundary_before pat_literal pat_optional pat_boundary_after negb orb] in H.
    apply andb_prop in H. destruct H as [_ H].
    change "un/,username" with ("un/," ++ ("user" ++ "name"))%string in H.
    rewrite eat_app in H.
    destruct (eat "un/," prev s') as [[last rest]|] eqn:Hhead; [|discriminate].
    rewrite eat_app in H.
    destruct (eat "user" last rest) as [[last' rest']|] eqn:Huser; [|discriminate].
    apply eat_suffix in Hhead. destruct Hhead as [read ->].
    apply (search_plain_skip "user" read prev last).
    destruct rest as [|c rest]; cbn [search]; rewrite match_at_plain, Huser; reflexivity. }
  induction s as [|c s IH]; intros prev; cbn [search]; intros H;
    apply orb_prop in H; destruct H as [H|H].
  - now apply Hat in H.
  - discriminate.
  - now apply Hat in H.
  - apply IH in H. rewrite H. apply orb_true_r.
Qed.

(** X22: the names [isSensitiveField] flags are exactly those that contain,
    in any case, one of [password], [passcode], [secret], [token], [auth],
    [ssn], [social], [credit], [card], [cvv], [cvc], [email], [phone],
    [user], or [pin] at the end of a word, or [mobile] as a word of its own.
    The pattern [\bun\/,username] of the list adds nothing: what it matches
    contains [user]. *)
Theorem isSensitiveField_flags (fieldName : string) :
  isSensitiveField fieldName
  = existsb (fun word => contains_word word fieldName) sensitive_words
    || test (mkPattern false "pin" "" true) fieldName
    || test (mkPattern true "mobile" "" true) fieldName.
Proof.
  unfold isSensitiveField, sensitivePatterns, sensitive_words.
  cbn [existsb]. rewrite test_user. unfold contains_word.
  pose proof (odd_pattern_is_subsumed fieldName None) as Hodd. fold (test (plain "user") fieldName) in Hodd.
  fold (test (mkPattern true "un/,username" "" false) fieldName) in Hodd.
  assert (test (mkPattern true "un/,username" "" false) fieldName
          = test (mkPattern true "un/,username" "" false) fieldName
            && test (plain "user") fieldName) as ->.
  { destruct (test (mkPattern true "un/,username" "" false) fieldName); [|reflexivity].
    now rewrite Hodd. }
  btauto.
Qed.

End Sensitive.

(** ** The session manager *)

Section Objects.

Import SessionManager.

Context {V : Type}.

Lemma obj_get_set_same k (v : V) o : obj_get k (obj_set k v o) = Some v.
Proof.
  induction o as [|[k' v'] o IH]; cbn.
  - now rewrite String.eqb_refl.
  - destruct (k' =? k)%string eqn:E; cbn; [now rewrite String.eqb_refl|now rewrite E].
Qed.

Lemma obj_get_set_other k k' (v : V) o : k' <> k -> obj_get k' (obj_set k v o) = obj_get k' o.
Proof.
  intros Hne. induction o as [|[k0 v0] o IH]; cbn.
  - apply String.eqb_neq in Hne. rewrite String.eqb_sym in Hne. now rewrite Hne.
  - destruct (k0 =? k)%string eqn:E; cbn.
    + apply String.eqb_eq in E. subst k0.
      assert ((k =? k')%string = false) as -> by (apply String.eqb_neq; congruence).
      reflexivity.
    + destruct (k0 =? k')%string; [reflexivity|exact IH].
Qed.

Lemma obj_set_keys k (v : V) o x :
  In x (Object_keys (obj_set k v o)) <-> x = k \/ In x (Object_keys o).
Proof.
  unfold Object_keys. induction o as [|[k' v'] o IH]; cbn.
  - intuition.
  - destruct (k' =? k)%string eqn:E; cbn.
    + apply String.eqb_eq in E. subst. intuition.
    + rewrite IH. intuition.
Qed.

Lemma obj_set_NoDup k (v : V) o :
  List.NoDup (Object_keys o) -> List.NoDup (Object_keys (obj_set k v o)).
Proof.
  unfold Object_keys. induction o as [|[k' v'] o IH]; cbn; intros Hnd.
  - constructor; [intros []|constructor].
  - inversion Hnd as [|? ? Hnotin Hnd']; subst.
    destruct (k' =? k)%string eqn:E; cbn.
    + apply String.eqb_eq in E. subst. now constructor.
    + constructor; [|now apply IH].
      intros Hin. apply (obj_set_keys k v o k') in Hin. destruct Hin as [->|Hin].
      * now rewrite String.eqb_refl in E.
      * contradiction.
Qed.

Lemma obj_get_absent k (o : Obj V) : ~ In k (Object_keys o) -> obj_get k o = None.
Proof.
  unfold Object_keys. induction o as [|[k' v'] o IH]; cbn; intros Hk; [reflexivity|].
  destruct (k' =? k)%string eqn:E.
  - apply String.eqb_eq in E. subst. exfalso. apply Hk. now left.
  - apply IH. intros Hin. apply Hk. now right.
Qed.

Lemma obj_get_In k (v : V) o :
  List.NoDup (Object_keys o) -> In (k, v) o -> obj_get k o = Some v.
Proof.
  unfold Object_keys. induction o as [|[k' v'] o IH]; cbn; intros Hnd Hin; [destruct Hin|].
  inversion Hnd as [|? ? Hnotin Hnd']; subst.
  destruct Hin as [[= -> ->]|Hin].
  - now rewrite String.eqb_refl.
  - destruct (k' =? k)%string eqn:E; [|now apply IH].
    apply String.eqb_eq in E. subst. exfalso. apply Hnotin.
    change k with (fst (k, v)). now apply List.in_map.
Qed.

Lemma obj_get_Some_In k (v : V) o : obj_get k o = Some v -> In (k, v) o.
Proof.
  induction o as [|[k' v'] o IH]; cbn; [discriminate|].
  destruct (k' =? k)%string eqn:E.
  - apply String.eqb_eq in E. subst. intros [= ->]. now left.
  - intros H. right. now apply IH.
Qed.

Lemma obj_delete_filter k (o : Obj V) :
  List.NoDup (Object_keys o) ->
  obj_delete k o = List.filter (fun kv => negb (fst kv =? k)%string) o.
Proof.
  unfold Object_keys. induction o as [|[k' v'] o IH]; cbn; intros Hnd; [reflexivity|].
  inversion Hnd as [|? ? Hnotin Hnd']; subst.
  destruct (k' =? k)%string eqn:E; cbn.
  - apply String.eqb_eq in E. subst.
    symmetry. rewrite List.forallb_filter_id; [reflexivity|].
    apply forallb_forall. intros [k0 v0] Hin. cbn. apply negb_true_iff. apply String.eqb_neq.
    intros ->. apply Hnotin. change k with (fst (k, v0)). now apply List.in_map.
  - now rewrite IH.
Qed.

Lemma filter_keys_NoDup (f : string * V -> bool) (o : Obj V) :
  List.NoDup (Object_keys o) -> List.NoDup (Object_keys (List.filter f o)).
Proof.
  unfold Object_keys. induction o as [|[k v] o IH]; cbn; intros Hnd; [constructor|].
  inversion Hnd as [|? ? Hnotin Hnd']; subst.
  destruct (f (k, v)); cbn; [|now apply IH].
  constructor; [|now apply IH].
  intros Hin. apply Hnotin. apply List.in_map_iff in Hin. destruct Hin as ([k' v'] & Hk & Hin).
  cbn in Hk. subst. apply filter_In in Hin. destruct Hin as [Hin _].
  change k with (fst (k, v')). now apply List.in_map.
Qed.

Lemma obj_get_filter (f : string * V -> bool) k (o : Obj V) :
  List.NoDup (Object_keys o) ->
  obj_get k (List.filter f o)
  = match obj_get k o with
    | Some v => if f (k, v) then Some v else None
    | None => None
    end.
Proof.
  intros Hnd. destruct (obj_get k o) as [v|] eqn:Hget.
  - apply obj_get_Some_In in Hget. destruct (f (k, v)) eqn:Hf.
    + apply obj_get_In; [now apply filter_keys_NoDup|]. apply filter_In. now split.
    + apply obj_get_absent. intros Hin. unfold Object_keys in Hin.
      apply List.in_map_iff in Hin. destruct Hin as ([k' v'] & Hk & Hin). cbn in Hk. subst.
      apply filter_In in Hin. destruct Hin as [Hin Hf'].
      assert (v' = v) as ->.
      { pose proof (obj_get_In k v' o Hnd Hin) as H1.
        pose proof (obj_get_In k v o Hnd Hget) as H2. congruence. }
      congruence.
  - apply obj_get_absent. intros Hin. unfold Object_keys in Hin.
    apply List.in_map_iff in Hin. destruct Hin as ([k' v'] & Hk & Hin). cbn in Hk. subst.
    apply filter_In in Hin. destruct Hin as [Hin _].
    rewrite (obj_get_In k v' o Hnd Hin) in Hget. discriminate.
Qed.

Lemma filter_twice {A : Type} (f g : A -> bool) (l : list A) :
  List.filter f (List.filter g l) = List.filter (fun x => g x && f x) l.
Proof.
  induction l as [|x l IH]; cbn; [reflexivity|].
  destruct (g x); cbn; [destruct (f x); now rewrite IH|exact IH].
Qed.

Lemma existsb_ext_in {A : Type} (f g : A -> bool) (l : list A) :
  (forall x, In x l -> f x = g x) -> existsb f l = existsb g l.
Proof.
  induction l as [|x l IH]; cbn; intros H; [reflexivity|].
  rewrite (H x) by now left. rewrite IH; [reflexivity|]. intros y Hy. apply H. now right.
Qed.

(** Pruning every key of an object removes the entries [bad] tells and
    reports whether there was one. *)
Lemma prune_spec (bad : string -> option V -> bool) keys :
  forall (o : Obj V) changed,
    List.NoDup keys -> List.NoDup (Object_keys o) ->
    (forall k, In k keys -> In k (Object_keys o)) ->
    prune bad keys o changed
    = (changed || existsb (fun kv => existsb (String.eqb (fst kv)) keys
                                     && bad (fst kv) (Some (snd kv))) o,
       List.filter (fun kv => negb (existsb (String.eqb (fst kv)) keys
                                    && bad (fst kv) (Some (snd kv)))) o).
Proof.
  induction keys as [|k keys IH]; intros o changed Hkeys Hnd Hsub; cbn [prune].
  - cbn [existsb andb negb].
    rewrite List.forallb_filter_id by (apply forallb_forall; reflexivity).
    f_equal. assert (existsb (fun _ : string * V => false) o = false) as ->
      by (clear; induction o; cbn; auto).
    now rewrite orb_false_r.
  - inversion Hkeys as [|? ? Hk Hkeys']; subst.
    assert (In k (Object_keys o)) as Hin by (apply Hsub; now left).
    unfold Object_keys in Hin. apply List.in_map_iff in Hin.
    destruct Hin as ([k' v] & Hk' & Hin). cbn in Hk'. subst k'.
    rewrite (obj_get_In k v o Hnd Hin).
    assert (forall kv, In kv o -> (fst kv =? k)%string = true -> kv = (k, v)) as Huniq.
    { intros [k0 v0] Hin0 E. cbn in E. apply String.eqb_eq in E. subst k0.
      pose proof (obj_get_In k v0 o Hnd Hin0) as H1.
      pose proof (obj_get_In k v o Hnd Hin) as H2. congruence. }
    destruct (bad k (Some v)) eqn:Hbad.
    + rewrite IH.
      * rewrite (obj_delete_filter k o Hnd). f_equal.
        -- cbn [orb]. symmetry. apply orb_true_iff. right. apply existsb_exists.
           exists (k, v). split; [exact Hin|]. cbn. now rewrite String.eqb_refl, Hbad.
        -- rewrite filter_twice. apply List.filter_ext_in. intros kv Hkv.
           cbn [existsb]. destruct (fst kv =? k)%string eqn:E.
           ++ rewrite (Huniq kv Hkv E). cbn [fst snd negb andb orb]. now rewrite Hbad.
           ++ reflexivity.
      * exact Hkeys'.
      * rewrite (obj_delete_filter k o Hnd). now apply filter_keys_NoDup.
      * intros k0 Hk0. rewrite (obj_delete_filter k o Hnd).
        assert (In k0 (Object_keys o)) as Hin0 by (apply Hsub; now right).
        unfold Object_keys in *. apply List.in_map_iff in Hin0.
        destruct Hin0 as ([k1 v1] & Hk1 & Hin1). cbn in Hk1. subst k1.
        apply List.in_map_iff. exists (k0, v1). split; [reflexivity|].
        apply filter_In. split; [exact Hin1|]. cbn. apply negb_true_iff. apply String.eqb_neq.
        intros ->. contradiction.
    + assert (forall kv, In kv o ->
                existsb (String.eqb (fst kv)) (k :: keys) && bad (fst kv) (Some (snd kv))
                = existsb (String.eqb (fst kv)) keys && bad (fst kv) (Some (snd kv))) as Hsame.
      { intros kv Hkv. cbn [existsb]. destruct (fst kv =? k)%string eqn:E.
        - rewrite (Huniq kv Hkv E). cbn [fst snd]. rewrite Hbad. now rewrite !andb_false_r.
        - reflexivity. }
      rewrite IH; [|exact Hkeys'|exact Hnd|intros k0 Hk0; apply Hsub; now right]. f_equal.
      * f_equal. apply existsb_ext_in. intros kv Hkv. now rewrite Hsame.
      * apply List.filter_ext_in. intros kv Hkv. now rewrite Hsame.
Qed.

End Objects.

Section SessionStore.

Import SessionManager.

Variable host : Host.
Variable patience : nat.

Lemma cleanupSessions_loop_prune now keys :
  forall sessions changed,
    cleanupSessions_loop now keys sessions changed
    = prune (fun _ entry => match entry with
                            | Some e => expired now e
                            | None => true
                            end) keys sessions changed.
Proof.
  induction keys as [|k keys IH]; intros sessions changed; cbn; [reflexivity|].
  now rewrite !IH.
Qed.

Lemma cleanupCookies_loop_prune valid keys :
  forall cookies changed,
    cleanupCookies_loop keys cookies valid changed
    = prune (fun k (_ : option Jar) => negb (existsb (String.eqb k) valid)) keys cookies changed.
Proof.
  induction keys as [|k keys IH]; intros cookies changed; cbn; [reflexivity|].
  now rewrite !IH.
Qed.

Lemma all_keys_listed {V : Type} (o : Obj V) kv :
  In kv o -> existsb (String.eqb (fst kv)) (Object_keys o) = true.
Proof.
  intros Hin. apply existsb_exists. exists (fst kv). split; [|apply String.eqb_refl].
  unfold Object_keys. now apply List.in_map.
Qed.

Lemma cleanupSessions_loop_spec now (sessions : Sessions) :
  List.NoDup (Object_keys sessions) ->
  cleanupSessions_loop now (Object_keys sessions) sessions false
  = (existsb (fun kv => expired now (snd kv)) sessions,
     List.filter (fun kv => negb (expired now (snd kv))) sessions).
Proof.
  intros Hnd. rewrite cleanupSessions_loop_prune, prune_spec; auto. cbn [orb]. f_equal.
  - apply existsb_ext_in. intros kv Hkv. now rewrite (all_keys_listed _ _ Hkv).
  - apply List.filter_ext_in. intros kv Hkv. now rewrite (all_keys_listed _ _ Hkv).
Qed.

Lemma cleanupCookies_filter (cookies : Cookies) (validSessionIds : list string) :
  List.NoDup (Object_keys cookies) ->
  cleanupCookies cookies validSessionIds
  = (existsb (fun kv => negb (existsb (String.eqb (fst kv)) validSessionIds)) cookies,
     List.filter (fun kv => existsb (String.eqb (fst kv)) validSessionIds) cookies).
Proof.
  intros Hnd. unfold cleanupCookies. rewrite cleanupCookies_loop_prune, prune_spec; auto.
  cbn [orb]. f_equal.
  - apply existsb_ext_in. intros kv Hkv. now rewrite (all_keys_listed _ _ Hkv).
  - apply List.filter_ext_in. intros kv Hkv. rewrite (all_keys_listed _ _ Hkv).
    cbn. now rewrite negb_involutive.
Qed.

(** X23: [cleanupSessions] removes exactly the entries that are [null] or
    were created more than seven days before the clock read it takes, keeps
    every other entry as it is, and returns [true] exactly when it removed
    one.  It touches no file. *)
Theorem cleanupSessions_removes_expired (sessions : Sessions) (m : Machine) :
  List.NoDup (Object_keys sessions) ->
  exists changed cleaned m',
    cleanupSessions host sessions m = (Done (changed, cleaned), m')
    /\ files_and_locks m' = files_and_locks m
    /\ (forall sid,
          obj_get sid cleaned
          = match obj_get sid sessions with
            | Some entry => if expired (now_at host (n_now m)) entry then None else Some entry
            | None => None
            end)
    /\ (changed = true
        <-> exists sid entry,
              obj_get sid sessions = Some entry
              /\ expired (now_at host (n_now m)) entry = true).
Proof.
  intros Hnd. unfold cleanupSessions, and_then, Date_now, pure.
  rewrite (cleanupSessions_loop_spec _ _ Hnd).
  eexists _, _, _. split; [reflexivity|]. split; [reflexivity|]. split.
  - intros sid. rewrite (obj_get_filter _ _ _ Hnd). cbn [snd].
    destruct (obj_get sid sessions) as [entry|]; [|reflexivity].
    now destruct (expired _ entry).
  - rewrite existsb_exists. split.
    + intros ([sid entry] & Hin & Hexp). exists sid, entry. split; [|exact Hexp].
      now apply obj_get_In.
    + intros (sid & entry & Hget & Hexp). exists (sid, entry). split; [|exact Hexp].
      now apply obj_get_Some_In.
Qed.

(** X24: [cleanupCookies] keeps the entries whose key is one of the valid
    session ids, as they are, and removes all others; it returns [true]
    exactly when a key was not valid. *)
Theorem cleanupCookies_keeps_valid (cookies : Cookies) (validSessionIds : list string) :
  List.NoDup (Object_keys cookies) ->
  (forall sid,
     obj_get sid (snd (cleanupCookies cookies validSessionIds))
     = if existsb (String.eqb sid) validSessionIds then obj_get sid cookies else None)
  /\ (fst (cleanupCookies cookies validSessionIds) = true
      <-> exists sid, In sid (Object_keys cookies) /\ ~ In sid validSessionIds).
Proof.
  intros Hnd. rewrite (cleanupCookies_filter _ _ Hnd). cbn [fst snd]. split.
  - intros sid. rewrite (obj_get_filter _ _ _ Hnd). cbn [fst].
    destruct (obj_get sid cookies); [|now destruct (existsb _ _)].
    now destruct (existsb _ _).
  - rewrite existsb_exists. split.
    + intros ([sid jar] & Hin & Hbad). exists sid. split.
      * change sid with (fst (sid, jar)). now apply List.in_map.
      * cbn [fst] in Hbad. apply negb_true_iff in Hbad. intros Hvalid.
        assert (existsb (String.eqb sid) validSessionIds = true) as Hyes.
        { apply existsb_exists. exists sid. split; [exact Hvalid|apply String.eqb_refl]. }
        congruence.
    + intros (sid & Hin & Hbad). apply List.in_map_iff in Hin.
      destruct Hin as ([sid' jar] & Hfst & Hin). cbn in Hfst. subst sid'.
      exists (sid, jar). split; [exact Hin|]. cbn [fst]. apply negb_true_iff.
      destruct (existsb (String.eqb sid) validSessionIds) eqn:E; [|reflexivity].
      apply existsb_exists in E. destruct E as (x & Hx & Heq).
      apply String.eqb_eq in Heq. subst x. contradiction.
Qed.

Hypothesis host_reliable : reliable host.

Lemma and_then_done {A B : Type} (c : SM A) (k : A -> SM B) m a m' :
  c m = (Done a, m') -> and_then c k m = k a m'.
Proof. intros H. unfold and_then. now rewrite H. Qed.

Ltac fs_ok := rewrite ?host_reliable.

Lemma load_sessions m :
  sessions_lock m = false ->
  exists m',
    loadEncryptedStorage host patience SESSIONS_FILE [] m = (Done (stored (sessions_file m)), m')
    /\ files_and_locks m' = files_and_locks m.
Proof.
  destruct m as [sf cf sl cl nn nb nf]. cbn [sessions_lock]. intros ->.
  unfold loadEncryptedStorage, lockFile, unlock, fs_existsSync, fs_existsSync_lock,
    fs_readFileSync, fs_writeFileSync_lock, fs_unlinkSync_lock, fs_call, attempt, and_then,
    Date_now, pure, raise.
  destruct sf as [[iv content|raw]|]; cbn; destruct patience; cbn; fs_ok; cbn; fs_ok; cbn;
    fs_ok; cbn; try (eexists; split; reflexivity).
  - destruct (truthy raw); cbn; eexists; split; reflexivity.
  - destruct (truthy raw); cbn; eexists; split; reflexivity.
Qed.

Lemma load_cookies m :
  cookies_lock m = false ->
  exists m',
    loadEncryptedStorage host patience COOKIES_FILE [] m = (Done (stored (cookies_file m)), m')
    /\ files_and_locks m' = files_and_locks m.
Proof.
  destruct m as [sf cf sl cl nn nb nf]. cbn [cookies_lock]. intros ->.
  unfold loadEncryptedStorage, lockFile, unlock, fs_existsSync, fs_existsSync_lock,
    fs_readFileSync, fs_writeFileSync_lock, fs_unlinkSync_lock, fs_call, attempt, and_then,
    Date_now, pure, raise.
  destruct cf as [[iv content|raw]|]; cbn; destruct patience; cbn; fs_ok; cbn; fs_ok; cbn;
    fs_ok; cbn; try (eexists; split; reflexivity).
  - destruct (truthy raw); cbn; eexists; split; reflexivity.
  - destruct (truthy raw); cbn; eexists; split; reflexivity.
Qed.

Lemma save_sessions data m :
  sessions_lock m = false ->
  exists m' iv,
    saveEncryptedStorage host patience SESSIONS_FILE data m = (Done tt, m')
    /\ files_and_locks m' = (Some (Sealed iv data), cookies_file m, false, cookies_lock m).
Proof.
  destruct m as [sf cf sl cl nn nb nf]. cbn [sessions_lock cookies_file cookies_lock]. intros ->.
  unfold saveEncryptedStorage, lockFile, unlock, fs_existsSync, fs_existsSync_lock,
    fs_writeFileSync, fs_writeFileSync_lock, fs_unlinkSync_lock, fs_call, attempt, and_then,
    encryptData, crypto_randomBytes, Date_now, pure, raise.
  destruct patience; cbn; fs_ok; cbn; fs_ok; cbn; fs_ok; cbn; eexists _, _; split; reflexivity.
Qed.

Lemma save_cookies data m :
  cookies_lock m = false ->
  exists m' iv,
    saveEncryptedStorage host patience COOKIES_FILE data m = (Done tt, m')
    /\ files_and_locks m' = (sessions_file m, Some (Sealed iv data), sessions_lock m, false).
Proof.
  destruct m as [sf cf sl cl nn nb nf]. cbn [sessions_lock sessions_file cookies_lock]. intros ->.
  unfold saveEncryptedStorage, lockFile, unlock, fs_existsSync, fs_existsSync_lock,
    fs_writeFileSync, fs_writeFileSync_lock, fs_unlinkSync_lock, fs_call, attempt, and_then,
    encryptData, crypto_randomBytes, Date_now, pure, raise.
  destruct patience; cbn; fs_ok; cbn; fs_ok; cbn; fs_ok; cbn; eexists _, _; split; reflexivity.
Qed.


Lemma Date_now_then {B : Type} (k : Z -> SM B) m :
  and_then (Date_now host) k m
  = k (now_at host (n_now m))
      (mkMachine (sessions_file m) (cookies_file m) (sessions_lock m) (cookies_lock m)
                 (S (n_now m)) (n_bytes m) (n_fsop m)).
Proof. reflexivity. Qed.

Lemma randomBytes_then {B : Type} (k : string -> SM B) m :
  and_then (generateSessionId host) k m
  = k (randomBytes_at host (n_bytes m))
      (mkMachine (sessions_file m) (cookies_file m) (sessions_lock m) (cookies_lock m)
                 (n_now m) (S (n_bytes m)) (n_fsop m)).
Proof. reflexivity. Qed.

Lemma cleanupSessions_then {B : Type} (k : bool * Sessions -> SM B) sessions m :
  List.NoDup (Object_keys sessions) ->
  and_then (cleanupSessions host sessions) k m
  = k (existsb (fun kv => expired (now_at host (n_now m)) (snd kv)) sessions,
       List.filter (fun kv => negb (expired (now_at host (n_now m)) (snd kv))) sessions)
      (mkMachine (sessions_file m) (cookies_file m) (sessions_lock m) (cookies_lock m)
                 (S (n_now m)) (n_bytes m) (n_fsop m)).
Proof.
  intros Hnd. unfold cleanupSessions, and_then, Date_now, pure.
  now rewrite (cleanupSessions_loop_spec _ _ Hnd).
Qed.

Lemma pure_then {A B : Type} (a : A) (k : A -> SM B) m : and_then (pure a) k m = k a m.
Proof. reflexivity. Qed.

Lemma filter_none {A : Type} (f : A -> bool) (l : list A) :
  existsb f l = false -> List.filter (fun x => negb (f x)) l = l.
Proof.
  induction l as [|x l IH]; cbn; [reflexivity|].
  intros H. apply orb_false_elim in H. destruct H as [-> H]. cbn. now rewrite IH.
Qed.

Lemma obj_get_delete_same {V : Type} k (o : Obj V) :
  List.NoDup (Object_keys o) -> obj_get k (obj_delete k o) = None.
Proof.
  intros Hnd. rewrite obj_delete_filter by exact Hnd.
  rewrite obj_get_filter by exact Hnd.
  destruct (obj_get k o); [|reflexivity]. cbn. now rewrite String.eqb_refl.
Qed.



Ltac flat :=
  cbn [sessions_file cookies_file sessions_lock cookies_lock n_now n_bytes n_fsop fst snd] in *.

Ltac disk_eqs H := unfold files_and_locks in H; flat; injection H as ? ? ? ?.

Ltac sessions_now :=
  match goal with
  | H : sessions_file ?w = Some _ |- context [sessions_file ?w] => rewrite H
  end.

Ltac cookies_now :=
  match goal with
  | H : cookies_file ?w = Some _ |- context [cookies_file ?w] => rewrite H
  end.

Ltac save_sessions_step m' iv :=
  match goal with
  | |- context [and_then (saveEncryptedStorage host patience SESSIONS_FILE ?d) ?k ?w] =>
      let H := fresh "Hsave" in
      let Hd := fresh "Hd" in
      destruct (save_sessions d w) as (m' & iv & H & Hd); [flat; congruence|];
      rewrite (and_then_done _ _ _ _ _ H); disk_eqs Hd
  end.

Ltac save_cookies_step m' iv :=
  match goal with
  | |- context [and_then (saveEncryptedStorage host patience COOKIES_FILE ?d) ?k ?w] =>
      let H := fresh "Hsave" in
      let Hd := fresh "Hd" in
      destruct (save_cookies d w) as (m' & iv & H & Hd); [flat; congruence|];
      rewrite (and_then_done _ _ _ _ _ H); disk_eqs Hd
  end.

Ltac load_sessions_step m' :=
  match goal with
  | |- context [and_then (loadEncryptedStorage host patience SESSIONS_FILE []) ?k ?w] =>
      let H := fresh "Hload" in
      let Hd := fresh "Hd" in
      destruct (load_sessions w) as (m' & H & Hd); [flat; congruence|];
      rewrite (and_then_done _ _ _ _ _ H); disk_eqs Hd
  end.

Ltac load_cookies_step m' :=
  match goal with
  | |- context [and_then (loadEncryptedStorage host patience COOKIES_FILE []) ?k ?w] =>
      let H := fresh "Hload" in
      let Hd := fresh "Hd" in
      destruct (load_cookies w) as (m' & H & Hd); [flat; congruence|];
      rewrite (and_then_done _ _ _ _ _ H); disk_eqs Hd
  end.

Lemma not_expired_fresh (now t : Z) (userId : option string) (sid : string) :
  (now - t <= SESSION_LIFETIME)%Z ->
  expired now (Some (mkSession userId sid (Some t) (Some t) "{}")) = false.
Proof.
  intros H. unfold expired. cbn [createdAt]. apply andb_false_intro2.
  rewrite Z.gtb_ltb. apply Z.ltb_ge. exact H.
Qed.

(** X25: a session that [createSession] has made is what [getSession]
    returns for its id, as long as the clock stays within the session lifetime:
    the user id and the id are those given and generated, the data is empty,
    and the session is in the file afterwards. *)
Theorem createSession_then_getSession (userId : option string) (m : Machine) :
  unlocked m ->
  List.NoDup (Object_keys (stored (sessions_file m))) ->
  (forall i j, (now_at host j - now_at host i <= SESSION_LIFETIME)%Z) ->
  exists sid m1 s m2,
    createSession host patience userId m = (Done sid, m1)
    /\ getSession host patience sid m1 = (Done (Some s), m2)
    /\ SessionManager.userId s = userId
    /\ sessionId s = sid
    /\ data s = "{}"
    /\ obj_get sid (stored (sessions_file m2)) = Some (Some s)
    /\ unlocked m2.
Proof.
  intros [Hsl Hcl] Hnd Hclock.
  unfold createSession. load_sessions_step m1.
  rewrite Date_now_then, randomBytes_then. flat.
  set (t1 := now_at host (n_now m1)). set (sid := randomBytes_at host (n_bytes m1)).
  set (made := mkSession userId sid (Some t1) (Some t1) "{}").
  assert (List.NoDup (Object_keys (obj_set sid (Some made) (stored (sessions_file m))))) as Hnd1
    by now apply obj_set_NoDup.
  rewrite cleanupSessions_then by exact Hnd1. flat.
  set (kept := List.filter _ _) in *.
  save_sessions_step m2 iv. unfold pure at 1.
  assert (obj_get sid kept = Some (Some made)) as Hkept.
  { unfold kept. rewrite obj_get_filter by exact Hnd1. rewrite obj_get_set_same.
    cbn [snd]. unfold made. now rewrite not_expired_fresh by apply Hclock. }
  assert (List.NoDup (Object_keys kept)) as Hndk by now apply filter_keys_NoDup.
  exists sid, m2.
  (* getSession *)
  unfold getSession. load_sessions_step m3.
  sessions_now. cbn [stored].
  rewrite cleanupSessions_then by exact Hndk. flat.
  set (kept' := List.filter _ kept) in *.
  assert (obj_get sid kept' = Some (Some made)) as Hkept'.
  { unfold kept'. rewrite obj_get_filter by exact Hndk. rewrite Hkept.
    cbn [snd]. unfold made. now rewrite not_expired_fresh by apply Hclock. }
  assert (List.NoDup (Object_keys kept')) as Hndk' by now apply filter_keys_NoDup.
  match goal with
  | |- context [and_then (if ?c then _ else _) ?k ?w] =>
      assert (exists m4, and_then (if c then saveEncryptedStorage host patience SESSIONS_FILE kept'
                                   else pure tt) k w = k tt m4
                         /\ sessions_lock m4 = false /\ cookies_lock m4 = false)
        as (m4 & -> & Hsl4 & Hcl4)
  end.
  { destruct (existsb _ kept).
    - save_sessions_step m4 iv4. exists m4. repeat split; congruence.
    - eexists. rewrite pure_then. split; [reflexivity|]. flat. split; congruence. }
  rewrite Date_now_then. flat. rewrite Hkept'.
  set (t4 := now_at host (n_now m4)).
  replace (t4 - createdAt_or_0 made <=? SESSION_LIFETIME)%Z with true
    by (symmetry; apply Z.leb_le; apply Hclock).
  save_sessions_step m5 iv5. unfold pure.
  exists (set_lastActive t4 made), m5.
  split; [reflexivity|]. split; [reflexivity|].
  split; [reflexivity|]. split; [reflexivity|]. split; [reflexivity|].
  split.
  - sessions_now. cbn [stored]. apply obj_get_set_same.
  - split; congruence.
Qed.


Lemma maybe_save_sessions {B : Type} (c : bool) data (k : unit -> SM B) m :
  sessions_lock m = false ->
  exists m',
    and_then (if c then saveEncryptedStorage host patience SESSIONS_FILE data else pure tt) k m
    = k tt m'
    /\ stored (sessions_file m') = (if c then data else stored (sessions_file m))
    /\ cookies_file m' = cookies_file m
    /\ sessions_lock m' = false
    /\ cookies_lock m' = cookies_lock m.
Proof.
  intros Hsl. destruct c.
  - save_sessions_step m' iv. exists m'. sessions_now. now repeat split.
  - exists m. now rewrite pure_then.
Qed.

Lemma maybe_save_cookies {B : Type} (c : bool) data (k : unit -> SM B) m :
  cookies_lock m = false ->
  exists m',
    and_then (if c then saveEncryptedStorage host patience COOKIES_FILE data else pure tt) k m
    = k tt m'
    /\ stored (cookies_file m') = (if c then data else stored (cookies_file m))
    /\ sessions_file m' = sessions_file m
    /\ sessions_lock m' = sessions_lock m
    /\ cookies_lock m' = false.
Proof.
  intros Hcl. destruct c.
  - save_cookies_step m' iv. exists m'. cookies_now. now repeat split.
  - exists m. now rewrite pure_then.
Qed.

Lemma obj_get_None_keys {V : Type} k (o : Obj V) :
  obj_get k o = None -> existsb (String.eqb k) (Object_keys o) = false.
Proof.
  induction o as [|[k' v'] o IH]; cbn; [reflexivity|].
  rewrite (String.eqb_sym k k'). destruct (k' =? k)%string; [discriminate|]. exact IH.
Qed.

(** X26: [getSession] never returns a session older than the lifetime: it
    returns [null], and a session stored under a non-empty id is gone from the
    file afterwards.  A session without [createdAt] counts as created at time
    0. *)
Theorem getSession_drops_old_session (sid : string) (s : Session) (m : Machine) :
  unlocked m ->
  List.NoDup (Object_keys (stored (sessions_file m))) ->
  obj_get sid (stored (sessions_file m)) = Some (Some s) ->
  (forall j, (SESSION_LIFETIME < now_at host j - createdAt_or_0 s)%Z) ->
  exists m',
    getSession host patience sid m = (Done None, m')
    /\ (truthy sid = true -> obj_get sid (stored (sessions_file m')) = None)
    /\ unlocked m'.
Proof.
  intros [Hsl Hcl] Hnd Hget Hold.
  unfold getSession. load_sessions_step m1.
  rewrite cleanupSessions_then by exact Hnd. flat.
  set (t := now_at host (n_now m1)).
  set (kept := List.filter _ _).
  set (changed := existsb _ _).
  assert (List.NoDup (Object_keys kept)) as Hndk by now apply filter_keys_NoDup.
  assert (obj_get sid kept = if expired t (Some s) then None else Some (Some s)) as Hkept.
  { unfold kept. rewrite obj_get_filter by exact Hnd. rewrite Hget. cbn [snd].
    now destruct (expired t (Some s)). }
  assert ((if changed then kept else stored (sessions_file m)) = kept) as Hfile.
  { destruct changed eqn:E; [reflexivity|]. symmetry. now apply filter_none. }
  match goal with
  | |- context [and_then (if changed then _ else _) ?k ?w] =>
      destruct (maybe_save_sessions changed kept k w) as (m2 & -> & Hs2 & Hc2 & Hsl2 & Hcl2);
        [flat; congruence|]
  end.
  flat. replace (sessions_file m1) with (sessions_file m) in Hs2 by congruence.
  pose proof (eq_trans Hs2 Hfile) as Hs2'.
  rewrite Date_now_then. flat. rewrite Hkept.
  destruct (expired t (Some s)).
  - unfold pure. eexists. split; [reflexivity|]. flat.
    split; [intros _; etransitivity; [apply (f_equal (obj_get sid) Hs2')|exact Hkept]|].
    split; cbn; congruence.
  - replace ((now_at host (n_now m2) - createdAt_or_0 s <=? SESSION_LIFETIME)%Z) with false
      by (symmetry; apply Z.leb_gt; apply Hold).
    destruct (truthy sid).
    + save_sessions_step m3 iv3. unfold pure. exists m3. split; [reflexivity|].
      split; [|split; cbn; congruence].
      intros _. sessions_now. cbn [stored]. now apply obj_get_delete_same.
    + unfold pure. eexists. split; [reflexivity|]. flat.
      split; [discriminate|]. split; cbn; congruence.
Qed.

(** X27: [persistCookies] always returns [true], but what [restoreCookies]
    gives back afterwards is the array only if the session id is a key of
    the sessions file; for any other id the cookies are dropped and
    [restoreCookies] gives the empty array. *)
Theorem persistCookies_then_restoreCookies
  (sid : string) (cookiesArray : option (list Cookie)) (m : Machine) :
  unlocked m ->
  List.NoDup (Object_keys (stored (cookies_file m))) ->
  exists m1 m2,
    persistCookies host patience sid cookiesArray m = (Done true, m1)
    /\ restoreCookies host patience sid m1
       = (Done (if existsb (String.eqb sid) (Object_keys (stored (sessions_file m)))
                then match cookiesArray with Some given => given | None => [] end
                else []), m2)
    /\ unlocked m2.
Proof.
  intros [Hsl Hcl] Hnd.
  unfold persistCookies. load_cookies_step m1. load_sessions_step m2.
  set (given := match cookiesArray with Some g => g | None => [] end).
  assert (List.NoDup (Object_keys (obj_set sid (JarArray given) (stored (cookies_file m)))))
    as Hnd1 by now apply obj_set_NoDup.
  rewrite (cleanupCookies_filter _ _ Hnd1). flat.
  set (kept := List.filter _ _).
  match goal with
  | |- context [and_then (if ?c then _ else _) ?k ?w] =>
      destruct (maybe_save_cookies c kept k w) as (m3 & -> & Hs3 & Hc3 & Hsl3 & Hcl3);
        [flat; congruence|]
  end.
  save_cookies_step m4 iv4. unfold pure at 1.
  exists m4. unfold restoreCookies. load_cookies_step m5. cookies_now. cbn [stored].
  unfold pure. eexists. split; [reflexivity|]. split.
  - f_equal. f_equal. unfold kept. rewrite obj_get_filter by exact Hnd1.
    rewrite obj_get_set_same. cbn [fst].
    replace (sessions_file m1) with (sessions_file m) by congruence.
    now destruct (existsb (String.eqb sid) (Object_keys (stored (sessions_file m)))).
  - split; cbn; congruence.
Qed.




(** X29: after [cleanupAll], the two files agree: every id with cookies has
    a session, and no session entry is [null]. *)
Theorem cleanupAll_cookies_have_sessions (m : Machine) :
  unlocked m ->
  List.NoDup (Object_keys (stored (sessions_file m))) ->
  List.NoDup (Object_keys (stored (cookies_file m))) ->
  exists m',
    cleanupAll host patience m = (Done tt, m')
    /\ (forall sid, obj_get sid (stored (sessions_file m')) = None ->
                    obj_get sid (stored (cookies_file m')) = None)
    /\ (forall sid, obj_get sid (stored (sessions_file m')) <> Some None)
    /\ unlocked m'.
Proof.
  intros [Hsl Hcl] Hnds Hndc.
  unfold cleanupAll. load_sessions_step m1. load_cookies_step m2.
  replace (cookies_file m1) with (cookies_file m) by congruence.
  rewrite cleanupSessions_then by exact Hnds. flat.
  rewrite (cleanupCookies_filter _ _ Hndc). flat.
  set (t := now_at host (n_now m2)).
  set (kept := List.filter _ (stored (sessions_file m))).
  set (keptc := List.filter _ (stored (cookies_file m))).
  set (changed := existsb _ (stored (sessions_file m))).
  set (changedc := existsb _ (stored (cookies_file m))).
  assert ((if changed then kept else stored (sessions_file m)) = kept) as Hfile.
  { destruct changed eqn:E; [reflexivity|]. symmetry. now apply filter_none. }
  assert ((if changedc then keptc else stored (cookies_file m)) = keptc) as Hfilec.
  { destruct changedc eqn:E; [reflexivity|]. symmetry.
    etransitivity; [|exact (filter_none _ _ E)].
    apply List.filter_ext. intros kv. now rewrite negb_involutive. }
  match goal with
  | |- context [and_then (if changed then _ else _) ?k ?w] =>
      destruct (maybe_save_sessions changed kept k w) as (m3 & -> & Hs3 & Hc3 & Hsl3 & Hcl3);
        [flat; congruence|]
  end.
  flat. replace (sessions_file m2) with (sessions_file m) in Hs3 by congruence.
  pose proof (eq_trans Hs3 Hfile) as Hs3'.
  destruct (maybe_save_cookies changedc keptc (@pure unit) m3)
    as (m4 & Hrun & Hc4 & Hs4 & Hsl4 & Hcl4); [congruence|].
  exists m4. split.
  { destruct changedc.
    - destruct (save_cookies keptc m3) as (m5 & iv5 & Hsave & Hd5); [congruence|].
      rewrite (and_then_done _ _ _ _ _ Hsave) in Hrun. rewrite Hsave. exact Hrun.
    - exact Hrun. }
  replace (cookies_file m3) with (cookies_file m) in Hc4 by congruence.
  pose proof (eq_trans Hc4 Hfilec) as Hc4'.
  assert (stored (sessions_file m4) = kept) as Hs4' by (rewrite Hs4; exact Hs3').
  split; [|split].
  - intros sid Hnone. rewrite Hs4' in Hnone.
    etransitivity; [apply (f_equal (obj_get sid) Hc4')|].
    unfold keptc. rewrite obj_get_filter by exact Hndc. cbn [fst].
    rewrite (obj_get_None_keys _ _ Hnone). now destruct (obj_get sid (stored (cookies_file m))).
  - intros sid Hnull. rewrite Hs4' in Hnull. unfold kept in Hnull.
    rewrite obj_get_filter in Hnull by exact Hnds.
    destruct (obj_get sid (stored (sessions_file m))) as [[e|]|]; cbn in Hnull.
    + destruct (negb _) in Hnull; discriminate.
    + discriminate.
    + discriminate.
  - split; congruence.
Qed.

End SessionStore.

Section StaleLock.

Import SessionManager.

Variable host : Host.
Variable patience : nat.


Hypothesis clock : clock_advances host patience.





End StaleLock.

(** ** Examples of the further properties *)

(** The identifiers of the example environments never repeat. *)
Lemma demo_uuid_unique : uuid_unique env_all_succeed.
Proof.
  assert (forall n, Nat.to_uint n <> Decimal.Nil) as Hdigits.
  { intros n. rewrite <- (Unsigned.of_to n) at 1. rewrite Unsigned.to_of.
    apply DecimalFacts.unorm_nonnil. }
  intros i j H. cbn in H. injection H as H.
  apply (f_equal NilZero.uint_of_string) in H. unfold string_of_nat in H.
  rewrite !NilZero.usu in H by apply Hdigits.
  injection H as H. now apply Unsigned.to_uint_inj.
Qed.

(** After the interleaved run on a working file system. *)
Lemma state_file_is_current_witness :
  let w :=
    BatchProcessor.e_world
      (BatchProcessor.run env_all_succeed interleaved_run BatchProcessor.fresh_engine)
    in
  match state_files w with
  | [] => batches w = []
  | (path, content) :: _ =>
      path = BatchProcessor.BATCH_STATE_FILE env_all_succeed /\ content = entries_snapshot w
  end.
Proof.
  refine (state_file_is_current env_all_succeed _ interleaved_run).
  - intros n; reflexivity.
Defined.

(** Two scheduled batches, written and read back. *)
Lemma persist_load_round_trip_witness :
  let disk :=
    state_files (snd (BatchProcessor.persistBatchState env_all_succeed two_scheduled_world)) in
  entries_snapshot (snd (BatchProcessor.loadBatchState env_all_succeed (boot_world disk))) =
  entries_snapshot two_scheduled_world.
Proof.
  refine (persist_load_round_trip env_all_succeed env_all_succeed two_scheduled_world _ _ _ _).
  - vm_compute; repeat constructor; cbn; intuition discriminate.
  - reflexivity.
  - reflexivity.
  - reflexivity.
Defined.

(** The file of two batches cannot be read; [p2] is scheduled next. *)
Lemma unreadable_state_file_is_replaced_witness :
  let files :=
    [(BatchProcessor.BATCH_STATE_FILE env_first_read_fails, entries_snapshot two_scheduled_world)]
    in
  let w1 := snd (BatchProcessor.loadBatchState env_first_read_fails (boot_world files)) in
  let out := BatchProcessor.scheduleBatchRun env_first_read_fails "p2" "{}" w1 in
  batches w1 = [] /\
  console w1 = ["Could not load batch state: EACCES"] /\
  exists batch : Batch,
    state_files (snd out) =
    (BatchProcessor.BATCH_STATE_FILE env_first_read_fails, [(fst out, batch)]) :: files /\
    b_id batch = fst out /\ b_profile batch = "p2" /\ b_status batch = Scheduled.
Proof.
  refine (unreadable_state_file_is_replaced env_first_read_fails (entries_snapshot
          two_scheduled_world) [] "p2" "{}" _ _).
  - reflexivity.
  - reflexivity.
Defined.


(** Three rows, the second of which fails: the batch ends [failed]. *)
Lemma executeBatch_final_state_witness :
  let out :=
    BatchProcessor.executeBatch env_middle_row_fails "p1" ["rowA"; "rowB"; "rowC"]
      one_scheduled_world
    in
  exists (r : ExecResult) (completedAt : Z),
    fst out = Returned r /\
    b_failures (heap (snd out) 0) = r_failures r /\
    b_status (heap (snd out) 0) = match r_failures r with
                                  | [] => Completed
                                  | _ :: _ => Failed
                                  end /\
    b_summary (heap (snd out) 0) =
    Some
      {|
        sum_total := Z.of_nat (Datatypes.length ["rowA"; "rowB"; "rowC"]);
        sum_succeeded := Z.of_nat (Datatypes.length (r_results r));
        sum_failed := Z.of_nat (Datatypes.length (r_failures r));
        sum_completedAt := completedAt
      |}.
Proof.
  refine (executeBatch_final_state env_middle_row_fails "p1" ["rowA"; "rowB"; "rowC"]
          one_scheduled_world 0%nat _ _).
  - vm_compute; reflexivity.
  - vm_compute; reflexivity.
Defined.

(** Three rows, the second of which fails. *)
Lemma executeBatch_events_witness :
  let out :=
    BatchProcessor.executeBatch env_middle_row_fails "p1" ["rowA"; "rowB"; "rowC"]
      one_scheduled_world
    in
  exists snapshots : list Progress,
    emitted (snd out) =
    emitted one_scheduled_world ++
    batchStarted (b_id (heap one_scheduled_world 0))
    :: map (progress (b_id (heap one_scheduled_world 0))) snapshots ++
       [batchCompleted (b_id (heap one_scheduled_world 0)) (b_summary (heap (snd out) 0))] /\
    Datatypes.length snapshots = Datatypes.length ["rowA"; "rowB"; "rowC"] /\
    (forall (k : nat) (q : Progress),
     nth_error snapshots k = Some q ->
     p_total q = Z.of_nat (Datatypes.length ["rowA"; "rowB"; "rowC"]) /\
     p_processed q = Z.of_nat (S k) /\ (p_succeeded q + p_failed q)%Z = p_processed q).
Proof.
  refine (executeBatch_events env_middle_row_fails "p1" ["rowA"; "rowB"; "rowC"]
          one_scheduled_world 0%nat _ _).
  - vm_compute; reflexivity.
  - vm_compute; reflexivity.
Defined.

(** Three records, the second of which is exhausted, retried twice. *)
Lemma retryFailedSubmissions_again_witness :
  let out :=
    BatchProcessor.retryFailedSubmissions env_second_fails
      (retry_input_before ++ retry_input_failure :: retry_input_after)
      {| maxAttempts := None; retryDelayMs := None |} fresh_world
    in
  BatchProcessor.retryFailedSubmissions env_second_fails (rr_failures (fst out))
    {| maxAttempts := None; retryDelayMs := None |} (snd out) =
  ({| rr_succeeded := []; rr_failures := rr_failures (fst out) |}, snd out).
Proof.
  refine (retryFailedSubmissions_again env_second_fails (retry_input_before ++
          retry_input_failure :: retry_input_after) (mkPolicy None None) fresh_world _).
  - vm_compute; discriminate.
Defined.

(** An id that [uuidv4] never returned, after the interleaved run. *)
Lemma unknown_batch_id_is_ignored_witness :
  let w :=
    BatchProcessor.e_world
      (BatchProcessor.run env_all_succeed interleaved_run BatchProcessor.fresh_engine)
    in
  BatchProcessor.trackBatchProgress "no-such-batch" w = (None, w) /\
  BatchProcessor.handleBatchCompletion env_all_succeed "no-such-batch" None w = (tt, w).
Proof.
  refine (unknown_batch_id_is_ignored env_all_succeed interleaved_run "no-such-batch" None _).
  - intros i H; cbn in H; discriminate H.
Defined.

(** A process that loads two scheduled batches and runs one row. *)
Lemma executeBatch_accounting_after_restart_witness :
  let e :=
    BatchProcessor.run env_all_succeed
      [BatchProcessor.Act_executeBatch "p1" ["rowA"]; BatchProcessor.Act_resume 0]
      {|
        BatchProcessor.e_world :=
          snd
            (BatchProcessor.loadBatchState env_all_succeed
               (boot_world
                  [(BatchProcessor.BATCH_STATE_FILE env_all_succeed,
                    entries_snapshot two_scheduled_world)]));
        BatchProcessor.e_inflight := [];
        BatchProcessor.e_settled := []
      |}
    in
  (forall (batchEntry : nat) (inputRows : list Row) (r : ExecResult),
   In (BatchProcessor.Resolved batchEntry inputRows r) (BatchProcessor.e_settled e) ->
   accounted (BatchProcessor.e_world e) batchEntry inputRows r) /\
  (forall ev : BatchEvent, In ev (emitted (BatchProcessor.e_world e)) -> snapshot_consistent ev).
Proof.
  refine (executeBatch_accounting_after_restart env_all_succeed [(BatchProcessor.BATCH_STATE_FILE
          env_all_succeed, entries_snapshot two_scheduled_world)]
          [BatchProcessor.Act_executeBatch "p1" ["rowA"]; BatchProcessor.Act_resume 0] _).
  - vm_compute; repeat constructor.
Defined.

(** The second batch of the interleaved run. *)
Lemma trackBatchProgress_after_resolve_witness :
  exists p : Progress,
    fst
      (BatchProcessor.trackBatchProgress
         (r_batchId
            {|
              r_batchId := "batch-1";
              r_results :=
                [{| res_profile := "p2"; res_row := "rowC"; res_status := "success" |};
                 {| res_profile := "p2"; res_row := "rowD"; res_status := "success" |}];
              r_failures := []
            |})
         (BatchProcessor.e_world
            (BatchProcessor.run env_all_succeed interleaved_run BatchProcessor.fresh_engine))) =
    Some p /\
    p_processed p = p_total p /\
    p_total p = Z.of_nat (Datatypes.length ["rowC"; "rowD"]) /\
    (p_succeeded p + p_failed p)%Z = p_processed p.
Proof.
  refine (trackBatchProgress_after_resolve env_all_succeed _ interleaved_run 1%nat ["rowC";
          "rowD"] (mkExecResult "batch-1" [mkResult "p2" "rowC" "success"; mkResult "p2" "rowD"
          "success"] []) _).
  - exact demo_uuid_unique.
  - vm_compute; right; left; reflexivity.
Defined.

(** An element inside a container styled [display: none]. *)
Lemma isHidden_inherited_witness :
  FormDetectionEngine.isHidden (Some nested_node) = Returned true /\
  AutomationCoreForms.isHidden (Some nested_node) = true.
Proof.
  refine (isHidden_inherited nested_node hidden_group _ _ _).
  - split; [reflexivity|]; exists view_doc, (mkWindow "window"); split; reflexivity.
  - reflexivity.
  - reflexivity.
Defined.


(** The rule list starts with a function matcher; the second field has a name. *)
Lemma suggestMappings_function_rule_throws_witness :
  AutomationCoreMappings.suggestMappings [comment_field; email_field]
    (Some [rule_userEmail; rule_contact]) =
  Thrown (TypeError "rule.fieldMatch.test is not a function").
Proof.
  refine (suggestMappings_function_rule_throws [comment_field; email_field] email_field
          rule_userEmail [rule_contact] _ _ _).
  - right; left; reflexivity.
  - reflexivity.
  - reflexivity.
Defined.


(** The snapshot with two groups. *)
Lemma fallbackVisualDetection_copies_agree_witness :
  map form_fields (AutomationCoreForms.fallbackVisualDetection two_groups_snapshot) =
  map form_fields
    [FormDetectionEngine.synthetic_form [text_input "first" 0 20; text_input "last" 30 50] 0;
     FormDetectionEngine.synthetic_form [text_input "street" 200 220; text_input "city" 230 250] 1].
Proof.
  refine (fallbackVisualDetection_copies_agree two_groups_snapshot
          [FormDetectionEngine.synthetic_form [text_input "first" 0 20; text_input "last" 30 50]
          0; FormDetectionEngine.synthetic_form [text_input "street" 200 220; text_input "city"
          230 250] 1] _).
  - vm_compute; reflexivity.
Defined.

(** A lone text input that is also [contenteditable]. *)
Lemma fallbackVisualDetection_lists_twice_witness :
  FormDetectionEngine.fallbackVisualDetection [editable_input] =
  Returned [FormDetectionEngine.synthetic_form [editable_input; editable_input] 0].
Proof.
  refine (fallbackVisualDetection_lists_twice editable_input _ _ _ _ _ _ _).
  - reflexivity.
  - intros H; discriminate H.
  - reflexivity.
  - reflexivity.
  - reflexivity.
  - reflexivity.
  - vm_compute; reflexivity.
Defined.

(** A session created years before, and a [null] entry. *)
Lemma cleanupSessions_removes_expired_witness :
  exists (changed : bool) (cleaned : SessionManager.Sessions) (m' : SessionManager.Machine),
    SessionManager.cleanupSessions late_host demo_sessions demo_machine =
    (SessionManager.Done (changed, cleaned), m') /\
    files_and_locks m' = files_and_locks demo_machine /\
    (forall sid : string,
     SessionManager.obj_get sid cleaned =
     match SessionManager.obj_get sid demo_sessions with
     | Some entry =>
         if
          SessionManager.expired
            (SessionManager.now_at late_host (SessionManager.n_now demo_machine)) entry
         then None
         else Some entry
     | None => None
     end) /\
    (changed = true <->
     exists (sid : string) (entry : option SessionManager.Session),
       SessionManager.obj_get sid demo_sessions = Some entry /\
       SessionManager.expired
         (SessionManager.now_at late_host (SessionManager.n_now demo_machine)) entry =
       true).
Proof.
  refine (cleanupSessions_removes_expired late_host demo_sessions demo_machine _).
  - repeat constructor; cbn; intuition discriminate.
Defined.

(** Cookies for [s1] and for an id that is not valid. *)
Lemma cleanupCookies_keeps_valid_witness :
  (forall sid : string,
   SessionManager.obj_get sid (snd (SessionManager.cleanupCookies demo_cookies ["s1"])) =
   (if existsb (String.eqb sid) ["s1"] then SessionManager.obj_get sid demo_cookies else None)) /\
  (fst (SessionManager.cleanupCookies demo_cookies ["s1"]) = true <->
   exists sid : string, In sid (SessionManager.Object_keys demo_cookies) /\ ~ In sid ["s1"]).
Proof.
  refine (cleanupCookies_keeps_valid demo_cookies ["s1"] _).
  - repeat constructor; cbn; intuition discriminate.
Defined.

(** A session made for [bob] and read back. *)
Lemma createSession_then_getSession_witness :
  exists
    (sid : string) (m1 : SessionManager.Machine) (s : SessionManager.Session) 
  (m2 : SessionManager.Machine),
    SessionManager.createSession session_host 1 (Some "bob") demo_machine =
    (SessionManager.Done sid, m1) /\
    SessionManager.getSession session_host 1 sid m1 = (SessionManager.Done (Some s), m2) /\
    SessionManager.userId s = Some "bob" /\
    SessionManager.sessionId s = sid /\
    SessionManager.data s = "{}" /\
    SessionManager.obj_get sid (stored (SessionManager.sessions_file m2)) = Some (Some s) /\
    unlocked m2.
Proof.
  refine (createSession_then_getSession session_host 1%nat _ (Some "bob") demo_machine _ _ _).
  - intros n; reflexivity.
  - split; reflexivity.
  - repeat constructor; cbn; intuition discriminate.
  - intros i j; vm_compute; discriminate.
Defined.

(** The session [s1], read years after it was created. *)
Lemma getSession_drops_old_session_witness :
  exists m' : SessionManager.Machine,
    SessionManager.getSession late_host 1 "s1" demo_machine = (SessionManager.Done None, m') /\
    (truthy "s1" = true ->
     SessionManager.obj_get "s1" (stored (SessionManager.sessions_file m')) = None) /\
    unlocked m'.
Proof.
  refine (getSession_drops_old_session late_host 1%nat _ "s1" ann_session demo_machine _ _ _ _).
  - intros n; reflexivity.
  - split; reflexivity.
  - repeat constructor; cbn; intuition discriminate.
  - reflexivity.
  - intros j; unfold late_host, ann_session, SessionManager.createdAt_or_0,
    SessionManager.SESSION_LIFETIME; cbn [SessionManager.now_at SessionManager.createdAt]; lia.
Defined.

(** Cookies persisted for an id that has no session. *)
Lemma persistCookies_then_restoreCookies_witness :
  exists m1 m2 : SessionManager.Machine,
    SessionManager.persistCookies session_host 1 "nobody" (Some ["x=1"]) demo_machine =
    (SessionManager.Done true, m1) /\
    SessionManager.restoreCookies session_host 1 "nobody" m1 =
    (SessionManager.Done
       (if
         existsb (String.eqb "nobody")
           (SessionManager.Object_keys (stored (SessionManager.sessions_file demo_machine)))
        then match Some ["x=1"] with
             | Some given => given
             | None => []
             end
        else []),
     m2) /\
    unlocked m2.
Proof.
  refine (persistCookies_then_restoreCookies session_host 1%nat _ "nobody" (Some ["x=1"])
          demo_machine _ _).
  - intros n; reflexivity.
  - split; reflexivity.
  - repeat constructor; cbn; intuition discriminate.
Defined.


(** The files with a [null] session and cookies without a session. *)
Lemma cleanupAll_cookies_have_sessions_witness :
  exists m' : SessionManager.Machine,
    SessionManager.cleanupAll session_host 1 demo_machine = (SessionManager.Done tt, m') /\
    (forall sid : string,
     SessionManager.obj_get sid (stored (SessionManager.sessions_file m')) = None ->
     SessionManager.obj_get sid (stored (SessionManager.cookies_file m')) = None) /\
    (forall sid : string,
     SessionManager.obj_get sid (stored (SessionManager.sessions_file m')) <> Some None) /\
    unlocked m'.
Proof.
  refine (cleanupAll_cookies_have_sessions session_host 1%nat _ demo_machine _ _ _).
  - intros n; reflexivity.
  - split; reflexivity.
  - repeat constructor; cbn; intuition discriminate.
  - repeat constructor; cbn; intuition discriminate.
Defined.

